(** * Bayesian-network inference: factor algebra, variable elimination and
      likelihood-weighted sampling

    A shallow embedding of [A4/bnetbase.py] and [A4/solution.py].

    Modelling conventions
    - Python objects with identity ([Variable]) live in a store [heap]
      indexed by object identity ([nat]); a scope is a list of identities,
      and [v in scope] / [v == w] are identity tests.
    - Every method that writes a field of a [Variable] is a state
      transformer on the store; an exception leaves the store as it was at
      the point of the raise.
    - The code is duck-typed in the numbers of its tables: it adds,
      multiplies and divides them and compares a sum with [0], whatever
      their type.  The numbers are modelled twice.  Exact rationals ([Qc])
      are the code run on exact numbers ([fractions.Fraction]); the bulk of
      the development is about them, and what it states of sums and
      products in the order the code takes them, of copies and of
      comparisons holds by the structure of the code.  The module [Num]
      transcribes the arithmetic once more over any number type, and
      [Float64] instantiates it with binary64 floats, the numbers of the
      repository's own tables; the statements that depend on rounding,
      overflow or underflow are settled there.  Division by zero is the
      exception [ZeroDivisionError], written out.
    - Python list indexing accepts negative indices; [py_getitem] and
      [py_setitem] write that out. *)

From Stdlib Require Import QArith Qcanon PrimFloat.
From stdpp Require Import base numbers list strings gmap pretty sorting.

Local Open Scope Z_scope.

(** ** Python values, exceptions, results *)

(** Domain values: the code only compares them with [==], looks them up with
    [list.index] and tests their truthiness. *)
Inductive pyval :=
  | VNone
  | VInt (z : Z)
  | VStr (s : string).

Global Instance pyval_eq_dec : EqDecision pyval.
Proof. solve_decision. Defined.

(** Truthiness, as used by [if query:]. *)
Definition truthy (x : pyval) : bool :=
  match x with
  | VNone => false
  | VInt z => negb (z =? 0)
  | VStr s => negb (bool_decide (s = ""%string))
  end.

(** [str(x)], for the diagnostic names of factors. *)
Definition py_str (x : pyval) : string :=
  match x with
  | VNone => "None"%string
  | VInt z => pretty z
  | VStr s => s
  end.

Inductive pyerr :=
  | ValueError
  | IndexError
  | KeyError
  | ZeroDivisionError
  | TypeError
  | UnboundLocalError.

Global Instance pyerr_eq_dec : EqDecision pyerr.
Proof. solve_decision. Defined.

Inductive Res (A : Type) :=
  | Ok (a : A)
  | Raise (e : pyerr).
Global Arguments Ok {A} a.
Global Arguments Raise {A} e.

Global Instance Res_ret : MRet Res := @Ok.
Global Instance Res_bind : MBind Res := λ A B k m,
  match m with
  | Ok a => k a
  | Raise e => Raise e
  end.

(** State-and-exception monad: the store survives a raise. *)
Definition M (S A : Type) : Type := S → Res A * S.

Definition ret {S A} (a : A) : M S A := λ s, (Ok a, s).
Definition bind {S A B} (m : M S A) (k : A → M S B) : M S B := λ s,
  match m s with
  | (Ok a, s') => k a s'
  | (Raise e, s') => (Raise e, s')
  end.
Definition lift {S A} (r : Res A) : M S A := λ s, (r, s).
Definition get {S} : M S S := λ s, (Ok s, s).
Definition put {S} (s : S) : M S unit := λ _, (Ok tt, s).

Notation "x <- m ;; k" := (bind m (λ x, k))
  (at level 100, m at next level, right associativity).
Notation "m ;;; k" := (bind m (λ _, k))
  (at level 100, right associativity).

(** [for a in l: body a] (no [break]). *)
Definition for_ {S A} (body : A → M S unit) : list A → M S unit :=
  fix go l :=
    match l with
    | [] => ret tt
    | a :: l' => body a ;;; go l'
    end.

(** A loop that carries a local variable [b] through its iterations. *)
Definition foldM {S A B} (body : B → A → M S B) : list A → B → M S B :=
  fix go l b :=
    match l with
    | [] => ret b
    | a :: l' => b' <- body b a ;; go l' b'
    end.

(** A loop that collects one result per element. *)
Definition mapM_ {S A B} (body : A → M S B) : list A → M S (list B) :=
  fix go l :=
    match l with
    | [] => ret []
    | a :: l' => b <- body a ;; bs <- go l' ;; ret (b :: bs)
    end.

(** The same for computations that only raise. *)
Definition res_mapM {A B} (body : A → Res B) : list A → Res (list B) :=
  fix go l :=
    match l with
    | [] => Ok []
    | a :: l' => b ← body a; bs ← go l'; Ok (b :: bs)
    end.

Definition res_foldM {A B} (body : B → A → Res B) : list A → B → Res B :=
  fix go l b :=
    match l with
    | [] => Ok b
    | a :: l' => b' ← body b a; go l' b'
    end.

(** ** Python list primitives *)

Section py_list.
Context {A : Type}.

(** [l[i]] with Python's negative indices. *)
Definition py_getitem (l : list A) (i : Z) : Res A :=
  let n := Z.of_nat (length l) in
  if decide (0 ≤ i < n) then
    match l !! Z.to_nat i with Some a => Ok a | None => Raise IndexError end
  else if decide (- n ≤ i < 0) then
    match l !! Z.to_nat (n + i) with Some a => Ok a | None => Raise IndexError end
  else Raise IndexError.

(** [l[i] = x]. *)
Definition py_setitem (l : list A) (i : Z) (x : A) : Res (list A) :=
  let n := Z.of_nat (length l) in
  if decide (0 ≤ i < n) then Ok (<[Z.to_nat i := x]> l)
  else if decide (- n ≤ i < 0) then Ok (<[Z.to_nat (n + i) := x]> l)
  else Raise IndexError.

Context `{EqDecision A}.

(** Position of the first element equal to [x]. *)
Fixpoint index_from (x : A) (l : list A) (i : Z) : option Z :=
  match l with
  | [] => None
  | y :: l' => if decide (y = x) then Some i else index_from x l' (i + 1)
  end.

(** [l.index(x)]. *)
Definition py_index (l : list A) (x : A) : Res Z :=
  match index_from x l 0 with
  | Some i => Ok i
  | None => Raise ValueError
  end.

(** [l.remove(x)]: drops the first occurrence. *)
Fixpoint py_remove (l : list A) (x : A) : Res (list A) :=
  match l with
  | [] => Raise ValueError
  | y :: l' => if decide (y = x) then Ok l' else l'' ← py_remove l' x; Ok (y :: l'')
  end.

(** [x in l]. *)
Definition py_in (x : A) (l : list A) : bool := bool_decide (x ∈ l).
End py_list.

(** [itertools.product] of the lists [ls]: the last list varies fastest. *)
Fixpoint product {A} (ls : list (list A)) : list (list A) :=
  match ls with
  | [] => [[]]
  | l :: ls' => a ← l; (λ rest, a :: rest) <$> product ls'
  end.

(** [sum(nums)]. *)
Definition py_sum (nums : list Qc) : Qc := foldl Qcplus 0%Qc nums.

(** [a / b] on numbers. *)
Definition py_div (a b : Qc) : Res Qc :=
  if decide (b = 0%Qc) then Raise ZeroDivisionError else Ok (a / b)%Qc.

(** ** class Variable *)

(** The instance dictionary of a [Variable].  [reset_evidence_attr] is the
    instance attribute [reset_evidence]: absent ([None]) after [__init__],
    so that the name resolves to the method of the class. *)
Record VariableObj := mkVariable {
  v_name : string;
  v_dom : list pyval;
  evidence_index : Z;
  assignment_index : Z;
  reset_evidence_attr : option Z;
}.

Global Instance VariableObj_inhabited : Inhabited VariableObj :=
  populate (mkVariable "" [] (-1) (-1) None).

Definition Variable_init (name : string) (domain : list pyval) : VariableObj :=
  mkVariable name domain (-1) (-1) None.

(** The store of [Variable] objects; an identity denotes the object stored
    under it. *)
Abbreviation heap := (gmap nat VariableObj).

Definition obj (h : heap) (v : nat) : VariableObj := h !!! v.

Definition with_assignment_index (o : VariableObj) (i : Z) : VariableObj :=
  mkVariable (v_name o) (v_dom o) (evidence_index o) i (reset_evidence_attr o).
Definition with_evidence_index (o : VariableObj) (i : Z) : VariableObj :=
  mkVariable (v_name o) (v_dom o) i (assignment_index o) (reset_evidence_attr o).
Definition with_reset_evidence_attr (o : VariableObj) (a : option Z) : VariableObj :=
  mkVariable (v_name o) (v_dom o) (evidence_index o) (assignment_index o) a.
Definition with_dom (o : VariableObj) (d : list pyval) : VariableObj :=
  mkVariable (v_name o) d (evidence_index o) (assignment_index o) (reset_evidence_attr o).

Definition reset_assignment (v : nat) : M heap unit := λ h,
  (Ok tt, <[v := with_assignment_index (obj h v) (-1)]> h).

(** [self.reset_evidence = -1]: binds an instance attribute that shadows the
    method; [evidence_index] is not touched.  Once the attribute is bound,
    [v.reset_evidence()] calls an [int]. *)
Definition reset_evidence (v : nat) : M heap unit := λ h,
  match reset_evidence_attr (obj h v) with
  | None => (Ok tt, <[v := with_reset_evidence_attr (obj h v) (Some (-1))]> h)
  | Some _ => (Raise TypeError, h)
  end.

Definition add_domain_values (v : nat) (values : list pyval) : M heap unit := λ h,
  (Ok tt, <[v := with_dom (obj h v) (v_dom (obj h v) ++ values)]> h).

Definition value_index (h : heap) (v : nat) (value : pyval) : Res Z :=
  py_index (v_dom (obj h v)) value.

Definition domain_size (h : heap) (v : nat) : Z :=
  Z.of_nat (length (v_dom (obj h v))).

Definition domain (h : heap) (v : nat) : list pyval := v_dom (obj h v).

Definition set_evidence (v : nat) (val : pyval) : M heap unit := λ h,
  match value_index h v val with
  | Ok i => (Ok tt, <[v := with_evidence_index (obj h v) i]> h)
  | Raise e => (Raise e, h)
  end.

Definition get_evidence (h : heap) (v : nat) : Res pyval :=
  if decide (evidence_index (obj h v) >= 0)
  then py_getitem (v_dom (obj h v)) (evidence_index (obj h v))
  else Ok VNone.

Definition set_assignment (v : nat) (val : pyval) : M heap unit := λ h,
  match value_index h v val with
  | Ok i => (Ok tt, <[v := with_assignment_index (obj h v) i]> h)
  | Raise e => (Raise e, h)
  end.

Definition get_assignment (h : heap) (v : nat) : Res pyval :=
  if decide (assignment_index (obj h v) >= 0)
  then py_getitem (v_dom (obj h v)) (assignment_index (obj h v))
  else Ok VNone.

Definition set_assignment_index (v : nat) (index : Z) : M heap unit := λ h,
  (Ok tt, <[v := with_assignment_index (obj h v) index]> h).

Definition get_assignment_index (h : heap) (v : nat) : Z :=
  assignment_index (obj h v).

(** ** class Factor *)

Record Factor := mkFactor {
  f_name : string;
  f_scope : list nat;
  f_values : list Qc;
}.

Global Instance Factor_eq_dec : EqDecision Factor.
Proof. solve_decision. Defined.

(** The loop [size = size * v.domain_size()] of [Factor.__init__]. *)
Definition table_size (h : heap) (scope : list nat) : Z :=
  foldl (λ size v, size * domain_size h v) 1 scope.

(** [Factor.__init__]: the table is [[0] * size]. *)
Definition Factor_init (h : heap) (name : string) (scope : list nat) : Factor :=
  mkFactor name scope (replicate (Z.to_nat (table_size h scope)) 0%Qc).

Definition get_scope (f : Factor) : list nat := f_scope f.

(** The indexing loop shared by [add_values] and [get_value]:
    [index = index * v.domain_size() + v.value_index(t[0]); t = t[1:]].
    Returns the index and what is left of [t]. *)
Fixpoint row_index (h : heap) (scope : list nat) (t : list pyval) (index : Z)
  : Res (Z * list pyval) :=
  match scope with
  | [] => Ok (index, t)
  | v :: scope' =>
      t0 ← py_getitem t 0;
      i ← value_index h v t0;
      row_index h scope' (tail t) (index * domain_size h v + i)
  end.

(** One row of [add_values]: the scope's values followed by the number.  The
    row type keeps the trailing number apart from the values, which fits the
    rows the code builds ([list(comb) + [mult]]).  On a row whose values do
    not match the scope in number Python reads a value where the number is
    due, or the number where a value is due; the model raises there
    ([TypeError] at the store, [IndexError] in the loop), where Python may
    raise another exception or store the stray cell. *)
Definition add_values_row (h : heap) (F : Factor) (t : list pyval * Qc) : Res Factor :=
  '(index, rest) ← row_index h (f_scope F) (fst t) 0;
  match rest with
  | [] =>
      vals ← py_setitem (f_values F) index (snd t);
      Ok (mkFactor (f_name F) (f_scope F) vals)
  | _ :: _ => Raise TypeError
  end.

Fixpoint add_values (h : heap) (F : Factor) (values : list (list pyval * Qc)) : Res Factor :=
  match values with
  | [] => Ok F
  | t :: values' => F' ← add_values_row h F t; add_values h F' values'
  end.

(** The index of the current assignment:
    [index = index * v.domain_size() + v.get_assignment_index()]. *)
Definition current_index (h : heap) (scope : list nat) : Z :=
  foldl (λ index v, index * domain_size h v + get_assignment_index h v) 0 scope.

Definition add_value_at_current_assignment (h : heap) (F : Factor) (number : Qc) : Res Factor :=
  vals ← py_setitem (f_values F) (current_index h (f_scope F)) number;
  Ok (mkFactor (f_name F) (f_scope F) vals).

Definition get_values (f : Factor) : list Qc := f_values f.

Definition get_value (h : heap) (f : Factor) (variable_values : list pyval) : Res Qc :=
  '(index, _) ← row_index h (f_scope f) variable_values 0;
  py_getitem (f_values f) index.

Definition get_value_at_current_assignments (h : heap) (f : Factor) : Res Qc :=
  py_getitem (f_values f) (current_index h (f_scope f)).

(** ** class BN *)

Record BN := mkBN {
  bn_name : string;
  bn_Variables : list nat;
  bn_Factors : list Factor;
}.

Definition factors (Net : BN) : list Factor := bn_Factors Net.
Definition variables (Net : BN) : list nat := bn_Variables Net.

Definition reset_variables (Net : BN) : M heap unit :=
  for_ (λ v h,
    (Ok tt, <[v := with_assignment_index (with_evidence_index (obj h v) (-1)) (-1)]> h))
    (bn_Variables Net).

(** [BN.get_variable]: the loop [for v in list(self.Variables)] returns at
    the first variable whose name is [name]; [None] when it runs out. *)
Fixpoint get_variable_loop (h : heap) (Variables : list nat) (name : string) : option nat :=
  match Variables with
  | [] => None
  | v :: Variables' =>
      if decide (v_name (obj h v) = name) then Some v
      else get_variable_loop h Variables' name
  end.

Definition get_variable (h : heap) (Net : BN) (name : string) : option nat :=
  get_variable_loop h (bn_Variables Net) name.

(** ** Methods to support VE ([bnetbase.py]) *)

(** Run a computation that fills in the local factor [F]; the result is the
    factor as it stands at the end. *)
Definition building (F : Factor) (m : M (heap * Factor) unit) : M heap Factor := λ h,
  match m (h, F) with
  | (Ok _, (h', F')) => (Ok F', h')
  | (Raise e, (h', _)) => (Raise e, h')
  end.

Definition on_heap {A} (m : M heap A) : M (heap * Factor) A := λ s,
  match m (fst s) with
  | (r, h') => (r, (h', snd s))
  end.

(** [F.add_value_at_current_assignment(number)] on the local factor. *)
Definition F_add_value_at_current_assignment (number : Qc) : M (heap * Factor) unit :=
  s <- get ;;
  F' <- lift (add_value_at_current_assignment (fst s) (snd s) number) ;;
  put (fst s, F').

Fixpoint recursive_restrict_factor (f : Factor) (var : nat) (Vars : list nat)
  : M (heap * Factor) unit :=
  match Vars with
  | [] =>
      s <- get ;;
      x <- lift (get_value_at_current_assignments (fst s) f) ;;
      F_add_value_at_current_assignment x
  | v0 :: Vars' =>
      if decide (v0 ≠ var) then
        s <- get ;;
        for_ (λ val, on_heap (set_assignment v0 val) ;;;
                     recursive_restrict_factor f var Vars')
             (domain (fst s) v0)
      else recursive_restrict_factor f var Vars'
  end.

Definition restrict_factor (f : Factor) (var : nat) (value : pyval) : M heap Factor :=
  scope <- lift (py_remove (get_scope f) var) ;;
  h <- get ;;
  let F := Factor_init h
    ("Restrict " +:+ f_name f +:+ "|" +:+ v_name (obj h var) +:+ "=" +:+ py_str value)
    scope in
  set_assignment var value ;;;
  building F (recursive_restrict_factor f var (get_scope f)).

Fixpoint recursive_eliminate_variable (f : Factor) (var : nat) (Vars : list nat)
  : M (heap * Factor) unit :=
  match Vars with
  | [] =>
      s <- get ;;
      summ <- foldM (λ summ val,
                on_heap (set_assignment var val) ;;;
                s' <- get ;;
                prod <- lift (get_value_at_current_assignments (fst s') f) ;;
                ret (summ + prod)%Qc)
              (domain (fst s) var) 0%Qc ;;
      F_add_value_at_current_assignment summ
  | v0 :: Vars' =>
      s <- get ;;
      for_ (λ val, on_heap (set_assignment v0 val) ;;;
                   recursive_eliminate_variable f var Vars')
           (domain (fst s) v0)
  end.

Definition sum_out_variable (f : Factor) (var : nat) : M heap Factor :=
  scope <- lift (py_remove (get_scope f) var) ;;
  h <- get ;;
  let F := Factor_init h
    ("Eliminate-" +:+ v_name (obj h var) +:+ "-" +:+ f_name f) scope in
  building F (recursive_eliminate_variable f var scope).

Definition normalize (nums : list Qc) : list Qc :=
  let s := py_sum nums in
  if decide (s = 0%Qc) then replicate (length nums) 0%Qc
  else (λ n, n / s)%Qc <$> nums.

(** ** [solution.py] *)

(** One turn of the loop of [multiply_factors]: the product of the two
    factors popped from the working list. *)
Definition multiply_pair (h : heap) (factor1 factor2 : Factor) : Res Factor :=
  let scope1 := get_scope factor1 in
  let scope2 := get_scope factor2 in
  let remaining_scope1 := filter (λ var, var ∉ scope2) scope1 in
  let new_scp := scope2 ++ remaining_scope1 in
  let factor := Factor_init h "Factor" new_scp in
  let combs := product ((λ scp, domain h scp) <$> new_scp) in
  res_foldM (λ factor comb,
      comb1 ← res_mapM (λ elem, i ← py_index new_scp elem; py_getitem comb i) scope1;
      comb2 ← res_mapM (λ elem, i ← py_index new_scp elem; py_getitem comb i) scope2;
      x1 ← get_value h factor1 comb1;
      x2 ← get_value h factor2 comb2;
      let mult := (x1 * x2)%Qc in
      add_values h factor [(comb, mult)])
    combs factor.

(** The [while True] loop.  The working list is held as a stack whose top is
    the end of the Python list: [factor1] is the factor popped first, [below]
    what the list holds under it.  With nothing below, [len(factors) == 1]
    and the loop breaks; otherwise [factor2] is popped and the product is
    appended, which makes it the next [factor1]. *)
Fixpoint multiply_loop (h : heap) (factor1 : Factor) (below : list Factor) : Res Factor :=
  match below with
  | [] => Ok factor1
  | factor2 :: below' =>
      factor ← multiply_pair h factor1 factor2;
      multiply_loop h factor below'
  end.

(** On the empty list [len(factors) == 1] fails and [factors.pop()] raises. *)
Definition multiply_factors (h : heap) (Factors : list Factor) : Res Factor :=
  match reverse Factors with
  | [] => Raise IndexError
  | factor1 :: below => multiply_loop h factor1 below
  end.

(** [count_dct]: a dict keeps its keys in insertion order. *)
Fixpoint dict_setdefault (k : nat) (d0 : nat) (dct : list (nat * nat)) : list (nat * nat) :=
  match dct with
  | [] => [(k, d0)]
  | (k', c) :: dct' =>
      if decide (k' = k) then (k', c) :: dct' else (k', c) :: dict_setdefault k d0 dct'
  end.

(** [dct[k] += 1] on a key that is present. *)
Fixpoint dict_incr (k : nat) (dct : list (nat * nat)) : list (nat * nat) :=
  match dct with
  | [] => []
  | (k', c) :: dct' =>
      if decide (k' = k) then (k', S c) :: dct' else (k', c) :: dict_incr k dct'
  end.

(** [sorted(items, key=...)]: Python's sort is stable, and a stable sort has
    one result, which insertion from the right computes. *)
Fixpoint insert_by_key {A} (key : A → nat) (x : A) (l : list A) : list A :=
  match l with
  | [] => [x]
  | y :: l' =>
      if decide (key x ≤ key y)%nat then x :: y :: l' else y :: insert_by_key key x l'
  end.

Definition sorted {A} (key : A → nat) (l : list A) : list A :=
  foldr (insert_by_key key) [] l.

Definition min_fill_ordering (Factors : list Factor) (QueryVar : nat) : list nat :=
  let count_dct :=
    foldl (λ count_dct factor,
      foldl (λ count_dct scope,
        if decide (scope ≠ QueryVar)
        then dict_incr scope (dict_setdefault scope 0%nat count_dct)
        else count_dct)
        count_dct (get_scope factor))
      [] Factors in
  fst <$> sorted snd count_dct.

(** Helper for VE that eliminates [var]. *)
Definition VE_cagan31 (factors : list Factor) (var : nat) : M heap (list Factor) :=
  let lst := filter (λ factor, var ∈ get_scope factor) factors in
  match lst with
  | [] => ret factors
  | _ :: _ =>
      h <- get ;;
      multiplied_factor <- lift (multiply_factors h lst) ;;
      let new_lst := filter (λ factor, factor ∉ lst) factors in
      summed <- sum_out_variable multiplied_factor var ;;
      ret (new_lst ++ [summed])
  end.

Definition VE (Net : BN) (QueryVar : nat) (EvidenceVars : list nat) : M heap (list Qc) :=
  factors <- foldM (λ factors ev,
      mapM_ (λ factor,
          if decide (ev ∈ get_scope factor) then
            h <- get ;;
            value <- lift (get_evidence h ev) ;;
            restrict_factor factor ev value
          else ret factor)
        factors)
    EvidenceVars (factors Net) ;;
  let ordered := min_fill_ordering factors QueryVar in
  factors <- foldM VE_cagan31 ordered factors ;;
  h <- get ;;
  last_factor <- lift (multiply_factors h factors) ;;
  probabilities <- lift (res_mapM (λ dom, get_value h last_factor [dom]) (domain h QueryVar)) ;;
  ret (normalize probabilities).

(** *** Likelihood-weighted sampling *)

(** The locals of [SampleBN] that live across rounds.  [loop_i] is the one
    local [i]: the round loop [for i in range(1000)] and the choosing loop
    [for i in range(len(normalized_probs))] both assign it, and
    [weights[i] += curr_weight] reads it.  [curr_factor] is [None] while the
    local is unbound.  [draws] counts the calls of [random.random()] made so
    far; the k-th call returns [random k]. *)
Record Sampler := mkSampler {
  weights : list Qc;
  total : Qc;
  loop_i : Z;
  curr_factor : option Factor;
  draws : nat;
}.

Section SampleBN.
Variable random : nat → Qc.
Variable h : heap.
Variable Net : BN.
Variable QueryVar : nat.
Variable EvidenceVars : list nat.

(** The loop over the evidence: fills [dct] and scales [curr_weight] by
    every one-variable factor on an evidence variable. *)
Definition evidence_loop (evidence : list nat) : Res (gmap string pyval * Qc) :=
  res_foldM (λ '(dct, curr_weight) ev,
      e ← get_evidence h ev;
      let dct := <[v_name (obj h ev) := e]> dct in
      curr_weight ← res_foldM (λ curr_weight factor,
          let scp := get_scope factor in
          if decide (ev ∈ scp ∧ length scp = 1%nat) then
            e' ← get_evidence h ev;
            x ← get_value h factor [e'];
            Ok (curr_weight * x)%Qc
          else Ok curr_weight)
        (factors Net) curr_weight;
      Ok (dct, curr_weight))
    evidence (∅, 1%Qc).

(** [for i in range(len(normalized_probs))], with its [break].  [index] is
    the value the loop is about to assign to [i]. *)
Fixpoint choose_loop (variable : nat) (random_num : Qc) (normalized_probs : list Qc)
    (index : Z) (accumulator : Qc) (i : Z) (chosen_val : pyval) : Res (Z * pyval) :=
  match normalized_probs with
  | [] => Ok (i, chosen_val)
  | p :: rest =>
      let accumulator := (accumulator + p)%Qc in
      if decide (random_num ≤ accumulator)%Qc then
        chosen_val ← py_getitem (domain h variable) index;
        Ok (index, chosen_val)
      else choose_loop variable random_num rest (index + 1) accumulator index chosen_val
  end.

(** The conditional distribution of [variable] under [dct]: the values
    [probs] of [curr_factor] at each value of the domain, divided by their
    sum. *)
Definition conditional_probs (dct : gmap string pyval) (cf : Factor) (variable : nat)
  : Res (list Qc) :=
  probs ← res_mapM (λ val,
      combination ← res_mapM (λ v,
          if decide (v = variable) then Ok val
          else match dct !! v_name (obj h v) with
               | Some x => Ok x
               | None => Raise KeyError
               end)
        (get_scope cf);
      get_value h cf combination)
    (domain h variable);
  let prob_sum := py_sum probs in
  res_mapM (λ p, py_div p prob_sum) probs.

(** The body of [for variable in Net.variables()]. *)
Definition sample_variable (st : Sampler * gmap string pyval) (variable : nat)
  : Res (Sampler * gmap string pyval) :=
  let '(s, dct) := st in
  if decide (variable ∉ EvidenceVars) then
    let curr_factor' :=
      match list_find (λ factor, variable ∈ get_scope factor) (factors Net) with
      | Some (_, factor) => Some factor
      | None => curr_factor s
      end in
    match curr_factor' with
    | None => Raise UnboundLocalError
    | Some cf =>
        normalized_probs ← conditional_probs dct cf variable;
        let random_num := random (draws s) in
        '(i, chosen_val) ←
          choose_loop variable random_num normalized_probs 0 0%Qc (loop_i s) (VInt 0);
        Ok (mkSampler (weights s) (total s) i (Some cf) (S (draws s)),
            <[v_name (obj h variable) := chosen_val]> dct)
    end
  else Ok (s, dct).

(** The first part of a round: the assignment [dct] and the weight
    [curr_weight] of the sample.  [i] starts as the round's number. *)
Definition sample_assignment (round : Z) (s : Sampler)
  : Res (Sampler * gmap string pyval * Qc) :=
  let s := mkSampler (weights s) (total s) round (curr_factor s) (draws s) in
  let evidence := EvidenceVars in
  '(dct, curr_weight) ← evidence_loop evidence;
  '(s, dct) ← res_foldM sample_variable (variables Net) (s, dct);
  Ok (s, dct, curr_weight).

(** The second part: the two accumulations. *)
Definition accumulate (s : Sampler) (dct : gmap string pyval) (curr_weight : Qc)
  : Res Sampler :=
  let query := default VNone (dct !! v_name (obj h QueryVar)) in
  weights' ←
    (if truthy query then
       if decide (query ∈ domain h QueryVar) then
         w ← py_getitem (weights s) (loop_i s);
         py_setitem (weights s) (loop_i s) (w + curr_weight)%Qc
       else Ok (weights s)
     else Ok (weights s));
  Ok (mkSampler weights' (total s + curr_weight)%Qc (loop_i s) (curr_factor s) (draws s)).

Definition sample_round (s : Sampler) (round : Z) : Res Sampler :=
  '(s, dct, curr_weight) ← sample_assignment round s;
  accumulate s dct curr_weight.

(** [SampleBN] with the number of rounds as a parameter. *)
Definition SampleBN_rounds (rounds : nat) : Res (list Qc) :=
  s ← res_foldM sample_round (Z.of_nat <$> seq 0 rounds)
        (mkSampler (replicate (length (domain h QueryVar)) 0%Qc) 0%Qc 0 None 0%nat);
  res_mapM (λ weight, py_div weight (total s)) (weights s).

Definition SampleBN : Res (list Qc) := SampleBN_rounds 1000.
End SampleBN.

(** ** A sample network

    The five-variable network of the repository's autograder: [E], [B], [S],
    [G], [W] with [P(E)], [P(B)], [P(S|E,B)], [P(G|S)], [P(W|S)]. *)

Definition qc (a : Z) (b : positive) : Qc := Q2Qc (a # b).

Definition vE : nat := 0.
Definition vB : nat := 1.
Definition vS : nat := 2.
Definition vG : nat := 3.
Definition vW : nat := 4.

Definition ex_heap : heap :=
  list_to_map
    [(vE, Variable_init "E" [VStr "e"; VStr "-e"]);
     (vB, Variable_init "B" [VStr "b"; VStr "-b"]);
     (vS, Variable_init "S" [VStr "s"; VStr "-s"]);
     (vG, Variable_init "G" [VStr "g"; VStr "-g"]);
     (vW, Variable_init "W" [VStr "w"; VStr "-w"])].

Definition FE : Factor := mkFactor "P(E)" [vE] [qc 1 10; qc 9 10].
Definition FB : Factor := mkFactor "P(B)" [vB] [qc 1 10; qc 9 10].
Definition FS : Factor :=
  mkFactor "P(S|E,B)" [vS; vE; vB]
    [qc 9 10; qc 2 10; qc 8 10; qc 0 1; qc 1 10; qc 8 10; qc 2 10; qc 1 1].
Definition FG : Factor := mkFactor "P(G|S)" [vG; vS] [qc 1 2; qc 0 1; qc 1 2; qc 1 1].
Definition FW : Factor := mkFactor "P(W|S)" [vW; vS] [qc 8 10; qc 2 10; qc 2 10; qc 8 10].

Definition ExampleBN : BN := mkBN "ExampleBN" [vE; vB; vS; vG; vW] [FE; FB; FS; FG; FW].

(** Two independent variables [Q] and [X]: [Q] is certainly [a], [X] is
    certainly [d]. *)
Definition vQ : nat := 0.
Definition vX : nat := 1.

Definition qx_heap : heap :=
  list_to_map
    [(vQ, Variable_init "Q" [VStr "a"; VStr "b"]);
     (vX, Variable_init "X" [VStr "c"; VStr "d"])].

Definition FQ : Factor := mkFactor "P(Q)" [vQ] [qc 1 1; qc 0 1].
Definition FX : Factor := mkFactor "P(X)" [vX] [qc 0 1; qc 1 1].
Definition QXNet : BN := mkBN "QX" [vQ; vX] [FQ; FX].

(** The same two variables, with [Q] uniform and the evidence [X = c] of
    prior probability zero. *)
Definition FQ_half : Factor := mkFactor "P(Q)" [vQ] [qc 1 2; qc 1 2].
Definition QXNet_half : BN := mkBN "QX" [vQ; vX] [FQ_half; FX].
Definition qx_heap_c : heap := (set_evidence vX (VStr "c") qx_heap).2.

(** ** Notions the statements are phrased in *)

(** Sum and product of a list of numbers. *)
Definition sumQ (l : list Qc) : Qc := foldr Qcplus 0%Qc l.
Definition prodQ (l : list Qc) : Qc := foldr Qcmult 1%Qc l.


(** The variables met when scanning the factors in order, each scope left to
    right. *)
Definition scan (Factors : list Factor) : list nat :=
  foldr (λ f acc, get_scope f ++ acc) [] Factors.

(** The number of factors whose scope contains [v]. *)
Definition appearances (Factors : list Factor) (v : nat) : nat :=
  length (filter (λ f, v ∈ get_scope f) Factors).

(** Position of the first occurrence of [v] in [l] ([length l] if none). *)
Fixpoint first_pos (v : nat) (l : list nat) : nat :=
  match l with
  | [] => 0%nat
  | y :: l' => if decide (y = v) then 0%nat else S (first_pos v l')
  end.

(** When [v] is first encountered in the scan. *)
Definition encounter (Factors : list Factor) (v : nat) : nat :=
  first_pos v (scan Factors).

(** The min-appearance order: fewer appearances first, ties by first
    encounter. *)
Definition min_appearance_before (Factors : list Factor) (a b : nat) : Prop :=
  (appearances Factors a < appearances Factors b)%nat ∨
  (appearances Factors a = appearances Factors b ∧
   (encounter Factors a < encounter Factors b)%nat).

(** The distinct elements of a list in the order of their first
    occurrence, and the number of occurrences of an element. *)
Fixpoint firsts (l : list nat) : list nat :=
  match l with
  | [] => []
  | x :: l' => x :: filter (λ y, y ≠ x) (firsts l')
  end.

Definition occurrences (k : nat) (l : list nat) : nat :=
  length (filter (λ y, y = k) l).

(** Order by [key], ties by [rank]: what a stable sort by [key] yields on a
    list that ascends in [rank]. *)
Definition stable_lt {A} (key rank : A → nat) (a b : A) : Prop :=
  (key a < key b)%nat ∨ (key a = key b ∧ (rank a < rank b)%nat).

(** An assignment gives every variable a value. *)
Abbreviation assignment := (gmap nat pyval).

Global Instance pyval_inhabited : Inhabited pyval := populate VNone.

(** The assignment gives the variables of [scope] values of their domains. *)
Definition valid_on (h : heap) (σ : assignment) (scope : list nat) : Prop :=
  ∀ v, v ∈ scope → σ !!! v ∈ domain h v.

Global Instance valid_on_dec (h : heap) (σ : assignment) (scope : list nat) :
  Decision (valid_on h σ scope).
Proof.
  refine (cast_if (decide (Forall (λ v, σ !!! v ∈ domain h v) scope)));
    unfold valid_on; by rewrite Forall_forall in *.
Defined.

(** The value of [f] at the assignment restricted to the scope of [f]:
    what [f.get_value] returns on the scope's values in scope order. *)
Definition value_at (h : heap) (f : Factor) (σ : assignment) : Res Qc :=
  get_value h f ((λ v, σ !!! v) <$> get_scope f).

(** The same as a number, 0 where [get_value] raises. *)
Definition value_of (h : heap) (f : Factor) (σ : assignment) : Qc :=
  match value_at h f σ with
  | Ok x => x
  | Raise _ => 0%Qc
  end.

(** The table of a factor has the size its constructor gave it. *)
Definition wf_factor (h : heap) (f : Factor) : Prop :=
  length (f_values f) = Z.to_nat (table_size h (f_scope f)).

(** Two stores hold the same domains. *)
Definition same_dom (h h' : heap) : Prop :=
  ∀ v, v_dom (obj h' v) = v_dom (obj h v).

(** Index arithmetic: the product of the domain sizes of a scope, the
    mixed-radix index of a choice [ρ] of positions, and the position of a
    value in a domain. *)
Definition psize (h : heap) (scope : list nat) : Z :=
  foldr (λ v p, domain_size h v * p) 1 scope.

Definition hidx (h : heap) (ρ : nat → Z) (scope : list nat) (acc : Z) : Z :=
  foldl (λ index v, index * domain_size h v + ρ v) acc scope.

Definition vidx (h : heap) (v : nat) (val : pyval) : Z :=
  default 0 (index_from val (v_dom (obj h v)) 0).

Definition positions (h : heap) (σ : assignment) : nat → Z :=
  λ v, vidx h v (σ !!! v).

Definition table_at (h : heap) (f : Factor) (ρ : nat → Z) : Qc :=
  default 0%Qc (f_values f !! Z.to_nat (hidx h ρ (f_scope f) 0)).

(** The shape shared by the two table-filling recursions: assign every
    value to every variable of [Vars] in turn, and run [leaf] under each
    complete assignment. *)
Definition enumerate (leaf : M (heap * Factor) unit) : list nat → M (heap * Factor) unit :=
  fix go Vars :=
    match Vars with
    | [] => leaf
    | v0 :: Vars' =>
        s <- get ;;
        for_ (λ val, on_heap (set_assignment v0 val) ;;; go Vars') (domain (fst s) v0)
    end.

(** The leaf of [recursive_restrict_factor]. *)
Definition leaf_restrict (f : Factor) : M (heap * Factor) unit :=
  s <- get ;;
  x <- lift (get_value_at_current_assignments (fst s) f) ;;
  F_add_value_at_current_assignment x.

(** The leaf of [recursive_eliminate_variable]. *)
Definition leaf_eliminate (f : Factor) (var : nat) : M (heap * Factor) unit :=
  s <- get ;;
  summ <- foldM (λ summ val,
            on_heap (set_assignment var val) ;;;
            s' <- get ;;
            prod <- lift (get_value_at_current_assignments (fst s') f) ;;
            ret (summ + prod)%Qc)
          (domain (fst s) var) 0%Qc ;;
  F_add_value_at_current_assignment summ.

(** Choices of positions: [upd] changes one, [envs] lists every completion
    of [ρ] on [Vars] in the order the loops visit them. *)
Definition upd (ρ : nat → Z) (v : nat) (i : Z) : nat → Z :=
  λ w, if decide (w = v) then i else ρ w.

Fixpoint envs (h : heap) (ρ : nat → Z) (Vars : list nat) : list (nat → Z) :=
  match Vars with
  | [] => [ρ]
  | v :: Vars' => val ← domain h v; envs h (upd ρ v (vidx h v val)) Vars'
  end.

(** One write into the table of [F], at the index of [ρ]. *)
Definition write_at (h : heap) (g : (nat → Z) → Qc) (F : Factor) (ρ : nat → Z) : Factor :=
  mkFactor (f_name F) (f_scope F)
    (<[Z.to_nat (hidx h ρ (f_scope F) 0) := g ρ]> (f_values F)).

(** What the leaf of [recursive_eliminate_variable] writes: the sum over
    the positions of the values of [var]. *)
Definition g_eliminate (h : heap) (f : Factor) (var : nat) (ρ : nat → Z) : Qc :=
  py_sum ((λ val, table_at h f (upd ρ var (vidx h var val))) <$> domain h var).

(** The assignment that gives the variables of [scope] the values of
    [comb], position by position. *)
Fixpoint assign (scope : list nat) (comb : list pyval) : assignment :=
  match scope, comb with
  | v :: scope', x :: comb' => <[v := x]> (assign scope' comb')
  | _, _ => ∅
  end.

(** The scope [multiply_pair] gives the product: [scope2] followed by what
    is left of [scope1]. *)
Definition product_scope (factor1 factor2 : Factor) : list nat :=
  get_scope factor2 ++ filter (λ var, var ∉ get_scope factor2) (get_scope factor1).

(** What [multiply_pair] writes at a choice of positions. *)
Definition g_multiply (h : heap) (f1 f2 : Factor) (ρ : nat → Z) : Qc :=
  (table_at h f1 ρ * table_at h f2 ρ)%Qc.

(** The standing invariant of a factor: distinct scope variables and a
    table of the size the constructor gives it. *)
Definition good_factor (h : heap) (f : Factor) : Prop :=
  NoDup (get_scope f) ∧ wf_factor h f.

(** ** The brute-force marginal

    The reference that [VE] is compared with, written from the
    specification: the product of all the factors of the network, every
    variable other than the query variable summed out, the result read at
    each value of the query domain in declared order, and normalized. *)

(** The product of all the factors, as a function of the assignment. *)
Definition joint (h : heap) (Factors : list Factor) (σ : assignment) : Qc :=
  prodQ ((λ f, value_of h f σ) <$> Factors).

(** [g] with every variable of [vars] summed out: the sum of [g] over
    every value of every one of them. *)
Fixpoint sum_over (h : heap) (vars : list nat) (g : assignment → Qc) (σ : assignment) : Qc :=
  match vars with
  | [] => g σ
  | x :: vars' => sumQ ((λ val, sum_over h vars' g (<[x := val]> σ)) <$> domain h x)
  end.

(** The variables of the factors other than the query variable, each once. *)
Definition other_variables (Factors : list Factor) (QueryVar : nat) : list nat :=
  firsts (filter (λ v, v ≠ QueryVar) (scan Factors)).

Definition brute_force (h : heap) (Net : BN) (QueryVar : nat) : list Qc :=
  normalize
    ((λ q, sum_over h (other_variables (factors Net) QueryVar) (joint h (factors Net))
             (<[QueryVar := q]> ∅))
       <$> domain h QueryVar).

(** The same reference carried out with the repository's own factor
    operations: [multiply_factors] on all the factors, [sum_out_variable] for
    every variable of the product's scope other than the query variable,
    [get_value] at each value of the query domain, [normalize]. *)
Definition brute_force_run (Net : BN) (QueryVar : nat) : M heap (list Qc) :=
  h <- get ;;
  product_factor <- lift (multiply_factors h (factors Net)) ;;
  summed <- foldM sum_out_variable
              (filter (λ v, v ≠ QueryVar) (get_scope product_factor)) product_factor ;;
  h <- get ;;
  values <- lift (res_mapM (λ dom, get_value h summed [dom]) (domain h QueryVar)) ;;
  ret (normalize values).

(** The reference once more, with the normalization written out rather than
    taken from the code: the weight of each value of the query domain is the
    summed-out product, and each weight is divided by the total of the
    weights, or replaced by 0 when that total is 0. *)
Definition marginal_weights (h : heap) (Net : BN) (QueryVar : nat) : list Qc :=
  (λ q, sum_over h (other_variables (factors Net) QueryVar) (joint h (factors Net))
          (<[QueryVar := q]> ∅))
    <$> domain h QueryVar.

Definition reference_distribution (h : heap) (Net : BN) (QueryVar : nat) : list Qc :=
  let weights := marginal_weights h Net QueryVar in
  let total := sumQ weights in
  (λ w, if decide (total = 0%Qc) then 0%Qc else (w / total)%Qc) <$> weights.

(** [w] after [n] additions of a weight of 1. *)
Fixpoint add_ones (n : nat) (w : Qc) : Qc :=
  match n with
  | O => w
  | S n' => add_ones n' (w + 1)%Qc
  end.

(** ** Printing a table ([bnetbase.py])

    [print_table] writes to standard output.  The model keeps what is
    written as a list of lines, one for each complete assignment: a line
    holds the pairs of name and assigned value that the loop over the scope
    prints, and the number printed after them.  How Python formats values and
    numbers as text is outside the model, and a line that an exception cuts
    short is not kept. *)
Definition printed_line : Type := list (string * pyval) * Qc.

(** A method of a [Variable] called while output is being collected. *)
Definition on_store {T A} (m : M heap A) : M (heap * T) A := λ s,
  match m (fst s) with
  | (r, h') => (r, (h', snd s))
  end.

Fixpoint recursive_print_values (f : Factor) (vars : list nat)
  : M (heap * list printed_line) unit :=
  match vars with
  | [] =>
      s <- get ;;
      pairs <- lift (res_mapM (λ v, val ← get_assignment (fst s) v;
                                    Ok (v_name (obj (fst s) v), val))
                       (f_scope f)) ;;
      x <- lift (get_value_at_current_assignments (fst s) f) ;;
      put (fst s, snd s ++ [(pairs, x)])
  | v0 :: vars' =>
      s <- get ;;
      for_ (λ val, on_store (set_assignment v0 val) ;;;
                   recursive_print_values f vars')
           (domain (fst s) v0)
  end.

(** [saved_values] is consumed from the front while the scope is walked a
    second time. *)
Definition print_table (f : Factor) : M (heap * list printed_line) unit :=
  s <- get ;;
  let saved_values := (λ v, get_assignment_index (fst s) v) <$> f_scope f in
  recursive_print_values f (f_scope f) ;;;
  foldM (λ saved_values v,
      i <- lift (py_getitem saved_values 0) ;;
      on_store (set_assignment_index v i) ;;;
      ret (tail saved_values))
    (f_scope f) saved_values ;;;
  ret tt.

(** The variable holds an assignment made by [set_assignment]. *)
Definition assigned_ok (h0 h : heap) (v : nat) : Prop :=
  ∃ val, val ∈ domain h0 v ∧ assignment_index (obj h v) = vidx h0 v val.

(** A printed line is right: it names the variables of the scope in order,
    and its number is the value of the factor at the values it shows. *)
Definition line_ok (h : heap) (f : Factor) (line : printed_line) : Prop :=
  line.1.*1 = (λ v, v_name (obj h v)) <$> get_scope f ∧
  get_value h f line.1.*2 = Ok line.2.

(** ** Notions for the further properties *)

(** [h'] differs from [h] at most in assignment indices, and in those only
    on the variables of [S]. *)
Definition only_assignments (S : list nat) (h h' : heap) : Prop :=
  ∀ v, v_name (obj h' v) = v_name (obj h v) ∧
       v_dom (obj h' v) = v_dom (obj h v) ∧
       evidence_index (obj h' v) = evidence_index (obj h v) ∧
       reset_evidence_attr (obj h' v) = reset_evidence_attr (obj h v) ∧
       (v ∉ S → assignment_index (obj h' v) = assignment_index (obj h v)).

(** A table-filling computation that changes the store as [only_assignments]
    allows and leaves the scope of the factor under construction alone,
    whatever its outcome. *)
Definition keeps {A} (S : list nat) (m : M (heap * Factor) A) : Prop :=
  ∀ s r s', m s = (r, s') →
    only_assignments S (fst s) (fst s') ∧ f_scope (snd s') = f_scope (snd s).

(** The same for a computation on the store alone, with a postcondition [P]
    on its result when it returns. *)
Definition preserves {A} (S : list nat) (m : M heap A) (P : heap → A → Prop) : Prop :=
  ∀ h r h', m h = (r, h') → only_assignments S h h' ∧ ∀ a, r = Ok a → P h' a.

(** Every scope of [fs] lies within [S]. *)
Definition scopes_in (S : list nat) (fs : list Factor) : Prop :=
  ∀ f v, f ∈ fs → v ∈ get_scope f → v ∈ S.

(** The value [get_evidence] returns for [ev] ([None] where it raises). *)
Definition evidence_value (h : heap) (ev : nat) : pyval :=
  match get_evidence h ev with
  | Ok x => x
  | Raise _ => VNone
  end.

(** [σ] with every evidence variable set to its evidence. *)
Definition with_evidence (h : heap) (Ev : list nat) (σ : assignment) : assignment :=
  foldr (λ ev σ, <[ev := evidence_value h ev]> σ) σ Ev.

(** The variables of the factors that are neither the query variable nor
    evidence variables, each once. *)
Definition hidden_variables (Factors : list Factor) (QueryVar : nat) (Ev : list nat)
  : list nat :=
  filter (λ v, v ∉ Ev) (other_variables Factors QueryVar).

(** The conditional reference: the product of all the factors with the
    evidence variables held at their evidence, every hidden variable summed
    out, read at each value of the query domain in declared order, and
    normalized. *)
Definition conditional_brute_force (h : heap) (Net : BN) (QueryVar : nat)
    (Ev : list nat) : list Qc :=
  normalize
    ((λ q, sum_over h (hidden_variables (factors Net) QueryVar Ev)
             (λ σ, joint h (factors Net) (with_evidence h Ev σ))
             (<[QueryVar := q]> ∅))
       <$> domain h QueryVar).

(** A row of values for a scope: one value of its domain for each variable,
    in scope order. *)
Definition row_for (h : heap) (scope : list nat) (vals : list pyval) : Prop :=
  Forall2 (λ val v, val ∈ domain h v) vals scope.

(** The number the last row of [rows] that lists [vals] gives, [x0] when no
    row lists them. *)
Definition last_row (rows : list (list pyval * Qc)) (vals : list pyval) (x0 : Qc) : Qc :=
  foldl (λ acc row, if decide (row.1 = vals) then row.2 else acc) x0 rows.

(** The one-variable factors on [ev]: the factors whose scope is [[ev]]. *)
Definition prior_factors (Net : BN) (ev : nat) : list Factor :=
  filter (λ f, get_scope f = [ev]) (factors Net).

(** The product, over the evidence variables, of the values their
    one-variable factors give to the evidence. *)
Definition evidence_prior (h : heap) (Net : BN) (Ev : list nat) : Qc :=
  prodQ (ev ← Ev;
         (λ f, value_of h f (<[ev := evidence_value h ev]> ∅)) <$> prior_factors Net ev).

(** ** The arithmetic of the tables, over any numbers

    The operations that compute with the numbers of the tables, written
    once more from the source over a number type [num] given by what the
    code uses of it: the literal [0], [+], [*], [/] and the test [x == 0].
    The indexing of the tables ([row_index], [current_index],
    [table_size]) and the store are those above. *)
Module Num.

Section num.
Context {num : Type}.
Context (zero : num) (add mul div : num → num → num) (is_zero : num → bool).

(** [sum(nums)]: the additions from left to right, starting from [0].
    (From version 3.12 on, CPython's [sum] carries a correction term along
    on floats; on a list of one or two floats, and on a sum that overflows,
    the result is the same.) *)
Definition py_sum (nums : list num) : num := foldl add zero nums.

Record Factor := mkFactor {
  f_name : string;
  f_scope : list nat;
  f_values : list num;
}.

(** [Factor.__init__]: the table is [[0] * size]. *)
Definition Factor_init (h : heap) (name : string) (scope : list nat) : Factor :=
  mkFactor name scope (replicate (Z.to_nat (table_size h scope)) zero).

Definition get_scope (f : Factor) : list nat := f_scope f.

(** One row of [add_values], as [add_values_row] above. *)
Definition add_values_row (h : heap) (F : Factor) (t : list pyval * num) : Res Factor :=
  '(index, rest) ← row_index h (f_scope F) (fst t) 0;
  match rest with
  | [] =>
      vals ← py_setitem (f_values F) index (snd t);
      Ok (mkFactor (f_name F) (f_scope F) vals)
  | _ :: _ => Raise TypeError
  end.

Fixpoint add_values (h : heap) (F : Factor) (values : list (list pyval * num)) : Res Factor :=
  match values with
  | [] => Ok F
  | t :: values' => F' ← add_values_row h F t; add_values h F' values'
  end.

Definition add_value_at_current_assignment (h : heap) (F : Factor) (number : num) : Res Factor :=
  vals ← py_setitem (f_values F) (current_index h (f_scope F)) number;
  Ok (mkFactor (f_name F) (f_scope F) vals).

Definition get_value (h : heap) (f : Factor) (variable_values : list pyval) : Res num :=
  '(index, _) ← row_index h (f_scope f) variable_values 0;
  py_getitem (f_values f) index.

Definition get_value_at_current_assignments (h : heap) (f : Factor) : Res num :=
  py_getitem (f_values f) (current_index h (f_scope f)).

Record BN := mkBN {
  bn_name : string;
  bn_Variables : list nat;
  bn_Factors : list Factor;
}.

Definition factors (Net : BN) : list Factor := bn_Factors Net.

(** Run a computation that fills in the local factor [F]. *)
Definition building (F : Factor) (m : M (heap * Factor) unit) : M heap Factor := λ h,
  match m (h, F) with
  | (Ok _, (h', F')) => (Ok F', h')
  | (Raise e, (h', _)) => (Raise e, h')
  end.

Definition F_add_value_at_current_assignment (number : num) : M (heap * Factor) unit :=
  s <- get ;;
  F' <- lift (add_value_at_current_assignment (fst s) (snd s) number) ;;
  put (fst s, F').

Fixpoint recursive_restrict_factor (f : Factor) (var : nat) (Vars : list nat)
  : M (heap * Factor) unit :=
  match Vars with
  | [] =>
      s <- get ;;
      x <- lift (get_value_at_current_assignments (fst s) f) ;;
      F_add_value_at_current_assignment x
  | v0 :: Vars' =>
      if decide (v0 ≠ var) then
        s <- get ;;
        for_ (λ val, on_store (set_assignment v0 val) ;;;
                     recursive_restrict_factor f var Vars')
             (domain (fst s) v0)
      else recursive_restrict_factor f var Vars'
  end.

Definition restrict_factor (f : Factor) (var : nat) (value : pyval) : M heap Factor :=
  scope <- lift (py_remove (get_scope f) var) ;;
  h <- get ;;
  let F := Factor_init h
    ("Restrict " +:+ f_name f +:+ "|" +:+ v_name (obj h var) +:+ "=" +:+ py_str value)
    scope in
  set_assignment var value ;;;
  building F (recursive_restrict_factor f var (get_scope f)).

Fixpoint recursive_eliminate_variable (f : Factor) (var : nat) (Vars : list nat)
  : M (heap * Factor) unit :=
  match Vars with
  | [] =>
      s <- get ;;
      summ <- foldM (λ summ val,
                on_store (set_assignment var val) ;;;
                s' <- get ;;
                prod <- lift (get_value_at_current_assignments (fst s') f) ;;
                ret (add summ prod))
              (domain (fst s) var) zero ;;
      F_add_value_at_current_assignment summ
  | v0 :: Vars' =>
      s <- get ;;
      for_ (λ val, on_store (set_assignment v0 val) ;;;
                   recursive_eliminate_variable f var Vars')
           (domain (fst s) v0)
  end.

Definition sum_out_variable (f : Factor) (var : nat) : M heap Factor :=
  scope <- lift (py_remove (get_scope f) var) ;;
  h <- get ;;
  let F := Factor_init h
    ("Eliminate-" +:+ v_name (obj h var) +:+ "-" +:+ f_name f) scope in
  building F (recursive_eliminate_variable f var scope).

(** [n / s] is reached only behind [s == 0] having failed, where Python's
    division does not raise. *)
Definition normalize (nums : list num) : list num :=
  let s := py_sum nums in
  if is_zero s then replicate (length nums) zero
  else (λ n, div n s) <$> nums.

Definition multiply_pair (h : heap) (factor1 factor2 : Factor) : Res Factor :=
  let scope1 := get_scope factor1 in
  let scope2 := get_scope factor2 in
  let remaining_scope1 := filter (λ var, var ∉ scope2) scope1 in
  let new_scp := scope2 ++ remaining_scope1 in
  let factor := Factor_init h "Factor" new_scp in
  let combs := product ((λ scp, domain h scp) <$> new_scp) in
  res_foldM (λ factor comb,
      comb1 ← res_mapM (λ elem, i ← py_index new_scp elem; py_getitem comb i) scope1;
      comb2 ← res_mapM (λ elem, i ← py_index new_scp elem; py_getitem comb i) scope2;
      x1 ← get_value h factor1 comb1;
      x2 ← get_value h factor2 comb2;
      let mult := mul x1 x2 in
      add_values h factor [(comb, mult)])
    combs factor.

Fixpoint multiply_loop (h : heap) (factor1 : Factor) (below : list Factor) : Res Factor :=
  match below with
  | [] => Ok factor1
  | factor2 :: below' =>
      factor ← multiply_pair h factor1 factor2;
      multiply_loop h factor below'
  end.

Definition multiply_factors (h : heap) (Factors : list Factor) : Res Factor :=
  match reverse Factors with
  | [] => Raise IndexError
  | factor1 :: below => multiply_loop h factor1 below
  end.

Definition min_fill_ordering (Factors : list Factor) (QueryVar : nat) : list nat :=
  let count_dct :=
    foldl (λ count_dct factor,
      foldl (λ count_dct scope,
        if decide (scope ≠ QueryVar)
        then dict_incr scope (dict_setdefault scope 0%nat count_dct)
        else count_dct)
        count_dct (get_scope factor))
      [] Factors in
  fst <$> sorted snd count_dct.

(** [factor not in lst] compares objects: [Factor] defines no [__eq__].  A
    factor of [factors] is one of the objects of [lst] exactly when [var] is
    in its scope, which is the test taken here. *)
Definition VE_cagan31 (factors : list Factor) (var : nat) : M heap (list Factor) :=
  let lst := filter (λ factor, var ∈ get_scope factor) factors in
  match lst with
  | [] => ret factors
  | _ :: _ =>
      h <- get ;;
      multiplied_factor <- lift (multiply_factors h lst) ;;
      let new_lst := filter (λ factor, var ∉ get_scope factor) factors in
      summed <- sum_out_variable multiplied_factor var ;;
      ret (new_lst ++ [summed])
  end.

Definition VE (Net : BN) (QueryVar : nat) (EvidenceVars : list nat) : M heap (list num) :=
  factors <- foldM (λ factors ev,
      mapM_ (λ factor,
          if decide (ev ∈ get_scope factor) then
            h <- get ;;
            value <- lift (get_evidence h ev) ;;
            restrict_factor factor ev value
          else ret factor)
        factors)
    EvidenceVars (factors Net) ;;
  let ordered := min_fill_ordering factors QueryVar in
  factors <- foldM VE_cagan31 ordered factors ;;
  h <- get ;;
  last_factor <- lift (multiply_factors h factors) ;;
  probabilities <- lift (res_mapM (λ dom, get_value h last_factor [dom]) (domain h QueryVar)) ;;
  ret (normalize probabilities).

(** The brute-force reference carried out with the operations above: the
    product of all the factors, every variable of its scope other than the
    query variable summed out, the result read at each value of the query
    domain, and normalized. *)
Definition brute_force_run (Net : BN) (QueryVar : nat) : M heap (list num) :=
  h <- get ;;
  product_factor <- lift (multiply_factors h (factors Net)) ;;
  summed <- foldM sum_out_variable
              (filter (λ v, v ≠ QueryVar) (get_scope product_factor)) product_factor ;;
  h <- get ;;
  values <- lift (res_mapM (λ dom, get_value h summed [dom]) (domain h QueryVar)) ;;
  ret (normalize values).

End num.

Global Arguments Factor num : clear implicits.
Global Arguments BN num : clear implicits.

End Num.

(** *** Binary64 floats

    Python's [float] is the binary64 format, whose operations round to the
    nearest value, ties to even: the primitive floats of the prover.  A
    decimal literal denotes the nearest binary64 value, in Python as here.
    An [int] among the numbers of a table ([0], [1]) is the float of the
    same value, to which Python's mixed arithmetic converts it.  [x == 0] is
    the comparison of the format, which [-0.0] passes and a NaN fails. *)
Module Float64.

Definition is_zero (x : float) : bool := PrimFloat.eqb x 0%float.

Definition py_sum : list float → float := Num.py_sum 0%float PrimFloat.add.

Definition normalize : list float → list float :=
  Num.normalize 0%float PrimFloat.add PrimFloat.div is_zero.

Definition multiply_factors : heap → list (Num.Factor float) → Res (Num.Factor float) :=
  Num.multiply_factors 0%float PrimFloat.mul.

Definition sum_out_variable : Num.Factor float → nat → M heap (Num.Factor float) :=
  Num.sum_out_variable 0%float PrimFloat.add.

Definition VE : Num.BN float → nat → list nat → M heap (list float) :=
  Num.VE 0%float PrimFloat.add PrimFloat.mul PrimFloat.div is_zero.

Definition brute_force_run : Num.BN float → nat → M heap (list float) :=
  Num.brute_force_run 0%float PrimFloat.add PrimFloat.mul PrimFloat.div is_zero.

End Float64.

(** *** Exact rationals

    The exact numbers of the development as an instance of [Num]: a factor
    of the exact model is a factor of [Num] over [Qc], and [x == 0] is the
    equality of rationals. *)
Definition Qc_is_zero (s : Qc) : bool := bool_decide (s = 0%Qc).

Definition to_num (f : Factor) : Num.Factor Qc :=
  Num.mkFactor (f_name f) (f_scope f) (f_values f).

Definition to_num_net (Net : BN) : Num.BN Qc :=
  Num.mkBN (bn_name Net) (bn_Variables Net) (to_num <$> bn_Factors Net).

Definition to_num_state (s : heap * Factor) : heap * Num.Factor Qc := (s.1, to_num s.2).

Definition res_map {A B} (g : A → B) (r : Res A) : Res B := a ← r; Ok (g a).

(** [m'] does on the image of a state what [m] does on the state. *)
Definition sim {S S' A A'} (φ : S → S') (g : A → A') (m : M S A) (m' : M S' A') : Prop :=
  ∀ s, m' (φ s) = (res_map g (m s).1, φ (m s).2).

(** The tables of the autograder's network as it writes them. *)
#[local] Set Warnings "-inexact-float".

Definition FE64 : Num.Factor float := Num.mkFactor "P(E)" [vE] [0.1; 0.9]%float.
Definition FB64 : Num.Factor float := Num.mkFactor "P(B)" [vB] [0.1; 0.9]%float.
Definition FS64 : Num.Factor float :=
  Num.mkFactor "P(S|E,B)" [vS; vE; vB] [0.9; 0.2; 0.8; 0; 0.1; 0.8; 0.2; 1]%float.
Definition FG64 : Num.Factor float := Num.mkFactor "P(G|S)" [vG; vS] [0.5; 0; 0.5; 1]%float.
Definition FW64 : Num.Factor float :=
  Num.mkFactor "P(W|S)" [vW; vS] [0.8; 0.2; 0.2; 0.8]%float.

Definition ExampleBN64 : Num.BN float :=
  Num.mkBN "ExampleBN" [vE; vB; vS; vG; vW] [FE64; FB64; FS64; FG64; FW64].

(** Two variables [Q] and [X] and three factors whose product is the
    constant [1e-200]: two tiny tables on [X] around a huge one on [Q].
    The marginal of [Q] is uniform. *)
Definition FX_tiny : Num.Factor float := Num.mkFactor "T(X)" [vX] [1e-200; 1e-200]%float.
Definition FQ_huge : Num.Factor float := Num.mkFactor "H(Q)" [vQ] [1e200; 1e200]%float.
Definition FX_tiny' : Num.Factor float := Num.mkFactor "T'(X)" [vX] [1e-200; 1e-200]%float.

Definition UnderflowNet : Num.BN float :=
  Num.mkBN "Underflow" [vQ; vX] [FX_tiny; FQ_huge; FX_tiny'].

(** The network with the same decimal values held as exact rationals. *)
Definition tiny : Qc := Q2Qc (1 # 10 ^ 200).
Definition huge : Qc := Q2Qc (Z.pow 10 200 # 1).

Definition UnderflowNet_exact : BN :=
  mkBN "Underflow" [vQ; vX]
    [mkFactor "T(X)" [vX] [tiny; tiny]; mkFactor "H(Q)" [vQ] [huge; huge];
     mkFactor "T'(X)" [vX] [tiny; tiny]].

(** * Properties *)

(** ** Results and the two monads *)

Lemma bind_ok {S A B} (m : M S A) (k : A → M S B) s a s' :
  m s = (Ok a, s') → bind m k s = k a s'.
Proof. unfold bind. by intros ->. Qed.

Lemma bind_raise {S A B} (m : M S A) (k : A → M S B) s e s' :
  m s = (Raise e, s') → bind m k s = (Raise e, s').
Proof. unfold bind. by intros ->. Qed.

(** ** Python list primitives *)

Section py_list_facts.
Context {A : Type} `{EqDecision A}.
Implicit Types (l : list A) (x : A).

Lemma index_from_Some x l k i :
  index_from x l k = Some i →
  k ≤ i < k + Z.of_nat (length l) ∧ l !! Z.to_nat (i - k) = Some x.
Proof.
  revert k. induction l as [|y l IH]; intros k; simpl; [done|].
  destruct (decide (y = x)) as [->|Hne].
  - intros [= <-]. split; [lia|]. by rewrite Z.sub_diag.
  - intros Hi. apply IH in Hi as [Hr Hl]. split; [lia|].
    replace (Z.to_nat (i - k)) with (S (Z.to_nat (i - (k + 1)))) by lia. done.
Qed.

Lemma index_from_None x l k : index_from x l k = None ↔ x ∉ l.
Proof.
  revert k. induction l as [|y l IH]; intros k; simpl.
  - split; [intros _; apply not_elem_of_nil|done].
  - destruct (decide (y = x)) as [->|Hne].
    + split; [done|]. intros Hx. exfalso. apply Hx. left.
    + rewrite IH, not_elem_of_cons. naive_solver.
Qed.

Lemma index_from_add x l k :
  index_from x l k = (λ i, i + k) <$> index_from x l 0.
Proof.
  revert k. induction l as [|y l IH]; intros k; simpl; [done|].
  destruct (decide (y = x)); simpl; [f_equal; lia|].
  rewrite (IH (k + 1)), (IH (0 + 1)).
  destruct (index_from x l 0); simpl; [f_equal; lia|done].
Qed.

Lemma py_index_Ok x l i :
  py_index l x = Ok i → 0 ≤ i < Z.of_nat (length l) ∧ l !! Z.to_nat i = Some x.
Proof.
  unfold py_index. destruct (index_from x l 0) as [j|] eqn:Hj; [|done].
  intros [= <-]. apply index_from_Some in Hj as [? Hl].
  rewrite Z.sub_0_r in Hl. split; [lia|done].
Qed.

Lemma py_index_elem x l : x ∈ l → ∃ i, py_index l x = Ok i.
Proof.
  intros Hx. unfold py_index. destruct (index_from x l 0) as [j|] eqn:Hj; [by eexists|].
  by apply index_from_None in Hj.
Qed.

Lemma py_index_not_elem x l : x ∉ l → py_index l x = Raise ValueError.
Proof. intros Hx. unfold py_index. by apply (index_from_None x l 0) in Hx as ->. Qed.

Lemma py_remove_not_elem x l : x ∉ l → py_remove l x = Raise ValueError.
Proof.
  induction l as [|y l IH]; simpl; [done|].
  rewrite not_elem_of_cons. intros [Hne Hx].
  destruct (decide (y = x)); [congruence|]. by rewrite IH.
Qed.

Lemma filter_id (P : A → Prop) `{∀ x, Decision (P x)} l :
  (∀ x, x ∈ l → P x) → filter P l = l.
Proof.
  induction l as [|y l IH]; [done|]. intros HP.
  rewrite filter_cons_True by (apply HP; left).
  f_equal. apply IH. intros z Hz. apply HP. by right.
Qed.

Lemma py_remove_NoDup x l :
  NoDup l → x ∈ l → py_remove l x = Ok (filter (λ y, y ≠ x) l).
Proof.
  induction l as [|y l IH]; simpl.
  - intros _ Hx. by apply elem_of_nil in Hx.
  - rewrite NoDup_cons. intros [Hy Hnd] Hx. destruct (decide (y = x)) as [->|Hne].
    + rewrite filter_cons_False by naive_solver. f_equal.
      symmetry. apply filter_id. intros z Hz ->. done.
    + rewrite filter_cons_True by done.
      apply elem_of_cons in Hx as [->|Hx]; [done|].
      by rewrite (IH Hnd Hx).
Qed.

Lemma py_getitem_Ok l (i : Z) x :
  l !! Z.to_nat i = Some x → 0 ≤ i → py_getitem l i = Ok x.
Proof.
  intros Hl Hi. unfold py_getitem.
  apply lookup_lt_Some in Hl as Hlt.
  rewrite decide_True by lia. by rewrite Hl.
Qed.

Lemma py_setitem_Ok l (i : Z) x :
  0 ≤ i < Z.of_nat (length l) → py_setitem l i x = Ok (<[Z.to_nat i := x]> l).
Proof. intros Hi. unfold py_setitem. by rewrite decide_True. Qed.
End py_list_facts.

(** ** Sums *)


Lemma foldl_Qcplus (a : Qc) l : foldl Qcplus a l = (a + sumQ l)%Qc.
Proof.
  revert a. induction l as [|x l IH]; intros a; simpl.
  - ring.
  - rewrite IH. ring.
Qed.

Lemma py_sum_sumQ l : py_sum l = sumQ l.
Proof. unfold py_sum. rewrite foldl_Qcplus. ring. Qed.

Lemma sumQ_div (c : Qc) l : sumQ ((λ n, n / c)%Qc <$> l) = (sumQ l / c)%Qc.
Proof.
  induction l as [|x l IH]; csimpl; [unfold Qcdiv; ring|].
  rewrite IH. unfold Qcdiv. ring.
Qed.

Lemma sumQ_app l1 l2 : sumQ (l1 ++ l2) = (sumQ l1 + sumQ l2)%Qc.
Proof. induction l1 as [|x l1 IH]; simpl; [ring|]. rewrite IH. ring. Qed.

Lemma sumQ_perm l1 l2 : l1 ≡ₚ l2 → sumQ l1 = sumQ l2.
Proof. induction 1; simpl; try congruence; ring. Qed.

Lemma prodQ_app l1 l2 : prodQ (l1 ++ l2) = (prodQ l1 * prodQ l2)%Qc.
Proof. induction l1 as [|x l1 IH]; simpl; [ring|]. rewrite IH. ring. Qed.

Lemma prodQ_perm l1 l2 : l1 ≡ₚ l2 → prodQ l1 = prodQ l2.
Proof. induction 1; simpl; try congruence; ring. Qed.

(** ** normalize *)

(** The exact [normalize] is the instance of [Num.normalize] at the
    rationals. *)
Lemma normalize_Num (nums : list Qc) :
  normalize nums
  = Num.normalize 0%Qc Qcplus Qcdiv Qc_is_zero nums.
Proof.
  unfold normalize, Num.normalize, Qc_is_zero. change (Num.py_sum 0%Qc Qcplus nums) with (py_sum nums).
  by case_decide; [rewrite bool_decide_eq_true_2|rewrite bool_decide_eq_false_2].
Qed.

Lemma normalize_sum_one (nums : list Qc) :
  py_sum nums ≠ 0%Qc → py_sum (normalize nums) = 1%Qc.
Proof.
  intros Hs. unfold normalize. rewrite decide_False by done.
  rewrite (py_sum_sumQ (_ <$> _)), sumQ_div, <- py_sum_sumQ.
  unfold Qcdiv. by apply Qcmult_inv_r.
Qed.

Section normalize_any_numbers.
Context {num : Type} (zero one : num) (add div : num → num → num) (is_zero : num → bool).

Lemma py_sum_div (s acc : num) (nums : list num) :
  (∀ a b, div (add a b) s = add (div a s) (div b s)) →
  foldl add (div acc s) ((λ n, div n s) <$> nums) = div (foldl add acc nums) s.
Proof.
  intros Hdistr. revert acc. induction nums as [|n nums IH]; intros acc; [done|].
  cbn [fmap list_fmap foldl]. by rewrite <- Hdistr, <- IH.
Qed.

End normalize_any_numbers.

(** C8 (as the code has it).  Whatever the numbers of the list are,
    [normalize] raises nothing and returns a list of the length of its input.
    When the input's sum passes the test [s == 0] the output is all zeros.
    Otherwise each entry is the input entry divided by the sum, and the
    output sums to 1 provided division by the sum is exact: it distributes
    over the additions of the sum, and gives [0 / s = 0] and [s / s = 1].
    (Non-negativity of the input is not needed.) *)
Theorem normalize_spec {num : Type} (zero one : num) (add div : num → num → num)
    (is_zero : num → bool) (nums : list num) :
  length (Num.normalize zero add div is_zero nums) = length nums ∧
  (is_zero (Num.py_sum zero add nums) = true →
     Num.normalize zero add div is_zero nums = replicate (length nums) zero) ∧
  (is_zero (Num.py_sum zero add nums) = false →
     Num.normalize zero add div is_zero nums
     = (λ n, div n (Num.py_sum zero add nums)) <$> nums ∧
     ((∀ a b, div (add a b) (Num.py_sum zero add nums)
              = add (div a (Num.py_sum zero add nums)) (div b (Num.py_sum zero add nums))) →
      div zero (Num.py_sum zero add nums) = zero →
      div (Num.py_sum zero add nums) (Num.py_sum zero add nums) = one →
      Num.py_sum zero add (Num.normalize zero add div is_zero nums) = one)).
Proof.
  unfold Num.normalize. split_and!.
  - destruct (is_zero _); [by rewrite length_replicate|by rewrite length_fmap].
  - by intros ->.
  - intros ->. split; [done|]. intros Hdistr Hzero Hone.
    unfold Num.py_sum at 1. rewrite <- Hzero at 1.
    by rewrite py_sum_div.
Qed.

(** The proviso holds of exact rationals: there the output sums to 1. *)
Lemma normalize_spec_witness :
  Num.py_sum 0%Qc Qcplus
    (Num.normalize 0%Qc Qcplus Qcdiv Qc_is_zero [qc 1 2; qc 3 2; qc 1 1])
  = 1%Qc.
Proof.
  apply (normalize_spec 0%Qc 1%Qc Qcplus Qcdiv Qc_is_zero [qc 1 2; qc 3 2; qc 1 1]).
  - vm_compute. reflexivity.
  - intros a b. unfold Qcdiv. ring.
  - unfold Qcdiv. ring.
  - apply Qc_is_canon. vm_compute. reflexivity.
Defined.

(** With floats the sum of two large entries overflows to infinity, which
    is not [0], and each entry divided by it is [0.0]: the output of
    [normalize] on non-negative numbers of nonzero sum is all zeros, and sums
    to [0.0]. *)
Lemma normalize_spec_counterexample :
  PrimFloat.leb 0 1e308 = true ∧
  Float64.is_zero (Float64.py_sum [1e308; 1e308]%float) = false ∧
  Float64.normalize [1e308; 1e308]%float = [0; 0]%float ∧
  Float64.py_sum (Float64.normalize [1e308; 1e308]%float) ≠ 1%float.
Proof.
  split_and!; [by vm_compute..|].
  intros H. apply (f_equal (λ x, PrimFloat.eqb x 1)) in H. by vm_compute in H.
Qed.

(** With entries that do not overflow, the output sums to 1 only up to
    rounding. *)
Lemma normalize_float_rounding :
  Float64.py_sum (Float64.normalize [0.1; 0.3]%float) = 0.99999999999999989%float.
Proof. by vm_compute. Qed.

(** On exact rationals division is exact, and the output sums to 1. *)
Lemma normalize_exact (nums : list Qc) :
  py_sum nums ≠ 0%Qc →
  normalize nums = (λ n, n / py_sum nums)%Qc <$> nums ∧ py_sum (normalize nums) = 1%Qc.
Proof.
  intros Hs. split; [|by apply normalize_sum_one].
  unfold normalize. by rewrite decide_False.
Qed.

(** ** The store *)

Lemma obj_insert_eq (h : heap) v o : obj (<[v := o]> h) v = o.
Proof. apply lookup_total_insert_eq. Qed.

Lemma obj_insert_ne (h : heap) v w o : v ≠ w → obj (<[v := o]> h) w = obj h w.
Proof. apply lookup_total_insert_ne. Qed.

Lemma value_index_Ok h v val i :
  value_index h v val = Ok i →
  0 ≤ i < domain_size h v ∧ domain h v !! Z.to_nat i = Some val.
Proof. apply py_index_Ok. Qed.

Lemma value_index_elem h v val :
  val ∈ domain h v → ∃ i, value_index h v val = Ok i.
Proof. apply py_index_elem. Qed.

Lemma set_evidence_Ok h v val h1 :
  set_evidence v val h = (Ok tt, h1) →
  ∃ i, value_index h v val = Ok i ∧ h1 = <[v := with_evidence_index (obj h v) i]> h.
Proof.
  unfold set_evidence. destruct (value_index h v val) as [i|e]; [|done].
  intros [= <-]. by exists i.
Qed.

Lemma reset_variables_evidence (vs : list nat) (v : nat) : ∀ h : heap,
  v ∈ vs ∨ evidence_index (obj h v) = -1 →
  evidence_index
    (obj (for_ (λ v h, (Ok tt,
       <[v := with_assignment_index (with_evidence_index (obj h v) (-1)) (-1)]> h)) vs h).2 v)
  = -1.
Proof.
  induction vs as [|w vs IH]; intros h Hv; simpl.
  - destruct Hv as [Hv|Hv]; [by apply elem_of_nil in Hv|done].
  - unfold bind at 1. apply IH.
    destruct (decide (w = v)) as [->|Hne].
    + right. by rewrite obj_insert_eq.
    + destruct Hv as [Hv|Hv].
      * apply elem_of_cons in Hv as [->|Hv]; [done|by left].
      * right. by rewrite obj_insert_ne.
Qed.

(** C10.  After [v.set_evidence(val)], a call [v.reset_evidence()] leaves the
    evidence where it was, whether the call returns (first call) or raises
    (the attribute is already bound): [get_evidence()] still returns [val].
    [BN.reset_variables] on a network that lists [v] does clear it. *)
Theorem reset_evidence_keeps_evidence
    (h h1 h2 : heap) (v : nat) (val : pyval) (r : Res unit) :
  set_evidence v val h = (Ok tt, h1) →
  reset_evidence v h1 = (r, h2) →
  get_evidence h2 v = Ok val ∧
  evidence_index (obj h2 v) = evidence_index (obj h1 v) ∧
  (∀ Net, v ∈ variables Net → get_evidence (reset_variables Net h2).2 v = Ok VNone).
Proof.
  intros (i & Hi & ->)%set_evidence_Ok Hr.
  apply value_index_Ok in Hi as [Hi Hl]. unfold domain in Hl.
  assert (v_dom (obj h2 v) = v_dom (obj h v) ∧ evidence_index (obj h2 v) = i) as [Hd He].
  { unfold reset_evidence in Hr. rewrite obj_insert_eq in Hr. simpl in Hr.
    destruct (reset_evidence_attr (obj h v)); injection Hr as <- <-;
      rewrite ?obj_insert_eq; done. }
  split_and!.
  - unfold get_evidence. rewrite He, Hd, decide_True by lia.
    by apply py_getitem_Ok; [|lia].
  - by rewrite He, obj_insert_eq.
  - intros Net Hv. unfold get_evidence, reset_variables.
    rewrite reset_variables_evidence by (by left). by rewrite decide_False by lia.
Qed.

(** ** restrict_factor outside the scope *)

(** C5 (as the code has it).  When [var] is not in the scope of [f],
    [scope.remove(var)] raises [ValueError]: no factor is produced, and the
    store is left as it was. *)
Theorem restrict_factor_not_in_scope (f : Factor) (var : nat) (value : pyval) (h : heap) :
  var ∉ get_scope f →
  restrict_factor f var value h = (Raise ValueError, h).
Proof.
  intros Hv. unfold restrict_factor.
  apply bind_raise. unfold lift. by rewrite py_remove_not_elem.
Qed.

Lemma reset_evidence_keeps_evidence_witness :
  get_evidence (reset_evidence vW (set_evidence vW (VStr "w") ex_heap).2).2 vW
  = Ok (VStr "w").
Proof.
  refine (proj1 (reset_evidence_keeps_evidence ex_heap
     (set_evidence vW (VStr "w") ex_heap).2 _ vW (VStr "w")
     (reset_evidence vW (set_evidence vW (VStr "w") ex_heap).2).1 _ _)).
  - vm_compute. reflexivity.
  - vm_compute. reflexivity.
Defined.

(** The statement as the specification words it fails on [P(E)] restricted by
    [B]: no factor comes back. *)
Lemma restrict_factor_not_in_scope_counterexample :
  ¬ ∃ F h', restrict_factor FE vB (VStr "b") ex_heap = (Ok F, h') ∧
            get_scope F = get_scope FE.
Proof.
  intros (F & h' & Hr & _). vm_compute in Hr. discriminate Hr.
Qed.

Lemma restrict_factor_not_in_scope_witness :
  restrict_factor FE vB (VStr "b") ex_heap = (Raise ValueError, ex_heap).
Proof.
  apply (restrict_factor_not_in_scope FE vB (VStr "b") ex_heap).
  unfold FE, get_scope, vB, vE; simpl. set_solver.
Defined.


(** ** The elimination ordering *)

Lemma dict_setdefault_present k (g : nat → nat) (l : list nat) :
  k ∈ l →
  dict_setdefault k 0%nat ((λ k, (k, g k)) <$> l) = (λ k, (k, g k)) <$> l.
Proof.
  induction l as [|y l IH]; csimpl; [by intros ?%elem_of_nil|].
  destruct (decide (y = k)) as [->|Hne]; [done|].
  intros [?|Hk]%elem_of_cons; [congruence|]. by rewrite IH.
Qed.

Lemma dict_setdefault_absent k (g : nat → nat) (l : list nat) :
  k ∉ l →
  dict_setdefault k 0%nat ((λ k, (k, g k)) <$> l) = ((λ k, (k, g k)) <$> l) ++ [(k, 0%nat)].
Proof.
  induction l as [|y l IH]; csimpl; [done|].
  intros [Hne Hk]%not_elem_of_cons.
  destruct (decide (y = k)) as [->|_]; [done|]. by rewrite IH.
Qed.

Lemma dict_incr_absent k (g : nat → nat) (l : list nat) :
  k ∉ l → dict_incr k ((λ k, (k, g k)) <$> l) = (λ k, (k, g k)) <$> l.
Proof.
  induction l as [|y l IH]; csimpl; [done|].
  intros [Hne Hk]%not_elem_of_cons.
  destruct (decide (y = k)) as [->|_]; [done|]. by rewrite IH.
Qed.

Lemma dict_incr_present k (g : nat → nat) (l : list nat) :
  NoDup l →
  dict_incr k ((λ k, (k, g k)) <$> l)
  = (λ k', (k', if decide (k' = k) then S (g k') else g k')) <$> l.
Proof.
  induction l as [|y l IH]; csimpl; [done|].
  intros [Hy Hnd]%NoDup_cons.
  destruct (decide (y = k)) as [->|Hne].
  - f_equal. apply list_fmap_ext. intros i z Hz.
    rewrite decide_False; [done|]. intros ->. apply Hy. by eapply list_elem_of_lookup_2.
  - by rewrite IH.
Qed.

Lemma firsts_elem x l : x ∈ firsts l ↔ x ∈ l.
Proof.
  induction l as [|y l IH]; simpl; [done|].
  rewrite !elem_of_cons, list_elem_of_filter, IH.
  destruct (decide (x = y)); naive_solver.
Qed.

Lemma firsts_NoDup l : NoDup (firsts l).
Proof.
  induction l as [|y l IH]; simpl; [constructor|].
  apply NoDup_cons. split.
  - rewrite list_elem_of_filter. naive_solver.
  - by apply NoDup_filter.
Qed.

Lemma firsts_snoc l x :
  firsts (l ++ [x]) = if decide (x ∈ l) then firsts l else firsts l ++ [x].
Proof.
  induction l as [|y l IH]; cbn [app firsts].
  - rewrite decide_False by apply not_elem_of_nil. done.
  - rewrite IH. destruct (decide (x ∈ l)) as [Hx|Hx].
    + rewrite decide_True by (by right). done.
    + rewrite filter_app. destruct (decide (x = y)) as [->|Hne].
      * rewrite decide_True by left.
        rewrite filter_cons_False by naive_solver. by rewrite app_nil_r.
      * rewrite decide_False by (rewrite elem_of_cons; naive_solver).
        rewrite filter_cons_True by done. done.
Qed.

Lemma occurrences_snoc k l x :
  occurrences k (l ++ [x])
  = if decide (x = k) then S (occurrences k l) else occurrences k l.
Proof.
  unfold occurrences. rewrite filter_app, length_app. simpl.
  rewrite filter_cons. destruct (decide (x = k)); simpl; lia.
Qed.

Lemma occurrences_absent k l : k ∉ l → occurrences k l = 0%nat.
Proof.
  unfold occurrences. induction l as [|y l IH]; [done|].
  intros [Hne Hk]%not_elem_of_cons.
  rewrite filter_cons_False by congruence. by apply IH.
Qed.

(** The dictionary built by the counting loop. *)
Lemma count_dct_tally (l : list nat) :
  foldl (λ dct k, dict_incr k (dict_setdefault k 0%nat dct)) [] l
  = (λ k, (k, occurrences k l)) <$> firsts l.
Proof.
  induction l as [|x l IH] using rev_ind; [done|].
  rewrite foldl_app, IH. simpl. rewrite firsts_snoc.
  destruct (decide (x ∈ l)) as [Hx|Hx].
  - rewrite dict_setdefault_present by (by apply firsts_elem).
    rewrite dict_incr_present by apply firsts_NoDup.
    apply list_fmap_ext. intros i k Hk. by rewrite occurrences_snoc, (decide_ext (k = x) (x = k)).
  - rewrite dict_setdefault_absent by (by rewrite firsts_elem).
    rewrite fmap_app. csimpl.
    assert (∀ (d : list (nat * nat)) c, x ∉ d.*1 →
              dict_incr x (d ++ [(x, c)]) = d ++ [(x, S c)]) as Hincr.
    { intros d c. induction d as [|[k' c'] d IHd]; csimpl.
      - intros _. by rewrite decide_True.
      - intros [Hne Hd]%not_elem_of_cons. rewrite decide_False by done.
        by rewrite IHd. }
    rewrite Hincr.
    + f_equal.
      * apply list_fmap_ext. intros i k Hk.
        rewrite occurrences_snoc, decide_False; [done|].
        intros ->. apply Hx, firsts_elem. by eapply list_elem_of_lookup_2.
      * by rewrite occurrences_snoc, decide_True, occurrences_absent.
    + rewrite <- list_fmap_compose. simpl. rewrite list_fmap_id. by rewrite firsts_elem.
Qed.

Section sorted_facts.
Context {A : Type} (key rank : A → nat).

Lemma insert_by_key_perm x (l : list A) : insert_by_key key x l ≡ₚ x :: l.
Proof.
  induction l as [|y l IH]; simpl; [done|].
  case_decide; [done|]. rewrite IH. apply Permutation_swap.
Qed.

Lemma sorted_perm (l : list A) : sorted key l ≡ₚ l.
Proof.
  induction l as [|x l IH]; simpl; [done|].
  rewrite insert_by_key_perm. by f_equiv.
Qed.

Lemma insert_by_key_sorted x (l : list A) :
  StronglySorted (stable_lt key rank) l →
  Forall (λ y, (rank x < rank y)%nat) l →
  StronglySorted (stable_lt key rank) (insert_by_key key x l).
Proof.
  induction l as [|y l IH]; simpl; intros Hs Hr.
  - repeat constructor.
  - apply StronglySorted_cons in Hs as [Hy Hs].
    apply Forall_cons in Hr as [Hxy Hr].
    case_decide as Hk.
    + apply StronglySorted_cons. split; [|by apply StronglySorted_cons].
      apply Forall_cons. split.
      * unfold stable_lt. lia.
      * rewrite Forall_forall in Hy, Hr |- *. intros z Hz.
        specialize (Hy z Hz). specialize (Hr z Hz). unfold stable_lt in *. lia.
    + apply StronglySorted_cons. split; [|by apply IH].
      rewrite insert_by_key_perm. apply Forall_cons. split; [|done].
      unfold stable_lt. lia.
Qed.

Lemma sorted_stable (l : list A) :
  StronglySorted (λ a b, (rank a < rank b)%nat) l →
  StronglySorted (stable_lt key rank) (sorted key l).
Proof.
  induction l as [|x l IH]; simpl; intros Hs; [constructor|].
  apply StronglySorted_cons in Hs as [Hx Hs].
  apply insert_by_key_sorted; [by apply IH|].
  by rewrite sorted_perm.
Qed.
End sorted_facts.

Lemma StronglySorted_fmap_impl {A B} (R : relation A) (R' : relation B) (f : A → B) l :
  StronglySorted R l →
  (∀ a b, a ∈ l → b ∈ l → R a b → R' (f a) (f b)) →
  StronglySorted R' (f <$> l).
Proof.
  induction l as [|x l IH]; csimpl; intros Hs HR; [constructor|].
  apply StronglySorted_cons in Hs as [Hx Hs].
  apply StronglySorted_cons. split.
  - rewrite Forall_fmap, Forall_forall in *. intros y Hy. simpl.
    apply HR; [left|by right|by apply Hx].
  - apply IH; [done|]. intros a b Ha Hb. apply HR; by right.
Qed.

Lemma first_pos_filter_lt (Q a b : nat) (l : list nat) :
  a ≠ Q → b ≠ Q →
  (first_pos a (filter (λ y, y ≠ Q) l) < first_pos b (filter (λ y, y ≠ Q) l))%nat ↔
  (first_pos a l < first_pos b l)%nat.
Proof.
  intros Ha Hb. induction l as [|y l IH]; [done|].
  destruct (decide (y = Q)) as [->|Hy].
  - rewrite filter_cons_False by naive_solver. simpl.
    rewrite !decide_False by done. rewrite IH. lia.
  - rewrite filter_cons_True by done. simpl.
    destruct (decide (y = a)), (decide (y = b)); lia.
Qed.

Lemma firsts_sorted (l : list nat) :
  StronglySorted (λ a b, (first_pos a l < first_pos b l)%nat) (firsts l).
Proof.
  induction l as [|x l IH]; simpl; [constructor|].
  apply StronglySorted_cons. split.
  - apply Forall_forall. intros y [Hy _]%list_elem_of_filter.
    rewrite decide_True by done. rewrite decide_False by done. lia.
  - assert (∀ l', StronglySorted (λ a b, (first_pos a l < first_pos b l)%nat) l' →
        StronglySorted
          (λ a b, ((if decide (x = a) then 0 else S (first_pos a l)) <
                   (if decide (x = b) then 0 else S (first_pos b l)))%nat)
          (filter (λ y, y ≠ x) l')) as Hfilter.
    { intros l'. induction 1 as [|z l' Hl' IHl' Hz]; [constructor|].
      rewrite filter_cons. case_decide as Hzx; [|done].
      apply StronglySorted_cons. split; [|done].
      apply Forall_forall. intros y [Hyx Hy]%list_elem_of_filter.
      rewrite Forall_forall in Hz. specialize (Hz y Hy).
      rewrite !decide_False by done. lia. }
    by apply Hfilter.
Qed.

Lemma scan_elem (Factors : list Factor) v :
  v ∈ scan Factors ↔ ∃ f, f ∈ Factors ∧ v ∈ get_scope f.
Proof.
  induction Factors as [|f Fs IH]; simpl.
  - split; [by intros ?%elem_of_nil|]. by intros (f & ?%elem_of_nil & _).
  - rewrite elem_of_app, IH. split.
    + intros [Hv|(g & Hg & Hv)]; [exists f; split; [left|done]|exists g; split; [by right|done]].
    + intros (g & [->|Hg]%elem_of_cons & Hv); [by left|right; by exists g].
Qed.

Lemma occurrences_app k l1 l2 :
  occurrences k (l1 ++ l2) = (occurrences k l1 + occurrences k l2)%nat.
Proof. unfold occurrences. by rewrite filter_app, length_app. Qed.

Lemma occurrences_NoDup k l :
  NoDup l → occurrences k l = if decide (k ∈ l) then 1%nat else 0%nat.
Proof.
  induction 1 as [|x l Hx Hnd IH]; [done|].
  change (x :: l) with ([x] ++ l) at 1. rewrite occurrences_app, IH.
  unfold occurrences. rewrite filter_cons. simpl.
  destruct (decide (x = k)) as [->|Hne]; simpl.
  - rewrite decide_False by done. rewrite decide_True by left. done.
  - destruct (decide (k ∈ l)).
    + rewrite decide_True by (by right). done.
    + rewrite decide_False; [done|]. rewrite elem_of_cons. naive_solver.
Qed.

Lemma occurrences_filter_ne (Q k : nat) l :
  k ≠ Q → occurrences k (filter (λ y, y ≠ Q) l) = occurrences k l.
Proof.
  intros Hk. unfold occurrences. induction l as [|y l IH]; [done|].
  rewrite !filter_cons. destruct (decide (y ≠ Q)) as [Hy|Hy].
  - rewrite filter_cons. destruct (decide (y = k)); simpl; by rewrite IH.
  - rewrite decide_False by (intros ->; done). done.
Qed.

Lemma occurrences_scan (Factors : list Factor) k :
  (∀ f, f ∈ Factors → NoDup (get_scope f)) →
  occurrences k (scan Factors) = appearances Factors k.
Proof.
  unfold appearances. induction Factors as [|f Fs IH]; intros Hnd; [done|].
  simpl. rewrite occurrences_app, IH by (intros g Hg; apply Hnd; by right).
  rewrite occurrences_NoDup by (apply Hnd; left). rewrite filter_cons.
  destruct (decide (k ∈ get_scope f)); simpl; lia.
Qed.

Lemma min_fill_ordering_unfold (Factors : list Factor) (QueryVar : nat) :
  min_fill_ordering Factors QueryVar
  = (sorted snd ((λ k, (k, occurrences k (filter (λ y, y ≠ QueryVar) (scan Factors))))
                   <$> firsts (filter (λ y, y ≠ QueryVar) (scan Factors)))).*1.
Proof.
  unfold min_fill_ordering. f_equal. f_equal.
  rewrite <- count_dct_tally. generalize (@nil (nat * nat)).
  induction Factors as [|f Fs IH]; intros d; simpl; [done|].
  rewrite IH, filter_app, foldl_app. f_equal.
  generalize d. clear. induction (get_scope f) as [|y l IH]; intros d; simpl; [done|].
  rewrite filter_cons. destruct (decide (y ≠ QueryVar)); simpl; by rewrite IH.
Qed.

Lemma min_fill_ordering_perm (Factors : list Factor) (QueryVar : nat) :
  min_fill_ordering Factors QueryVar ≡ₚ other_variables Factors QueryVar.
Proof.
  rewrite min_fill_ordering_unfold, sorted_perm, <- list_fmap_compose.
  by rewrite list_fmap_id.
Qed.

(** C9.  The elimination order lists exactly the non-query variables that
    occur in some scope, each once; it is sorted by the number of factors
    whose scope contains the variable, ties in the order of first encounter
    in the scan of the factors; and the query variable is never in it.
    (The order is a function of its two arguments, hence deterministic.) *)
Theorem min_fill_ordering_spec (Factors : list Factor) (QueryVar : nat) :
  (∀ f, f ∈ Factors → NoDup (get_scope f)) →
  (∀ v, v ∈ min_fill_ordering Factors QueryVar ↔
        v ≠ QueryVar ∧ ∃ f, f ∈ Factors ∧ v ∈ get_scope f) ∧
  NoDup (min_fill_ordering Factors QueryVar) ∧
  StronglySorted (min_appearance_before Factors) (min_fill_ordering Factors QueryVar) ∧
  QueryVar ∉ min_fill_ordering Factors QueryVar.
Proof.
  intros Hnd. rewrite min_fill_ordering_unfold.
  set (xs := filter (λ y, y ≠ QueryVar) (scan Factors)).
  set (d := (λ k, (k, occurrences k xs)) <$> firsts xs).
  assert (Hperm : (sorted snd d).*1 ≡ₚ firsts xs).
  { rewrite sorted_perm. unfold d. rewrite <- list_fmap_compose.
    by rewrite list_fmap_id. }
  assert (Hmem : ∀ v, v ∈ (sorted snd d).*1 ↔
                      v ≠ QueryVar ∧ ∃ f, f ∈ Factors ∧ v ∈ get_scope f).
  { intros v. rewrite Hperm, firsts_elem. unfold xs.
    rewrite list_elem_of_filter, scan_elem. done. }
  split_and!.
  - done.
  - rewrite Hperm. apply firsts_NoDup.
  - apply (StronglySorted_fmap_impl
             (stable_lt snd (λ p, first_pos p.1 xs)) _ fst).
    + apply sorted_stable. unfold d.
      apply (StronglySorted_fmap_impl (λ a b, (first_pos a xs < first_pos b xs)%nat)).
      * apply firsts_sorted.
      * done.
    + intros p q Hp Hq. rewrite sorted_perm in Hp, Hq. unfold d in Hp, Hq.
      apply list_elem_of_fmap in Hp as (a & -> & Ha), Hq as (b & -> & Hb).
      rewrite firsts_elem in Ha, Hb. unfold xs in Ha, Hb.
      apply list_elem_of_filter in Ha as [Ha _], Hb as [Hb _].
      unfold stable_lt, min_appearance_before, encounter. simpl. unfold xs.
      rewrite !occurrences_filter_ne, !occurrences_scan, first_pos_filter_lt by done.
      done.
  - rewrite Hmem. naive_solver.
Qed.

Lemma min_fill_ordering_spec_witness :
  StronglySorted (min_appearance_before [FE; FB; FS; FG; FW])
    (min_fill_ordering [FE; FB; FS; FG; FW] vG).
Proof.
  refine (proj1 (proj2 (proj2 (min_fill_ordering_spec [FE; FB; FS; FG; FW] vG _)))).
  intros f Hf. repeat (apply elem_of_cons in Hf as [->|Hf]);
    [..|by apply elem_of_nil in Hf]; vm_compute; repeat constructor; set_solver.
Defined.

(** ** Index arithmetic *)

Section index_facts.
Context (h : heap).
Implicit Types (ρ : nat → Z) (scope : list nat) (σ : assignment).

Lemma domain_size_nonneg v : 0 ≤ domain_size h v.
Proof. unfold domain_size. lia. Qed.

Lemma psize_nonneg scope : 0 ≤ psize h scope.
Proof.
  induction scope as [|v scope IH]; simpl; [lia|].
  pose proof (domain_size_nonneg v). nia.
Qed.

Lemma table_size_from scope (s : Z) :
  foldl (λ size v, size * domain_size h v) s scope = s * psize h scope.
Proof.
  revert s. induction scope as [|v scope IH]; intros s; simpl; [lia|].
  rewrite IH. lia.
Qed.

Lemma table_size_psize scope : table_size h scope = psize h scope.
Proof. unfold table_size. rewrite table_size_from. lia. Qed.

Lemma psize_app scope1 scope2 :
  psize h (scope1 ++ scope2) = psize h scope1 * psize h scope2.
Proof. induction scope1 as [|v scope1 IH]; simpl; [lia|]. rewrite IH. lia. Qed.

Lemma hidx_ext ρ ρ' scope acc :
  (∀ v, v ∈ scope → ρ v = ρ' v) → hidx h ρ scope acc = hidx h ρ' scope acc.
Proof.
  revert acc. induction scope as [|v scope IH]; intros acc Hρ; simpl; [done|].
  rewrite (Hρ v) by left. apply IH. intros w Hw. apply Hρ. by right.
Qed.

Lemma hidx_bounds ρ scope acc :
  (∀ v, v ∈ scope → 0 ≤ ρ v < domain_size h v) →
  acc * psize h scope ≤ hidx h ρ scope acc < (acc + 1) * psize h scope.
Proof.
  revert acc. induction scope as [|v scope IH]; intros acc Hρ; simpl; [lia|].
  assert (∀ w, w ∈ scope → 0 ≤ ρ w < domain_size h w) as Hρ'
    by (intros w Hw; apply Hρ; by right).
  specialize (IH (acc * domain_size h v + ρ v) Hρ').
  specialize (Hρ v (list_elem_of_here _ _)).
  pose proof (psize_nonneg scope) as HP. unfold hidx in IH |- *.
  assert (0 ≤ ρ v * psize h scope) by nia.
  assert ((ρ v + 1) * psize h scope ≤ domain_size h v * psize h scope) by nia.
  lia.
Qed.

Lemma hidx_inj ρ ρ' scope acc acc' :
  (∀ v, v ∈ scope → 0 ≤ ρ v < domain_size h v) →
  (∀ v, v ∈ scope → 0 ≤ ρ' v < domain_size h v) →
  hidx h ρ scope acc = hidx h ρ' scope acc' →
  acc = acc' ∧ ∀ v, v ∈ scope → ρ v = ρ' v.
Proof.
  revert acc acc'. induction scope as [|v scope IH]; intros acc acc' Hρ Hρ' Heq; simpl in *.
  - split; [done|]. by intros v ?%elem_of_nil.
  - apply IH in Heq as [Heq Hag].
    + specialize (Hρ v (list_elem_of_here _ _)).
      specialize (Hρ' v (list_elem_of_here _ _)).
      assert (acc = acc') as ->.
      { destruct (Z.lt_trichotomy acc acc') as [?|[?|?]]; [exfalso; nia|done|exfalso; nia]. }
      assert (ρ v = ρ' v) as Hv by lia.
      split; [done|]. intros w [->|Hw]%elem_of_cons; [done|by apply Hag].
    + intros w Hw. apply Hρ. by right.
    + intros w Hw. apply Hρ'. by right.
Qed.

Lemma vidx_Ok v val :
  val ∈ domain h v → value_index h v val = Ok (vidx h v val).
Proof.
  intros Hv. destruct (value_index_elem h v val Hv) as [i Hi].
  rewrite Hi. unfold value_index, py_index, vidx in *.
  destruct (index_from val (v_dom (obj h v)) 0); by simplify_eq.
Qed.

Lemma vidx_bounds v val : val ∈ domain h v → 0 ≤ vidx h v val < domain_size h v.
Proof. intros Hv. apply vidx_Ok in Hv. by apply value_index_Ok in Hv as [? _]. Qed.

Lemma vidx_lookup v val : val ∈ domain h v → domain h v !! Z.to_nat (vidx h v val) = Some val.
Proof. intros Hv. apply vidx_Ok in Hv. by apply value_index_Ok in Hv as [_ ?]. Qed.

Lemma vidx_inj v val val' :
  val ∈ domain h v → val' ∈ domain h v → vidx h v val = vidx h v val' → val = val'.
Proof.
  intros Hv Hv' Heq. apply vidx_lookup in Hv, Hv'. rewrite Heq in Hv. congruence.
Qed.

Lemma positions_bounds σ scope :
  valid_on h σ scope → ∀ v, v ∈ scope → 0 ≤ positions h σ v < domain_size h v.
Proof. intros Hσ v Hv. by apply vidx_bounds, Hσ. Qed.

Lemma row_index_valid σ scope acc :
  valid_on h σ scope →
  row_index h scope ((λ v, σ !!! v) <$> scope) acc
  = Ok (hidx h (positions h σ) scope acc, []).
Proof.
  revert acc. induction scope as [|v scope IH]; intros acc Hσ; [done|].
  cbn [row_index fmap list_fmap]. rewrite (py_getitem_Ok _ 0 (σ !!! v)) by done.
  cbn [mbind Res_bind]. rewrite vidx_Ok by (apply Hσ; left).
  cbn [mbind Res_bind tail]. rewrite IH; [done|]. intros w Hw. apply Hσ. by right.
Qed.

Lemma row_index_invalid σ scope acc :
  ¬ valid_on h σ scope →
  row_index h scope ((λ v, σ !!! v) <$> scope) acc = Raise ValueError.
Proof.
  revert acc. induction scope as [|v scope IH]; intros acc Hσ.
  - exfalso. apply Hσ. by intros v ?%elem_of_nil.
  - cbn [row_index fmap list_fmap]. rewrite (py_getitem_Ok _ 0 (σ !!! v)) by done.
    cbn [mbind Res_bind].
    destruct (decide (σ !!! v ∈ domain h v)) as [Hv|Hv].
    + rewrite vidx_Ok by done. cbn [mbind Res_bind tail]. apply IH.
      intros Hσ'. apply Hσ. by intros w [->|Hw]%elem_of_cons; [|apply Hσ'].
    + unfold value_index. by rewrite py_index_not_elem.
Qed.

Lemma hidx_table_bounds ρ (f : Factor) :
  wf_factor h f →
  (∀ v, v ∈ f_scope f → 0 ≤ ρ v < domain_size h v) →
  0 ≤ hidx h ρ (f_scope f) 0 < Z.of_nat (length (f_values f)).
Proof.
  intros Hwf Hρ. rewrite Hwf, table_size_psize.
  pose proof (hidx_bounds ρ (f_scope f) 0 Hρ). pose proof (psize_nonneg (f_scope f)). lia.
Qed.

Lemma py_getitem_table ρ (f : Factor) :
  wf_factor h f →
  (∀ v, v ∈ f_scope f → 0 ≤ ρ v < domain_size h v) →
  py_getitem (f_values f) (hidx h ρ (f_scope f) 0) = Ok (table_at h f ρ).
Proof.
  intros Hwf Hρ. pose proof (hidx_table_bounds ρ f Hwf Hρ) as Hb.
  unfold table_at.
  destruct (lookup_lt_is_Some_2 (f_values f) (Z.to_nat (hidx h ρ (f_scope f) 0)))
    as [x Hx]; [lia|].
  rewrite Hx. simpl. apply py_getitem_Ok; [done|lia].
Qed.

Lemma value_at_valid (f : Factor) σ :
  wf_factor h f → valid_on h σ (get_scope f) →
  value_at h f σ = Ok (table_at h f (positions h σ)).
Proof.
  intros Hwf Hσ. unfold value_at, get_value, get_scope in *.
  rewrite row_index_valid by done. cbn [mbind Res_bind].
  apply py_getitem_table; [done|]. by apply positions_bounds.
Qed.

Lemma value_of_valid (f : Factor) σ :
  wf_factor h f → valid_on h σ (get_scope f) →
  value_of h f σ = table_at h f (positions h σ).
Proof. intros Hwf Hσ. unfold value_of. by rewrite value_at_valid. Qed.

Lemma value_of_invalid (f : Factor) σ :
  ¬ valid_on h σ (get_scope f) → value_of h f σ = 0%Qc.
Proof.
  intros Hσ. unfold value_of, value_at, get_value.
  by rewrite row_index_invalid.
Qed.

End index_facts.

(** ** Tables filled by a sequence of writes *)

Lemma foldl_insert_length {A} (key : A → nat) (g : A → Qc) (items : list A) (T : list Qc) :
  length (foldl (λ T a, <[key a := g a]> T) T items) = length T.
Proof.
  revert T. induction items as [|a items IH]; intros T; simpl; [done|].
  by rewrite IH, length_insert.
Qed.

Lemma foldl_insert_lookup {A} (key : A → nat) (g : A → Qc) (items : list A)
    (T : list Qc) (k : nat) (x : Qc) :
  (∃ a, a ∈ items ∧ key a = k ∧ g a = x) →
  (∀ a b, a ∈ items → b ∈ items → key a = key b → g a = g b) →
  (k < length T)%nat →
  foldl (λ T a, <[key a := g a]> T) T items !! k = Some x.
Proof.
  induction items as [|b items IH] using rev_ind; intros (a & Ha & Hk & Hx) Hcons Hlen.
  - by apply elem_of_nil in Ha.
  - rewrite foldl_app. simpl. destruct (decide (key b = k)) as [Hb|Hb].
    + rewrite Hb, list_lookup_insert_eq by (by rewrite foldl_insert_length).
      f_equal. rewrite <- Hx. apply Hcons; [apply elem_of_app; right; left|done|congruence].
    + rewrite list_lookup_insert_ne by done. apply IH; [|intros; apply Hcons|done].
      * apply elem_of_app in Ha as [Ha|Ha]; [by exists a|].
        apply list_elem_of_singleton in Ha as ->. done.
      * apply elem_of_app. by left.
      * apply elem_of_app. by left.
      * done.
Qed.

(** ** Stores with the same domains *)

Section same_dom_facts.
Context (h h' : heap) (Hdom : same_dom h h').

Lemma domain_same v : domain h' v = domain h v.
Proof. apply Hdom. Qed.

Lemma domain_size_same v : domain_size h' v = domain_size h v.
Proof. unfold domain_size. by rewrite Hdom. Qed.

Lemma value_index_same v val : value_index h' v val = value_index h v val.
Proof. unfold value_index. by rewrite Hdom. Qed.

Lemma vidx_same v val : vidx h' v val = vidx h v val.
Proof. unfold vidx. by rewrite Hdom. Qed.

Lemma hidx_same ρ scope acc : hidx h' ρ scope acc = hidx h ρ scope acc.
Proof.
  revert acc. induction scope as [|v scope IH]; intros acc; simpl; [done|].
  rewrite domain_size_same. apply IH.
Qed.

Lemma table_size_same scope : table_size h' scope = table_size h scope.
Proof.
  unfold table_size. generalize 1. induction scope as [|v scope IH]; intros s; simpl; [done|].
  rewrite domain_size_same. apply IH.
Qed.

Lemma wf_factor_same f : wf_factor h f → wf_factor h' f.
Proof. unfold wf_factor. by rewrite table_size_same. Qed.

Lemma row_index_same scope t acc : row_index h' scope t acc = row_index h scope t acc.
Proof.
  revert t acc. induction scope as [|v scope IH]; intros t acc; simpl; [done|].
  destruct (py_getitem t 0) as [t0|]; simpl; [|done].
  rewrite value_index_same. destruct (value_index h v t0); simpl; [|done].
  rewrite domain_size_same. apply IH.
Qed.

Lemma get_value_same f t : get_value h' f t = get_value h f t.
Proof. unfold get_value. by rewrite row_index_same. Qed.

Lemma value_at_same f σ : value_at h' f σ = value_at h f σ.
Proof. apply get_value_same. Qed.

Lemma value_of_same f σ : value_of h' f σ = value_of h f σ.
Proof. unfold value_of. by rewrite value_at_same. Qed.

Lemma valid_on_same σ scope : valid_on h' σ scope ↔ valid_on h σ scope.
Proof. unfold valid_on. by setoid_rewrite domain_same. Qed.
End same_dom_facts.

Lemma same_dom_refl h : same_dom h h.
Proof. done. Qed.

Lemma same_dom_trans h1 h2 h3 : same_dom h1 h2 → same_dom h2 h3 → same_dom h1 h3.
Proof. intros H12 H23 v. by rewrite H23, H12. Qed.

Lemma same_dom_sym h1 h2 : same_dom h1 h2 → same_dom h2 h1.
Proof. intros H12 v. by rewrite H12. Qed.

Lemma set_assignment_run (h0 h : heap) v val :
  same_dom h0 h → val ∈ domain h0 v →
  set_assignment v val h
  = (Ok tt, <[v := with_assignment_index (obj h v) (vidx h0 v val)]> h).
Proof.
  intros Hdom Hval. unfold set_assignment.
  rewrite (value_index_same h0 h Hdom), (vidx_Ok h0) by done. done.
Qed.

Lemma same_dom_set_assignment (h0 h : heap) v i :
  same_dom h0 h → same_dom h0 (<[v := with_assignment_index (obj h v) i]> h).
Proof.
  intros Hdom w. destruct (decide (v = w)) as [->|Hne].
  - rewrite obj_insert_eq. apply Hdom.
  - rewrite obj_insert_ne by done. apply Hdom.
Qed.

Lemma get_assignment_index_insert (h : heap) v i w :
  get_assignment_index (<[v := with_assignment_index (obj h v) i]> h) w
  = upd (get_assignment_index h) v i w.
Proof.
  unfold get_assignment_index, upd. destruct (decide (w = v)) as [->|Hne].
  - by rewrite obj_insert_eq.
  - by rewrite obj_insert_ne.
Qed.

Lemma current_index_hidx (h0 h : heap) ρ scope :
  same_dom h0 h →
  (∀ v, v ∈ scope → get_assignment_index h v = ρ v) →
  current_index h scope = hidx h0 ρ scope 0.
Proof.
  intros Hdom Hρ. unfold current_index.
  change (foldl _ 0 scope) with (hidx h (get_assignment_index h) scope 0).
  rewrite (hidx_same h0 h Hdom). by apply hidx_ext.
Qed.

(** ** The enumeration of all assignments *)

Lemma write_at_scope h g F ρ : f_scope (write_at h g F ρ) = f_scope F.
Proof. done. Qed.

Lemma foldl_write_at_scope h g ρs F : f_scope (foldl (write_at h g) F ρs) = f_scope F.
Proof. revert F. induction ρs as [|ρ ρs IH]; intros F; simpl; [done|]. by rewrite IH. Qed.

Lemma foldl_write_at_name h g ρs F : f_name (foldl (write_at h g) F ρs) = f_name F.
Proof. revert F. induction ρs as [|ρ ρs IH]; intros F; simpl; [done|]. by rewrite IH. Qed.

Lemma foldl_write_at_values h g ρs F :
  f_values (foldl (write_at h g) F ρs)
  = foldl (λ T ρ, <[Z.to_nat (hidx h ρ (f_scope F) 0) := g ρ]> T) (f_values F) ρs.
Proof. revert F. induction ρs as [|ρ ρs IH]; intros F; simpl; [done|]. by rewrite IH. Qed.

Lemma foldl_write_at_wf h g ρs F : wf_factor h F → wf_factor h (foldl (write_at h g) F ρs).
Proof.
  unfold wf_factor. rewrite foldl_write_at_values, foldl_write_at_scope.
  by rewrite foldl_insert_length.
Qed.

Section enumerate_facts.
Context (h0 : heap) (leaf : M (heap * Factor) unit) (g : (nat → Z) → Qc).
Context (X : nat → Prop) (good : (nat → Z) → Prop) (scopeF : list nat).

Hypothesis leaf_spec : ∀ (h : heap) (F : Factor) (ρ : nat → Z),
  same_dom h0 h → wf_factor h0 F → f_scope F = scopeF →
  (∀ v, ¬ X v → get_assignment_index h v = ρ v) →
  good ρ →
  ∃ h', leaf (h, F) = (Ok tt, (h', write_at h0 g F ρ)) ∧
        same_dom h0 h' ∧
        (∀ v, ¬ X v → get_assignment_index h' v = get_assignment_index h v).

Lemma enumerate_spec (Vars : list nat) : ∀ (h : heap) (F : Factor) (ρ : nat → Z),
  same_dom h0 h → wf_factor h0 F → f_scope F = scopeF →
  (∀ v, ¬ X v → v ∉ Vars → get_assignment_index h v = ρ v) →
  (∀ v, v ∈ Vars → ¬ X v) →
  (∀ ρ', ρ' ∈ envs h0 ρ Vars → good ρ') →
  ∃ h', enumerate leaf Vars (h, F)
          = (Ok tt, (h', foldl (write_at h0 g) F (envs h0 ρ Vars))) ∧
        same_dom h0 h' ∧
        (∀ v, ¬ X v → v ∉ Vars → get_assignment_index h' v = get_assignment_index h v).
Proof.
  induction Vars as [|v0 Vars IH]; intros h F ρ Hdom Hwf Hsc Hag HX Hgood.
  - simpl. destruct (leaf_spec h F ρ Hdom Hwf Hsc) as (h' & Hrun & Hdom' & Hfr).
    + intros v Hv. apply Hag; [done|apply not_elem_of_nil].
    + apply Hgood. simpl. left.
    + exists h'. split_and!; [done|done|]. intros v Hv _. by apply Hfr.
  - cbn [enumerate envs]. unfold bind at 1, get at 1. cbn [fst].
    rewrite (domain_same h0 h Hdom).
    assert (∀ dl (h : heap) (F : Factor),
      (∀ val, val ∈ dl → val ∈ domain h0 v0) →
      same_dom h0 h → wf_factor h0 F → f_scope F = scopeF →
      (∀ v, ¬ X v → v ∉ v0 :: Vars → get_assignment_index h v = ρ v) →
      (∀ val ρ', val ∈ dl → ρ' ∈ envs h0 (upd ρ v0 (vidx h0 v0 val)) Vars → good ρ') →
      ∃ h', for_ (λ val, on_heap (set_assignment v0 val) ;;; enumerate leaf Vars) dl (h, F)
              = (Ok tt, (h', foldl (write_at h0 g) F
                   (val ← dl; envs h0 (upd ρ v0 (vidx h0 v0 val)) Vars))) ∧
            same_dom h0 h' ∧
            (∀ v, ¬ X v → v ∉ v0 :: Vars →
                  get_assignment_index h' v = get_assignment_index h v)) as Hloop.
    { clear h F Hdom Hwf Hsc Hag Hgood.
      induction dl as [|val dl IHdl]; intros h F Hdl Hdom Hwf Hsc Hag Hgood.
      - exists h. done.
      - cbn [for_]. unfold bind at 1.
        unfold bind at 1, on_heap at 1. cbn [fst snd].
        rewrite (set_assignment_run h0 h) by (done || (apply Hdl; left)).
        set (h1 := <[v0 := with_assignment_index (obj h v0) (vidx h0 v0 val)]> h).
        destruct (IH h1 F (upd ρ v0 (vidx h0 v0 val))) as (h2 & Hrun & Hdom2 & Hfr2).
        + by apply same_dom_set_assignment.
        + done.
        + done.
        + intros v Hv Hnin. unfold h1. rewrite get_assignment_index_insert.
          unfold upd. case_decide; [done|]. apply Hag; [done|].
          rewrite not_elem_of_cons. done.
        + intros v Hv. apply HX. by right.
        + intros ρ' Hρ'. apply (Hgood val); [left|done].
        + rewrite Hrun.
          destruct (IHdl h2 (foldl (write_at h0 g) F
                      (envs h0 (upd ρ v0 (vidx h0 v0 val)) Vars)))
            as (h3 & Hrun3 & Hdom3 & Hfr3).
          * intros val' Hval'. apply Hdl. by right.
          * done.
          * by apply foldl_write_at_wf.
          * by rewrite foldl_write_at_scope.
          * intros v Hv Hnin. rewrite Hfr2; [|done|by apply not_elem_of_cons in Hnin as [_ ?]].
            unfold h1. rewrite get_assignment_index_insert. unfold upd.
            rewrite decide_False by (by apply not_elem_of_cons in Hnin as [? _]).
            by apply Hag.
          * intros val' ρ' Hval'. apply Hgood. by right.
          * exists h3. split_and!; [|done|].
            -- rewrite Hrun3. cbn [mbind list_bind]. by rewrite foldl_app.
            -- intros v Hv Hnin. rewrite Hfr3, Hfr2;
                 [|done|by apply not_elem_of_cons in Hnin as [_ ?]|done|done].
               unfold h1. rewrite get_assignment_index_insert. unfold upd.
               by rewrite decide_False by (by apply not_elem_of_cons in Hnin as [? _]). }
    apply Hloop; [done|done|done|done|done|].
    intros val ρ' Hval Hρ'. apply Hgood. cbn [envs].
    apply list_elem_of_bind. by exists val.
Qed.
End enumerate_facts.

Lemma envs_sound h ρ Vars : ∀ ρ',
  ρ' ∈ envs h ρ Vars →
  (∀ v, v ∈ Vars → ∃ val, val ∈ domain h v ∧ ρ' v = vidx h v val) ∧
  (∀ v, v ∉ Vars → ρ' v = ρ v).
Proof.
  revert ρ. induction Vars as [|v0 Vars IH]; intros ρ ρ'; cbn [envs].
  - intros ->%list_elem_of_singleton. split; [by intros v ?%elem_of_nil|done].
  - intros (val & Hρ' & Hval)%list_elem_of_bind.
    apply IH in Hρ' as [Hin Hout]. split.
    + intros v Hv. destruct (decide (v ∈ Vars)) as [Hv'|Hv']; [by apply Hin|].
      apply elem_of_cons in Hv as [->|Hv]; [|done].
      exists val. split; [done|]. rewrite Hout by done. unfold upd. by rewrite decide_True.
    + intros v [Hne Hv]%not_elem_of_cons. rewrite Hout by done.
      unfold upd. by rewrite decide_False.
Qed.

Lemma envs_complete h ρ Vars (σ : assignment) :
  valid_on h σ Vars →
  ∃ ρ', ρ' ∈ envs h ρ Vars ∧
        (∀ v, v ∈ Vars → ρ' v = positions h σ v) ∧
        (∀ v, v ∉ Vars → ρ' v = ρ v).
Proof.
  revert ρ. induction Vars as [|v0 Vars IH]; intros ρ Hσ; cbn [envs].
  - exists ρ. split_and!; [left|by intros v ?%elem_of_nil|done].
  - destruct (IH (upd ρ v0 (vidx h v0 (σ !!! v0)))) as (ρ' & Hρ' & Hin & Hout).
    { intros v Hv. apply Hσ. by right. }
    exists ρ'. split_and!.
    + apply list_elem_of_bind. exists (σ !!! v0). split; [done|]. apply Hσ. left.
    + intros v Hv. destruct (decide (v ∈ Vars)) as [Hv'|Hv']; [by apply Hin|].
      apply elem_of_cons in Hv as [->|Hv]; [|done].
      rewrite Hout by done. unfold upd. by rewrite decide_True.
    + intros v [Hne Hv]%not_elem_of_cons. rewrite Hout by done.
      unfold upd. by rewrite decide_False.
Qed.

Lemma F_add_value_run (h0 h : heap) (F : Factor) (ρ : nat → Z) (x : Qc) :
  same_dom h0 h → wf_factor h0 F →
  (∀ v, v ∈ f_scope F → get_assignment_index h v = ρ v) →
  (∀ v, v ∈ f_scope F → 0 ≤ ρ v < domain_size h0 v) →
  F_add_value_at_current_assignment x (h, F)
  = (Ok tt, (h, mkFactor (f_name F) (f_scope F)
                  (<[Z.to_nat (hidx h0 ρ (f_scope F) 0) := x]> (f_values F)))).
Proof.
  intros Hdom Hwf Hag Hb.
  unfold F_add_value_at_current_assignment, bind, get, lift, put,
    add_value_at_current_assignment. cbn [fst snd].
  rewrite (current_index_hidx h0 h ρ) by done.
  rewrite py_setitem_Ok by (by apply hidx_table_bounds). done.
Qed.

Lemma get_value_current_run (h0 h : heap) (f : Factor) (ρ : nat → Z) :
  same_dom h0 h → wf_factor h0 f →
  (∀ v, v ∈ f_scope f → get_assignment_index h v = ρ v) →
  (∀ v, v ∈ f_scope f → 0 ≤ ρ v < domain_size h0 v) →
  get_value_at_current_assignments h f = Ok (table_at h0 f ρ).
Proof.
  intros Hdom Hwf Hag Hb. unfold get_value_at_current_assignments.
  rewrite (current_index_hidx h0 h ρ) by done. by apply py_getitem_table.
Qed.

(** ** sum_out_variable *)

Lemma recursive_eliminate_variable_enumerate f var Vars :
  recursive_eliminate_variable f var Vars = enumerate (leaf_eliminate f var) Vars.
Proof. induction Vars as [|v0 Vars IH]; simpl; [done|]. by rewrite IH. Qed.

Lemma leaf_eliminate_spec (h0 : heap) (f : Factor) (var : nat) (scopeF : list nat) :
  wf_factor h0 f → var ∉ scopeF →
  ∀ (h : heap) (F : Factor) (ρ : nat → Z),
    same_dom h0 h → wf_factor h0 F → f_scope F = scopeF →
    (∀ v, ¬ v = var → get_assignment_index h v = ρ v) →
    ((∀ v, v ∈ f_scope f → v ≠ var → 0 ≤ ρ v < domain_size h0 v) ∧
     (∀ v, v ∈ scopeF → 0 ≤ ρ v < domain_size h0 v)) →
    ∃ h', leaf_eliminate f var (h, F) = (Ok tt, (h', write_at h0 (g_eliminate h0 f var) F ρ)) ∧
          same_dom h0 h' ∧
          (∀ v, ¬ v = var → get_assignment_index h' v = get_assignment_index h v).
Proof.
  intros Hwf Hvar h F ρ Hdom HwfF Hsc Hag [Hgood HgoodF].
  unfold leaf_eliminate. unfold bind at 1, get at 1. cbn [fst].
  rewrite (domain_same h0 h Hdom).
  assert (∀ dl (h : heap) (acc : Qc),
    (∀ val, val ∈ dl → val ∈ domain h0 var) →
    same_dom h0 h →
    (∀ v, v ≠ var → get_assignment_index h v = ρ v) →
    ∃ h', foldM (λ summ val,
              on_heap (set_assignment var val) ;;;
              s' <- get ;;
              prod <- lift (get_value_at_current_assignments (fst s') f) ;;
              ret (summ + prod)%Qc) dl acc (h, F)
          = (Ok (foldl Qcplus acc
                  ((λ val, table_at h0 f (upd ρ var (vidx h0 var val))) <$> dl)), (h', F)) ∧
          same_dom h0 h' ∧
          (∀ v, v ≠ var → get_assignment_index h' v = get_assignment_index h v)) as Hloop.
  { clear h Hdom Hag. induction dl as [|val dl IHdl]; intros h acc Hdl Hdom Hag.
    - exists h. done.
    - cbn [foldM]. unfold bind at 1. unfold bind at 1, on_heap at 1. cbn [fst snd].
      rewrite (set_assignment_run h0 h) by (done || (apply Hdl; left)).
      set (h1 := <[var := with_assignment_index (obj h var) (vidx h0 var val)]> h).
      unfold bind at 1, get at 1. cbn [fst].
      unfold bind at 1, lift at 1.
      rewrite (get_value_current_run h0 h1 f (upd ρ var (vidx h0 var val))).
      + unfold ret at 1.
        destruct (IHdl h1 (acc + table_at h0 f (upd ρ var (vidx h0 var val)))%Qc)
          as (h2 & Hrun & Hdom2 & Hfr2).
        * intros val' Hval'. apply Hdl. by right.
        * by apply same_dom_set_assignment.
        * intros v Hv. unfold h1. rewrite get_assignment_index_insert.
          unfold upd. rewrite decide_False by done. by apply Hag.
        * exists h2. split_and!; [by rewrite Hrun|done|].
          intros v Hv. rewrite Hfr2 by done. unfold h1.
          rewrite get_assignment_index_insert. unfold upd. by rewrite decide_False.
      + by apply same_dom_set_assignment.
      + done.
      + intros v Hv. unfold h1. rewrite get_assignment_index_insert.
        unfold upd. case_decide; [done|]. by apply Hag.
      + intros v Hv. unfold upd. case_decide as Hv'; [|by apply Hgood].
        subst v. apply vidx_bounds, Hdl. left. }
  destruct (Hloop (domain h0 var) h 0%Qc) as (h' & Hrun & Hdom' & Hfr); [done..|].
  rewrite (bind_ok _ _ _ _ _ Hrun). exists h'. split_and!; [|done|done].
  rewrite (F_add_value_run h0 h' F ρ).
  - done.
  - done.
  - done.
  - intros v Hv. rewrite Hfr; [apply Hag|]; intros ->; apply Hvar; by rewrite <- Hsc.
  - intros v Hv. apply HgoodF. by rewrite <- Hsc.
Qed.

Lemma table_at_ext h f ρ ρ' :
  (∀ v, v ∈ f_scope f → ρ v = ρ' v) → table_at h f ρ = table_at h f ρ'.
Proof. intros Hρ. unfold table_at. by rewrite (hidx_ext h ρ ρ'). Qed.

Lemma Factor_init_wf h name scope : wf_factor h (Factor_init h name scope).
Proof. unfold wf_factor, Factor_init. simpl. by rewrite length_replicate. Qed.

Lemma positions_insert_eq h (σ : assignment) v val :
  positions h (<[v := val]> σ) v = vidx h v val.
Proof. unfold positions. by rewrite lookup_total_insert_eq. Qed.

Lemma positions_insert_ne h (σ : assignment) v w val :
  v ≠ w → positions h (<[v := val]> σ) w = positions h σ w.
Proof. intros Hne. unfold positions. by rewrite lookup_total_insert_ne. Qed.

Lemma valid_on_insert h (σ : assignment) scope var val :
  val ∈ domain h var →
  valid_on h σ (filter (λ v, v ≠ var) scope) →
  valid_on h (<[var := val]> σ) scope.
Proof.
  intros Hval Hσ v Hv. destruct (decide (var = v)) as [->|Hne].
  - by rewrite lookup_total_insert_eq.
  - rewrite lookup_total_insert_ne by done. apply Hσ.
    apply list_elem_of_filter. split; [congruence|done].
Qed.

(** The table written by an enumeration, read back at an assignment. *)
Lemma enumerated_table_lookup (h : heap) (g : (nat → Z) → Qc) (F0 : Factor)
    (ρ0 : nat → Z) (σ : assignment) :
  wf_factor h F0 →
  valid_on h σ (f_scope F0) →
  (∀ ρ ρ', (∀ v, v ∈ f_scope F0 → ρ v = ρ' v) →
           (∀ v, v ∉ f_scope F0 → ρ v = ρ0 v) → (∀ v, v ∉ f_scope F0 → ρ' v = ρ0 v) →
           g ρ = g ρ') →
  ∃ ρ, (∀ v, v ∈ f_scope F0 → ρ v = positions h σ v) ∧
       (∀ v, v ∉ f_scope F0 → ρ v = ρ0 v) ∧
       value_at h (foldl (write_at h g) F0 (envs h ρ0 (f_scope F0))) σ = Ok (g ρ).
Proof.
  intros Hwf Hσ Hg.
  destruct (envs_complete h ρ0 (f_scope F0) σ Hσ) as (ρ & Hρ & Hin & Hout).
  exists ρ. split_and!; [done|done|].
  set (F := foldl (write_at h g) F0 (envs h ρ0 (f_scope F0))).
  assert (HwfF : wf_factor h F) by by apply foldl_write_at_wf.
  assert (HscF : f_scope F = f_scope F0) by apply foldl_write_at_scope.
  rewrite value_at_valid; [|done|by unfold get_scope; rewrite HscF].
  f_equal. unfold table_at. rewrite HscF. unfold F.
  rewrite foldl_write_at_values.
  pose proof (positions_bounds h σ (f_scope F0) Hσ) as Hpb.
  erewrite (foldl_insert_lookup (λ ρ, Z.to_nat (hidx h ρ (f_scope F0) 0)) g); [done| | |].
  - exists ρ. split_and!; [done| |done]. f_equal. by apply hidx_ext.
  - intros a b Ha Hb Hkey.
    apply envs_sound in Ha as [Ha Ha'], Hb as [Hb Hb'].
    assert (∀ v, v ∈ f_scope F0 → 0 ≤ a v < domain_size h v) as Hab.
    { intros v Hv. destruct (Ha v Hv) as (val & Hval & ->). by apply vidx_bounds. }
    assert (∀ v, v ∈ f_scope F0 → 0 ≤ b v < domain_size h v) as Hbb.
    { intros v Hv. destruct (Hb v Hv) as (val & Hval & ->). by apply vidx_bounds. }
    pose proof (hidx_bounds h a (f_scope F0) 0 Hab).
    pose proof (hidx_bounds h b (f_scope F0) 0 Hbb).
    pose proof (psize_nonneg h (f_scope F0)).
    apply Hg; [|done|done].
    apply (hidx_inj h a b (f_scope F0) 0 0); [done|done|lia].
  - pose proof (hidx_table_bounds h (positions h σ) F0 Hwf Hpb). lia.
Qed.

Lemma g_eliminate_value (h : heap) (f : Factor) (var : nat) (ρ : nat → Z) (σ : assignment) :
  wf_factor h f →
  valid_on h σ (filter (λ v, v ≠ var) (f_scope f)) →
  (∀ v, v ∈ filter (λ v, v ≠ var) (f_scope f) → ρ v = positions h σ v) →
  g_eliminate h f var ρ
  = sumQ ((λ val, value_of h f (<[var := val]> σ)) <$> domain h var).
Proof.
  intros Hwf Hσ Hρ. unfold g_eliminate. rewrite py_sum_sumQ. f_equal.
  apply list_fmap_ext. intros i val Hval%list_elem_of_lookup_2.
  rewrite value_of_valid; [|done|by apply valid_on_insert].
  apply table_at_ext. intros v Hv. unfold upd. case_decide as Hvv.
  - subst v. by rewrite positions_insert_eq.
  - rewrite positions_insert_ne by done. apply Hρ.
    apply list_elem_of_filter. done.
Qed.

Lemma sum_out_variable_correct (h : heap) (f : Factor) (var : nat) :
  NoDup (get_scope f) → wf_factor h f → var ∈ get_scope f →
  ∃ F h', sum_out_variable f var h = (Ok F, h') ∧
    get_scope F = filter (λ v, v ≠ var) (get_scope f) ∧
    same_dom h h' ∧ wf_factor h' F ∧
    ∀ σ, valid_on h σ (get_scope F) →
      value_at h' F σ = Ok (sumQ ((λ val, value_of h f (<[var := val]> σ)) <$> domain h var)).
Proof.
  intros Hnd Hwf Hvar. unfold sum_out_variable, get_scope in *.
  set (scopeF := filter (λ v, v ≠ var) (f_scope f)).
  rewrite (bind_ok _ _ h scopeF h) by (unfold lift; by rewrite py_remove_NoDup).
  unfold bind at 1, get at 1.
  set (F0 := Factor_init h _ scopeF). unfold building.
  rewrite recursive_eliminate_variable_enumerate.
  destruct (enumerate_spec h (leaf_eliminate f var) (g_eliminate h f var)
              (λ v, v = var)
              (λ ρ, (∀ v, v ∈ f_scope f → v ≠ var → 0 ≤ ρ v < domain_size h v) ∧
                    (∀ v, v ∈ scopeF → 0 ≤ ρ v < domain_size h v))
              scopeF) with (Vars := scopeF) (h := h) (F := F0) (ρ := get_assignment_index h)
    as (h' & Hrun & Hdom & _).
  - apply leaf_eliminate_spec; [done|]. unfold scopeF. rewrite list_elem_of_filter. naive_solver.
  - done.
  - apply Factor_init_wf.
  - done.
  - done.
  - intros v [Hv _]%list_elem_of_filter. done.
  - intros ρ' [Hin _]%envs_sound.
    assert (∀ v, v ∈ scopeF → 0 ≤ ρ' v < domain_size h v) as Hb.
    { intros v Hv. destruct (Hin v Hv) as (val & Hval & ->). by apply vidx_bounds. }
    split; [|done]. intros v Hv Hne. apply Hb. by apply list_elem_of_filter.
  - rewrite Hrun. eexists _, h'. split; [done|]. split_and!.
    + by rewrite foldl_write_at_scope.
    + done.
    + apply (wf_factor_same h h' Hdom), foldl_write_at_wf, Factor_init_wf.
    + rewrite foldl_write_at_scope. intros σ Hσ.
      rewrite (value_at_same h h' Hdom).
      destruct (enumerated_table_lookup h (g_eliminate h f var) F0
                  (get_assignment_index h) σ) as (ρ & Hρ & _ & Hval).
      * apply Factor_init_wf.
      * done.
      * intros ρ1 ρ2 Hag _ _. unfold g_eliminate. f_equal.
        apply list_fmap_ext. intros i val _. apply table_at_ext.
        intros v Hv. unfold upd. case_decide; [done|]. apply Hag.
        by apply list_elem_of_filter.
      * change (f_scope F0) with scopeF in Hval, Hρ. rewrite Hval.
        f_equal. by apply g_eliminate_value.
Qed.

Lemma filter_ne_length (var : nat) (l : list nat) :
  NoDup l → var ∈ l → (length (filter (λ v, v ≠ var) l) + 1 = length l)%nat.
Proof.
  induction 1 as [|x l Hx Hnd IH]; [by intros ?%elem_of_nil|].
  intros Hvar. rewrite filter_cons. destruct (decide (x ≠ var)) as [Hne|Heq].
  - apply elem_of_cons in Hvar as [->|Hvar]; [done|]. simpl. by rewrite IH.
  - assert (x = var) as -> by (by destruct (decide (x = var))).
    rewrite filter_id; [simpl; lia|]. intros y Hy ->. done.
Qed.

(** C7.  On a factor with a duplicate-free scope that contains [var],
    [sum_out_variable] returns a factor over the scope with [var] removed
    (one variable shorter); at every assignment to the remaining variables
    its value is the sum, over the values of the domain of [var], of the value
    of [f] at the assignment extended with that value. *)
Theorem sum_out_variable_spec (h : heap) (f : Factor) (var : nat) :
  NoDup (get_scope f) → wf_factor h f → var ∈ get_scope f →
  ∃ F h', sum_out_variable f var h = (Ok F, h') ∧
    get_scope F = filter (λ v, v ≠ var) (get_scope f) ∧
    (var ∉ get_scope F) ∧
    (length (get_scope F) + 1 = length (get_scope f))%nat ∧
    ∀ σ, valid_on h σ (get_scope F) →
      (∀ val, val ∈ domain h var →
         value_at h f (<[var := val]> σ) = Ok (value_of h f (<[var := val]> σ))) ∧
      value_at h' F σ
      = Ok (sumQ ((λ val, value_of h f (<[var := val]> σ)) <$> domain h var)).
Proof.
  intros Hnd Hwf Hvar.
  destruct (sum_out_variable_correct h f var Hnd Hwf Hvar)
    as (F & h' & Hrun & Hsc & Hdom & HwfF & Hval).
  exists F, h'. split; [done|]. split; [done|]. split_and!.
  - rewrite Hsc, list_elem_of_filter. naive_solver.
  - rewrite Hsc. by apply filter_ne_length.
  - intros σ Hσ. split; [|by apply Hval].
    intros val Hv. unfold value_of.
    rewrite value_at_valid; [done|done|]. apply valid_on_insert; [done|]. by rewrite <- Hsc.
Qed.

Lemma sum_out_variable_spec_witness :
  ∃ F h', sum_out_variable FS vE ex_heap = (Ok F, h') ∧ get_scope F = [vS; vB].
Proof.
  destruct (sum_out_variable_spec ex_heap FS vE) as (F & h' & Hrun & Hsc & _).
  - vm_compute. repeat constructor; set_solver.
  - vm_compute. reflexivity.
  - vm_compute. set_solver.
  - exists F, h'. split; [exact Hrun|]. rewrite Hsc. vm_compute. reflexivity.
Defined.

(** ** restrict_factor *)

Lemma recursive_restrict_factor_enumerate f var Vars :
  recursive_restrict_factor f var Vars
  = enumerate (leaf_restrict f) (filter (λ v, v ≠ var) Vars).
Proof.
  induction Vars as [|v0 Vars IH]; [done|].
  cbn [recursive_restrict_factor]. rewrite filter_cons.
  destruct (decide (v0 ≠ var)); [|done]. cbn [enumerate]. by rewrite IH.
Qed.

Lemma leaf_restrict_spec (h0 : heap) (f : Factor) (var : nat) (i : Z) (scopeF : list nat) :
  wf_factor h0 f →
  (∀ v, v ∈ f_scope f → v ≠ var → v ∈ scopeF) →
  0 ≤ i < domain_size h0 var →
  ∀ (h : heap) (F : Factor) (ρ : nat → Z),
    same_dom h0 h → wf_factor h0 F → f_scope F = scopeF →
    (∀ v, ¬ False → get_assignment_index h v = ρ v) →
    ((∀ v, v ∈ scopeF → 0 ≤ ρ v < domain_size h0 v) ∧ ρ var = i) →
    ∃ h', leaf_restrict f (h, F) = (Ok tt, (h', write_at h0 (table_at h0 f) F ρ)) ∧
          same_dom h0 h' ∧
          (∀ v, ¬ False → get_assignment_index h' v = get_assignment_index h v).
Proof.
  intros Hwf Hsub Hi h F ρ Hdom HwfF Hsc Hag [Hgood Hvar].
  assert (∀ v, get_assignment_index h v = ρ v) as Hag' by (intros v; apply Hag; tauto).
  exists h. split_and!; [|done|done].
  unfold leaf_restrict. unfold bind at 1, get at 1. cbn [fst].
  unfold bind at 1, lift at 1.
  rewrite (get_value_current_run h0 h f ρ); [|done|done|by intros|].
  - rewrite (F_add_value_run h0 h F ρ); [done|done|done|by intros|].
    intros v Hv. apply Hgood. by rewrite <- Hsc.
  - intros v Hv. destruct (decide (v = var)) as [->|Hne]; [by rewrite Hvar|].
    by apply Hgood, Hsub.
Qed.

Lemma restrict_factor_correct (h : heap) (f : Factor) (var : nat) (value : pyval) :
  NoDup (get_scope f) → wf_factor h f → var ∈ get_scope f → value ∈ domain h var →
  ∃ F h', restrict_factor f var value h = (Ok F, h') ∧
    get_scope F = filter (λ v, v ≠ var) (get_scope f) ∧
    same_dom h h' ∧ wf_factor h' F ∧
    ∀ σ, valid_on h σ (get_scope F) →
      value_at h' F σ = Ok (value_of h f (<[var := value]> σ)).
Proof.
  intros Hnd Hwf Hvar Hvalue. unfold restrict_factor, get_scope in *.
  set (scopeF := filter (λ v, v ≠ var) (f_scope f)).
  rewrite (bind_ok _ _ h scopeF h) by (unfold lift; by rewrite py_remove_NoDup).
  unfold bind at 1, get at 1.
  set (F0 := Factor_init h _ scopeF).
  unfold bind at 1. rewrite (set_assignment_run h h) by done.
  set (h1 := <[var := with_assignment_index (obj h var) (vidx h var value)]> h).
  unfold building. rewrite recursive_restrict_factor_enumerate. fold scopeF.
  destruct (enumerate_spec h (leaf_restrict f) (table_at h f)
              (λ _, False)
              (λ ρ, (∀ v, v ∈ scopeF → 0 ≤ ρ v < domain_size h v) ∧
                    ρ var = vidx h var value)
              scopeF) with (Vars := scopeF) (h := h1) (F := F0) (ρ := get_assignment_index h1)
    as (h' & Hrun & Hdom & _).
  - apply leaf_restrict_spec; [done| |by apply vidx_bounds].
    intros v Hv Hne. by apply list_elem_of_filter.
  - by apply same_dom_set_assignment.
  - apply Factor_init_wf.
  - done.
  - done.
  - tauto.
  - intros ρ' [Hin Hout]%envs_sound. split.
    + intros v Hv. destruct (Hin v Hv) as (val & Hval & ->). by apply vidx_bounds.
    + rewrite Hout by (unfold scopeF; rewrite list_elem_of_filter; naive_solver).
      unfold h1. rewrite get_assignment_index_insert. unfold upd. by rewrite decide_True.
  - rewrite Hrun. eexists _, h'. split; [done|]. split_and!.
    + by rewrite foldl_write_at_scope.
    + done.
    + apply (wf_factor_same h h' Hdom), foldl_write_at_wf, Factor_init_wf.
    + rewrite foldl_write_at_scope. intros σ Hσ.
      rewrite (value_at_same h h' Hdom).
      destruct (enumerated_table_lookup h (table_at h f) F0
                  (get_assignment_index h1) σ) as (ρ & Hρ & Hout & Hval).
      * apply Factor_init_wf.
      * done.
      * intros ρ1 ρ2 Hag Hout1 Hout2. apply table_at_ext.
        intros v Hv. destruct (decide (v = var)) as [->|Hne].
        -- rewrite Hout1, Hout2; [done|..]; change (f_scope F0) with scopeF;
             unfold scopeF; rewrite list_elem_of_filter; naive_solver.
        -- apply Hag. by apply list_elem_of_filter.
      * change (f_scope F0) with scopeF in Hval, Hρ, Hout. rewrite Hval. f_equal.
        rewrite value_of_valid; [|done|by apply valid_on_insert].
        apply table_at_ext. intros v Hv. destruct (decide (v = var)) as [->|Hne].
        -- rewrite positions_insert_eq, Hout
             by (unfold scopeF; rewrite list_elem_of_filter; naive_solver).
           unfold h1. rewrite get_assignment_index_insert. unfold upd. by rewrite decide_True.
        -- rewrite positions_insert_ne by done. apply Hρ. by apply list_elem_of_filter.
Qed.

(** C6.  On a factor with a duplicate-free scope that contains [var], and a
    value of the domain of [var], [restrict_factor] returns a factor over the
    scope with [var] removed (one variable shorter) whose value at every
    assignment to the remaining variables is the value of [f] at the
    assignment extended with [var = value].  When the scope is exactly [var],
    the result has the empty scope and its table holds that one value. *)
Theorem restrict_factor_spec (h : heap) (f : Factor) (var : nat) (value : pyval) :
  NoDup (get_scope f) → wf_factor h f → var ∈ get_scope f → value ∈ domain h var →
  ∃ F h', restrict_factor f var value h = (Ok F, h') ∧
    get_scope F = filter (λ v, v ≠ var) (get_scope f) ∧
    (var ∉ get_scope F) ∧
    (length (get_scope F) + 1 = length (get_scope f))%nat ∧
    (∀ σ, valid_on h σ (get_scope F) →
       ∃ x, value_at h f (<[var := value]> σ) = Ok x ∧ value_at h' F σ = Ok x) ∧
    (get_scope f = [var] →
       get_scope F = [] ∧
       ∃ x, get_value h f [value] = Ok x ∧ get_values F = [x]).
Proof.
  intros Hnd Hwf Hvar Hvalue.
  destruct (restrict_factor_correct h f var value Hnd Hwf Hvar Hvalue)
    as (F & h' & Hrun & Hsc & Hdom & HwfF & Hval).
  assert (∀ σ, valid_on h σ (get_scope F) →
            value_at h f (<[var := value]> σ) = Ok (value_of h f (<[var := value]> σ))) as Hf.
  { intros σ Hσ. unfold value_of. rewrite value_at_valid; [done|done|].
    apply valid_on_insert; [done|]. by rewrite <- Hsc. }
  exists F, h'. split; [done|]. split; [done|]. split_and!.
  - rewrite Hsc, list_elem_of_filter. naive_solver.
  - rewrite Hsc. by apply filter_ne_length.
  - intros σ Hσ. exists (value_of h f (<[var := value]> σ)). split; [by apply Hf|by apply Hval].
  - intros Hone. rewrite Hone in Hsc. rewrite filter_cons_False in Hsc by naive_solver.
    split; [done|]. exists (value_of h f (<[var := value]> ∅)).
    assert (valid_on h ∅ (get_scope F)) as Hσ.
    { rewrite Hsc. by intros v ?%elem_of_nil. }
    specialize (Hf ∅ Hσ). specialize (Hval ∅ Hσ).
    unfold value_at in Hf. rewrite Hone in Hf. cbn [fmap list_fmap] in Hf.
    rewrite lookup_total_insert_eq in Hf. split; [done|].
    unfold value_at, get_value, get_scope in Hval, Hsc. rewrite Hsc in Hval.
    cbn in Hval. unfold wf_factor in HwfF. rewrite Hsc in HwfF. cbn in HwfF.
    unfold get_values. destruct (f_values F) as [|y [|??]]; try done.
    cbn in Hval. by injection Hval as ->.
Qed.

Lemma restrict_factor_spec_witness :
  ∃ F h', restrict_factor FG vS (VStr "-s") ex_heap = (Ok F, h') ∧ get_scope F = [vG].
Proof.
  destruct (restrict_factor_spec ex_heap FG vS (VStr "-s")) as (F & h' & Hrun & Hsc & _).
  - vm_compute. repeat constructor; set_solver.
  - vm_compute. reflexivity.
  - vm_compute. set_solver.
  - vm_compute. set_solver.
  - exists F, h'. split; [exact Hrun|]. rewrite Hsc. vm_compute. reflexivity.
Defined.

(** ** multiply_factors *)

Lemma product_elem {A} (ls : list (list A)) (comb : list A) :
  comb ∈ product ls ↔ Forall2 (λ x l, x ∈ l) comb ls.
Proof.
  revert comb. induction ls as [|l ls IH]; intros comb; cbn [product].
  - rewrite list_elem_of_singleton. split; [intros ->; constructor|by intros ->%Forall2_nil_inv_r].
  - rewrite list_elem_of_bind. split.
    + intros (a & (rest & -> & Hrest)%list_elem_of_fmap & Ha).
      constructor; [done|by apply IH].
    + intros (a & rest & Ha & Hrest & ->)%Forall2_cons_inv_r.
      exists a. split; [|done]. apply list_elem_of_fmap. exists rest. split; [done|by apply IH].
Qed.

Lemma assign_lookup (scope : list nat) (comb : list pyval) (i : nat) v x :
  NoDup scope → scope !! i = Some v → comb !! i = Some x → assign scope comb !!! v = x.
Proof.
  intros Hnd. revert comb i. induction Hnd as [|w scope Hw Hnd IH]; intros comb i Hv Hx.
  - done.
  - destruct comb as [|y comb]; [done|]. cbn [assign]. destruct i as [|i]; simpl in *.
    + simplify_eq. by rewrite lookup_total_insert_eq.
    + rewrite lookup_total_insert_ne; [by eapply IH|].
      intros ->. apply Hw. by eapply list_elem_of_lookup_2.
Qed.

Lemma assign_values (scope : list nat) (comb : list pyval) :
  NoDup scope → length comb = length scope →
  (λ v, assign scope comb !!! v) <$> scope = comb.
Proof.
  intros Hnd Hlen. apply list_eq. intros i. rewrite list_lookup_fmap.
  destruct (scope !! i) as [v|] eqn:Hv; simpl.
  - destruct (lookup_lt_is_Some_2 comb i) as [x Hx].
    { rewrite Hlen. by eapply lookup_lt_Some. }
    rewrite Hx. f_equal. by eapply assign_lookup.
  - symmetry. apply lookup_ge_None. rewrite Hlen. by apply lookup_ge_None.
Qed.

Lemma assign_fmap (scope : list nat) (σ : assignment) v :
  NoDup scope → v ∈ scope →
  assign scope ((λ v, σ !!! v) <$> scope) !!! v = σ !!! v.
Proof.
  intros Hnd (i & Hv)%list_elem_of_lookup_1.
  apply (assign_lookup scope _ i); [done|done|]. by rewrite list_lookup_fmap, Hv.
Qed.

Lemma assign_valid (h : heap) (scope : list nat) (comb : list pyval) :
  NoDup scope → Forall2 (λ x v, x ∈ domain h v) comb scope →
  valid_on h (assign scope comb) scope.
Proof.
  intros Hnd Hcomb v (i & Hv)%list_elem_of_lookup_1.
  destruct (Forall2_lookup_r _ _ _ _ _ Hcomb Hv) as (x & Hx & Hin).
  by rewrite (assign_lookup _ _ i v x Hnd Hv Hx).
Qed.

Section multiply_pair_facts.
Context (h : heap) (factor1 factor2 : Factor).
Context (Hnd1 : NoDup (get_scope factor1)) (Hnd2 : NoDup (get_scope factor2)).
Context (Hwf1 : wf_factor h factor1) (Hwf2 : wf_factor h factor2).

Local Abbreviation new_scp := (product_scope factor1 factor2).

Lemma new_scp_NoDup : NoDup new_scp.
Proof using Hnd1 Hnd2.
  apply NoDup_app. split_and!; [done| |by apply NoDup_filter].
  intros v Hv [Hv' _]%list_elem_of_filter. done.
Qed.

Lemma new_scp_elem v : v ∈ new_scp ↔ v ∈ get_scope factor1 ∨ v ∈ get_scope factor2.
Proof using Type.
  unfold product_scope. rewrite elem_of_app, list_elem_of_filter.
  destruct (decide (v ∈ get_scope factor2)); naive_solver.
Qed.

Lemma comb_select (comb : list pyval) (scope : list nat) :
  length comb = length new_scp →
  (∀ v, v ∈ scope → v ∈ new_scp) →
  res_mapM (λ elem, i ← py_index new_scp elem; py_getitem comb i) scope
  = Ok ((λ v, assign new_scp comb !!! v) <$> scope).
Proof using Hnd1 Hnd2.
  intros Hlen. induction scope as [|v scope IH]; intros Hsub; [done|].
  cbn [res_mapM fmap list_fmap].
  destruct (py_index_elem v new_scp) as [i Hi]; [apply Hsub; left|].
  rewrite Hi. cbn [mbind Res_bind]. apply py_index_Ok in Hi as [Hi Hv].
  destruct (lookup_lt_is_Some_2 comb (Z.to_nat i)) as [x Hx]; [lia|].
  rewrite (py_getitem_Ok comb i x) by (done || lia). cbn [mbind Res_bind].
  change (res_mapM ?f scope) with (res_mapM f scope).
  rewrite IH by (intros w Hw; apply Hsub; by right). cbn [mbind Res_bind].
  do 2 f_equal. symmetry. eapply assign_lookup; [apply new_scp_NoDup|done|done].
Qed.

Lemma multiply_step (F : Factor) (comb : list pyval) :
  f_scope F = new_scp → wf_factor h F →
  Forall2 (λ x v, x ∈ domain h v) comb new_scp →
  (comb1 ← res_mapM (λ elem, i ← py_index new_scp elem; py_getitem comb i) (get_scope factor1);
   comb2 ← res_mapM (λ elem, i ← py_index new_scp elem; py_getitem comb i) (get_scope factor2);
   x1 ← get_value h factor1 comb1;
   x2 ← get_value h factor2 comb2;
   add_values h F [(comb, (x1 * x2)%Qc)])
  = Ok (write_at h (g_multiply h factor1 factor2) F (positions h (assign new_scp comb))).
Proof using Hnd1 Hnd2 Hwf1 Hwf2.
  intros Hsc HwfF Hcomb. pose proof (Forall2_length _ _ _ Hcomb) as Hlen.
  set (σ := assign new_scp comb).
  assert (Hσ : valid_on h σ new_scp) by (apply assign_valid; [apply new_scp_NoDup|done]).
  assert (Hσ1 : valid_on h σ (get_scope factor1)).
  { intros v Hv. apply Hσ, new_scp_elem. by left. }
  assert (Hσ2 : valid_on h σ (get_scope factor2)).
  { intros v Hv. apply Hσ, new_scp_elem. by right. }
  rewrite !comb_select by (done || (intros v Hv; apply new_scp_elem; first [by left|by right])).
  cbn [mbind Res_bind].
  pose proof (value_at_valid h factor1 σ Hwf1 Hσ1) as E1.
  pose proof (value_at_valid h factor2 σ Hwf2 Hσ2) as E2.
  unfold value_at, σ in E1, E2. rewrite E1. cbn [mbind Res_bind].
  rewrite E2. cbn [mbind Res_bind].
  unfold add_values, add_values_row. cbn [fst snd].
  pose proof (row_index_valid h σ new_scp 0 Hσ) as E3.
  unfold σ in E3 at 1. rewrite (assign_values new_scp comb new_scp_NoDup Hlen) in E3.
  rewrite Hsc, E3. cbn [mbind Res_bind].
  rewrite py_setitem_Ok.
  - cbn [mbind Res_bind]. unfold write_at, g_multiply. by rewrite Hsc.
  - rewrite <- Hsc. apply hidx_table_bounds; [done|]. rewrite Hsc. by apply positions_bounds.
Qed.

Lemma multiply_pair_correct :
  ∃ F, multiply_pair h factor1 factor2 = Ok F ∧
    get_scope F = new_scp ∧ wf_factor h F ∧
    ∀ σ, valid_on h σ new_scp →
      value_at h F σ = Ok (value_of h factor1 σ * value_of h factor2 σ)%Qc.
Proof using Hnd1 Hnd2 Hwf1 Hwf2.
  unfold multiply_pair. fold new_scp.
  set (F0 := Factor_init h "Factor" new_scp).
  set (combs := product ((λ scp, domain h scp) <$> new_scp)).
  set (g := g_multiply h factor1 factor2).
  assert (∀ cs F, f_scope F = new_scp → wf_factor h F →
            (∀ comb, comb ∈ cs → Forall2 (λ x v, x ∈ domain h v) comb new_scp) →
            res_foldM (λ factor comb,
              comb1 ← res_mapM (λ elem, i ← py_index new_scp elem; py_getitem comb i)
                        (get_scope factor1);
              comb2 ← res_mapM (λ elem, i ← py_index new_scp elem; py_getitem comb i)
                        (get_scope factor2);
              x1 ← get_value h factor1 comb1;
              x2 ← get_value h factor2 comb2;
              add_values h factor [(comb, (x1 * x2)%Qc)]) cs F
            = Ok (foldl (write_at h g) F
                    ((λ comb, positions h (assign new_scp comb)) <$> cs))) as Hfold.
  { induction cs as [|comb cs IH]; intros F Hsc HwfF Hcs; [done|].
    cbn [res_foldM]. rewrite multiply_step by (done || (apply Hcs; left)).
    cbn [mbind Res_bind]. rewrite IH; [done|done| |].
    - unfold wf_factor, write_at. simpl. by rewrite length_insert.
    - intros c Hc. apply Hcs. by right. }
  assert (Hcombs : ∀ comb, comb ∈ combs ↔ Forall2 (λ x v, x ∈ domain h v) comb new_scp).
  { intros comb. unfold combs. by rewrite product_elem, Forall2_fmap_r. }
  rewrite Hfold; [|done|apply Factor_init_wf|by intros comb ?%Hcombs].
  eexists. split; [done|]. split_and!.
  - unfold get_scope. by rewrite foldl_write_at_scope.
  - apply foldl_write_at_wf, Factor_init_wf.
  - intros σ Hσ.
    set (F := foldl _ _ _).
    assert (HwfF : wf_factor h F) by apply foldl_write_at_wf, Factor_init_wf.
    assert (HscF : f_scope F = new_scp) by apply foldl_write_at_scope.
    assert (Hσ1 : valid_on h σ (get_scope factor1)).
    { intros v Hv. apply Hσ, new_scp_elem. by left. }
    assert (Hσ2 : valid_on h σ (get_scope factor2)).
    { intros v Hv. apply Hσ, new_scp_elem. by right. }
    rewrite value_at_valid; [|done|by unfold get_scope; rewrite HscF].
    f_equal. unfold table_at. rewrite HscF. unfold F.
    rewrite foldl_write_at_values. cbn [f_scope F0 Factor_init].
    pose proof (positions_bounds h σ new_scp Hσ) as Hpb.
    assert (Hext : ∀ ρ ρ', (∀ v, v ∈ new_scp → ρ v = ρ' v) → g ρ = g ρ').
    { intros ρ ρ' Hag. unfold g, g_multiply.
      f_equal; apply table_at_ext; intros v Hv; apply Hag, new_scp_elem; first [by left|by right]. }
    assert (Hagree : ∀ v, v ∈ new_scp →
              positions h (assign new_scp ((λ v, σ !!! v) <$> new_scp)) v = positions h σ v).
    { intros v Hv. unfold positions. by rewrite assign_fmap by (apply new_scp_NoDup || done). }
    erewrite (foldl_insert_lookup (λ ρ, Z.to_nat (hidx h ρ new_scp 0)) g).
    + done.
    + exists (positions h (assign new_scp ((λ v, σ !!! v) <$> new_scp))). split_and!.
      * apply (list_elem_of_fmap_2 (λ comb, positions h (assign new_scp comb))).
        apply Hcombs, Forall2_fmap_l, Forall_Forall2_diag, Forall_forall. done.
      * f_equal. by apply hidx_ext.
      * rewrite (Hext _ (positions h σ)) by done.
        unfold g, g_multiply. by rewrite !value_of_valid.
    + intros a b (ca & -> & Hca%Hcombs)%list_elem_of_fmap
        (cb & -> & Hcb%Hcombs)%list_elem_of_fmap Hkey.
      pose proof (positions_bounds h _ _ (assign_valid h _ _ new_scp_NoDup Hca)) as Hba.
      pose proof (positions_bounds h _ _ (assign_valid h _ _ new_scp_NoDup Hcb)) as Hbb.
      pose proof (hidx_bounds h _ new_scp 0 Hba).
      pose proof (hidx_bounds h _ new_scp 0 Hbb).
      pose proof (psize_nonneg h new_scp).
      apply Hext. apply (hidx_inj h _ _ new_scp 0 0); [done|done|lia].
    + pose proof (hidx_table_bounds h (positions h σ) F0 (Factor_init_wf _ _ _) Hpb) as Hb.
      change (f_scope F0) with new_scp in Hb. lia.
Qed.
End multiply_pair_facts.

Lemma value_at_good h f (σ : assignment) :
  good_factor h f → valid_on h σ (get_scope f) → value_at h f σ = Ok (value_of h f σ).
Proof. intros [_ Hwf] Hσ. unfold value_of. by rewrite value_at_valid. Qed.

Lemma multiply_pair_value (h : heap) (f1 f2 : Factor) :
  good_factor h f1 → good_factor h f2 →
  ∃ F, multiply_pair h f1 f2 = Ok F ∧ good_factor h F ∧
    (∀ v, v ∈ get_scope F ↔ v ∈ get_scope f1 ∨ v ∈ get_scope f2) ∧
    ∀ σ, value_of h F σ = (value_of h f1 σ * value_of h f2 σ)%Qc.
Proof.
  intros [Hnd1 Hwf1] [Hnd2 Hwf2].
  destruct (multiply_pair_correct h f1 f2 Hnd1 Hnd2 Hwf1 Hwf2) as (F & Hrun & Hsc & Hwf & Hval).
  exists F. split; [done|]. split_and!.
  - split; [|done]. rewrite Hsc. by apply new_scp_NoDup.
  - intros v. rewrite Hsc. apply new_scp_elem.
  - intros σ. destruct (decide (valid_on h σ (get_scope F))) as [Hσ|Hσ].
    + unfold value_of at 1. rewrite Hval; [done|by rewrite <- Hsc].
    + rewrite (value_of_invalid h F) by done.
      destruct (decide (valid_on h σ (get_scope f1))) as [Hσ1|Hσ1];
        [|rewrite (value_of_invalid h f1) by done; ring].
      destruct (decide (valid_on h σ (get_scope f2))) as [Hσ2|Hσ2];
        [|rewrite (value_of_invalid h f2) by done; ring].
      exfalso. apply Hσ. intros v Hv. rewrite Hsc in Hv.
      apply new_scp_elem in Hv as [Hv|Hv]; [by apply Hσ1|by apply Hσ2].
Qed.

Lemma multiply_loop_correct (h : heap) (below : list Factor) : ∀ factor1 : Factor,
  good_factor h factor1 → (∀ f, f ∈ below → good_factor h f) →
  ∃ F, multiply_loop h factor1 below = Ok F ∧ good_factor h F ∧
    (∀ v, v ∈ get_scope F ↔
          v ∈ get_scope factor1 ∨ ∃ f, f ∈ below ∧ v ∈ get_scope f) ∧
    ∀ σ, value_of h F σ
         = (value_of h factor1 σ * prodQ ((λ f, value_of h f σ) <$> below))%Qc.
Proof.
  induction below as [|factor2 below IH]; intros factor1 Hg1 Hbelow.
  - exists factor1. split; [done|]. split_and!; [done| |].
    + intros v. split; [by left|]. intros [?|(f & ?%elem_of_nil & _)]; done.
    + intros σ. simpl. ring.
  - cbn [multiply_loop].
    destruct (multiply_pair_value h factor1 factor2 Hg1) as (F12 & Hrun & Hg12 & Hsc12 & Hval12).
    { apply Hbelow. left. }
    rewrite Hrun. cbn [mbind Res_bind].
    destruct (IH F12 Hg12) as (F & HrunF & HgF & HscF & HvalF).
    { intros f Hf. apply Hbelow. by right. }
    exists F. split; [done|]. split_and!; [done| |].
    + intros v. rewrite HscF, Hsc12. split.
      * intros [[Hv|Hv]|(f & Hf & Hv)]; [by left|right..].
        -- exists factor2. split; [left|done].
        -- exists f. split; [by right|done].
      * intros [Hv|(f & [->|Hf]%elem_of_cons & Hv)]; [by left; left|by left; right|].
        right. by exists f.
    + intros σ. rewrite HvalF, Hval12. csimpl. ring.
Qed.

Lemma multiply_factors_correct (h : heap) (Factors : list Factor) :
  Factors ≠ [] → (∀ f, f ∈ Factors → good_factor h f) →
  ∃ F, multiply_factors h Factors = Ok F ∧ good_factor h F ∧
    (∀ v, v ∈ get_scope F ↔ ∃ f, f ∈ Factors ∧ v ∈ get_scope f) ∧
    ∀ σ, value_of h F σ = prodQ ((λ f, value_of h f σ) <$> Factors).
Proof.
  intros Hne Hgood. unfold multiply_factors.
  destruct (reverse Factors) as [|factor1 below] eqn:Hrev.
  { exfalso. apply Hne. apply (f_equal reverse) in Hrev.
    by rewrite reverse_involutive in Hrev. }
  assert (Hperm : factor1 :: below ≡ₚ Factors) by (rewrite <- Hrev; apply reverse_Permutation).
  destruct (multiply_loop_correct h below factor1) as (F & Hrun & HgF & HscF & HvalF).
  { apply Hgood. rewrite <- Hperm. left. }
  { intros f Hf. apply Hgood. rewrite <- Hperm. by right. }
  exists F. split; [done|]. split_and!; [done| |].
  - intros v. rewrite HscF. split.
    + intros [Hv|(f & Hf & Hv)].
      * exists factor1. split; [|done]. rewrite <- Hperm. left.
      * exists f. split; [|done]. rewrite <- Hperm. by right.
    + intros (f & Hf & Hv). rewrite <- Hperm in Hf.
      apply elem_of_cons in Hf as [->|Hf]; [by left|right; by exists f].
  - intros σ. rewrite HvalF.
    change (prodQ ((λ f, value_of h f σ) <$> (factor1 :: below))
            = prodQ ((λ f, value_of h f σ) <$> Factors)).
    apply prodQ_perm. by f_equiv.
Qed.

(** C3 (as the code has it).  On a non-empty list of factors with
    duplicate-free scopes (and tables of the size their constructor gave
    them), [multiply_factors] returns a factor whose scope is duplicate-free
    and holds exactly the variables of the input scopes; at every assignment
    to that scope, each input has a value and the result's value is the
    product of them. *)
Theorem multiply_factors_spec (h : heap) (Factors : list Factor) :
  Factors ≠ [] →
  (∀ f, f ∈ Factors → NoDup (get_scope f) ∧ wf_factor h f) →
  ∃ F, multiply_factors h Factors = Ok F ∧
    NoDup (get_scope F) ∧
    (∀ v, v ∈ get_scope F ↔ ∃ f, f ∈ Factors ∧ v ∈ get_scope f) ∧
    (∀ σ, valid_on h σ (get_scope F) →
       (∀ f, f ∈ Factors → value_at h f σ = Ok (value_of h f σ)) ∧
       value_at h F σ = Ok (prodQ ((λ f, value_of h f σ) <$> Factors))).
Proof.
  intros Hne Hgood.
  destruct (multiply_factors_correct h Factors Hne Hgood) as (F & Hrun & HgF & HscF & HvalF).
  exists F. split; [done|]. split_and!.
  - apply HgF.
  - done.
  - intros σ Hσ. split.
    + intros f Hf. apply value_at_good; [by apply Hgood|].
      intros v Hv. apply Hσ, HscF. by exists f.
    + by rewrite value_at_good, HvalF.
Qed.

(** The order of the list shows in the result.  With the float tables of the
    autograder's network, [[FE, FB, FS]] multiplies [(0.9 * 0.1) * 0.1] at
    [E = e], [B = b], [S = s], and [[FS, FB, FE]] multiplies
    [(0.1 * 0.1) * 0.9]: the two roundings differ. *)
Lemma multiply_factors_float_orders :
  (F ← Float64.multiply_factors ex_heap [FE64; FB64; FS64];
   Num.get_value ex_heap F [VStr "e"; VStr "b"; VStr "s"])
  = Ok 0.0090000000000000011%float ∧
  (F ← Float64.multiply_factors ex_heap [FS64; FB64; FE64];
   Num.get_value ex_heap F [VStr "s"; VStr "e"; VStr "b"])
  = Ok 0.0090000000000000028%float.
Proof. split; by vm_compute. Qed.

Lemma multiply_factors_spec_counterexample :
  ¬ ∃ F F' : Num.Factor float,
      Float64.multiply_factors ex_heap [FE64; FB64; FS64] = Ok F ∧
      Float64.multiply_factors ex_heap [FS64; FB64; FE64] = Ok F' ∧
      Num.get_value ex_heap F [VStr "e"; VStr "b"; VStr "s"]
      = Num.get_value ex_heap F' [VStr "s"; VStr "e"; VStr "b"].
Proof.
  intros (F & F' & HF & HF' & Heq).
  destruct multiply_factors_float_orders as [H1 H2].
  rewrite HF in H1. rewrite HF' in H2. cbn [mbind Res_bind] in H1, H2.
  rewrite H1, H2 in Heq.
  apply (f_equal (λ r, match r with Ok x => PrimFloat.eqb x 0.0090000000000000028 | _ => true end)) in Heq.
  by vm_compute in Heq.
Qed.

(** On exact tables the order of the list does not show in the values. *)
Lemma multiply_factors_exact_orders (h : heap) (Factors Factors' : list Factor) :
  Factors ≠ [] →
  (∀ f, f ∈ Factors → good_factor h f) →
  Factors' ≡ₚ Factors →
  ∃ F F', multiply_factors h Factors = Ok F ∧ multiply_factors h Factors' = Ok F' ∧
    ∀ σ, valid_on h σ (get_scope F) → value_at h F' σ = value_at h F σ.
Proof.
  intros Hne Hgood Hperm.
  destruct (multiply_factors_correct h Factors Hne Hgood) as (F & Hrun & HgF & HscF & HvalF).
  destruct (multiply_factors_correct h Factors') as (F' & Hrun' & HgF' & HscF' & HvalF').
  { intros ->. by apply Permutation_nil_l in Hperm. }
  { intros f Hf. apply Hgood. by rewrite <- Hperm. }
  exists F, F'. split_and!; [done..|]. intros σ Hσ.
  rewrite !value_at_good, HvalF, HvalF'; [|done|done|done|].
  + f_equal. apply prodQ_perm. by f_equiv.
  + intros v (f & Hf & Hv)%HscF'. apply Hσ, HscF. exists f. by rewrite <- Hperm.
Qed.

Lemma multiply_factors_spec_witness :
  ∃ F, multiply_factors ex_heap [FB; FE] = Ok F ∧ NoDup (get_scope F).
Proof.
  destruct (multiply_factors_spec ex_heap [FB; FE]) as (F & Hrun & Hnd & _).
  - done.
  - intros f Hf. repeat (apply elem_of_cons in Hf as [->|Hf]);
      [..|by apply elem_of_nil in Hf]; (split; [vm_compute; repeat constructor; set_solver|]);
      vm_compute; reflexivity.
  - exists F. split; [exact Hrun|exact Hnd].
Defined.

(** ** Sums over assignments *)

Lemma sumQ_zeros {A} (l : list A) : sumQ ((λ _, 0%Qc) <$> l) = 0%Qc.
Proof. induction l as [|x l IH]; csimpl; [done|]. rewrite IH. ring. Qed.

Lemma sumQ_add {A} (f g : A → Qc) (l : list A) :
  (sumQ (f <$> l) + sumQ (g <$> l))%Qc = sumQ ((λ x, f x + g x)%Qc <$> l).
Proof. induction l as [|x l IH]; csimpl; [ring|]. rewrite <- IH. ring. Qed.

Lemma sumQ_mult_l {A} (c : Qc) (f : A → Qc) (l : list A) :
  (c * sumQ (f <$> l))%Qc = sumQ ((λ x, c * f x)%Qc <$> l).
Proof. induction l as [|x l IH]; csimpl; [ring|]. rewrite <- IH. ring. Qed.

Lemma sumQ_swap {A B} (H : A → B → Qc) (l1 : list A) (l2 : list B) :
  sumQ ((λ a, sumQ ((λ b, H a b) <$> l2)) <$> l1)
  = sumQ ((λ b, sumQ ((λ a, H a b) <$> l1)) <$> l2).
Proof.
  induction l1 as [|a l1 IH]; csimpl.
  - by rewrite sumQ_zeros.
  - by rewrite IH, sumQ_add.
Qed.

Lemma sumQ_ext {A} (f g : A → Qc) (l : list A) :
  (∀ x, x ∈ l → f x = g x) → sumQ (f <$> l) = sumQ (g <$> l).
Proof.
  intros Hfg. f_equal. apply list_fmap_ext. intros i x Hx. apply Hfg.
  by eapply list_elem_of_lookup_2.
Qed.

Lemma sum_over_ext h vars (g g' : assignment → Qc) :
  (∀ σ, g σ = g' σ) → ∀ σ, sum_over h vars g σ = sum_over h vars g' σ.
Proof.
  intros Hg. induction vars as [|x vars IH]; intros σ; simpl; [done|].
  apply sumQ_ext. intros val _. apply IH.
Qed.

Lemma sum_over_app h vars1 vars2 (g : assignment → Qc) σ :
  sum_over h (vars1 ++ vars2) g σ = sum_over h vars1 (sum_over h vars2 g) σ.
Proof.
  revert σ. induction vars1 as [|x vars1 IH]; intros σ; simpl; [done|].
  apply sumQ_ext. intros val _. apply IH.
Qed.

Lemma sum_over_same_dom h h' vars (g : assignment → Qc) σ :
  same_dom h h' → sum_over h' vars g σ = sum_over h vars g σ.
Proof.
  intros Hdom. revert σ. induction vars as [|x vars IH]; intros σ; simpl; [done|].
  rewrite (domain_same h h' Hdom). apply sumQ_ext. intros val _. apply IH.
Qed.

Lemma sum_over_perm h vars vars' (g : assignment → Qc) :
  vars ≡ₚ vars' → ∀ σ, sum_over h vars g σ = sum_over h vars' g σ.
Proof.
  induction 1 as [|x l l' Hl IH|x y l|l1 l2 l3 H12 IH12 H23 IH23]; intros σ.
  - done.
  - simpl. apply sumQ_ext. intros val _. apply IH.
  - simpl. destruct (decide (x = y)) as [->|Hne]; [done|].
    rewrite (sumQ_swap (λ a b, sum_over h l g (<[x := b]> (<[y := a]> σ)))).
    apply sumQ_ext. intros b _. apply sumQ_ext. intros a _.
    by rewrite insert_insert_ne.
  - by rewrite IH12.
Qed.

(** ** Variable elimination *)

Lemma value_of_insert_notin h f (σ : assignment) var val :
  var ∉ get_scope f → value_of h f (<[var := val]> σ) = value_of h f σ.
Proof.
  intros Hvar. unfold value_of, value_at.
  replace ((λ v, <[var := val]> σ !!! v) <$> get_scope f)
    with ((λ v, σ !!! v) <$> get_scope f); [done|].
  apply list_fmap_ext. intros i v Hv%list_elem_of_lookup_2.
  rewrite lookup_total_insert_ne; [done|]. by intros ->.
Qed.

Lemma filter_ext_in {A} (P Q : A → Prop) `{∀ x, Decision (P x)} `{∀ x, Decision (Q x)}
    (l : list A) :
  (∀ x, x ∈ l → P x ↔ Q x) → filter P l = filter Q l.
Proof.
  induction l as [|x l IH]; intros HPQ; [done|].
  rewrite !filter_cons. rewrite IH by (intros y Hy; apply HPQ; by right).
  destruct (decide (P x)) as [HP|HP], (decide (Q x)) as [HQ|HQ]; try done.
  - exfalso. apply HQ, HPQ; [left|done].
  - exfalso. apply HP, HPQ; [left|done].
Qed.

Lemma sum_out_variable_value (h : heap) (f : Factor) (var : nat) :
  good_factor h f → var ∈ get_scope f →
  ∃ F h', sum_out_variable f var h = (Ok F, h') ∧
    same_dom h h' ∧ good_factor h' F ∧
    (∀ v, v ∈ get_scope F ↔ v ∈ get_scope f ∧ v ≠ var) ∧
    ∀ σ, value_of h' F σ
         = sumQ ((λ val, value_of h f (<[var := val]> σ)) <$> domain h var).
Proof.
  intros [Hnd Hwf] Hvar.
  destruct (sum_out_variable_correct h f var Hnd Hwf Hvar)
    as (F & h' & Hrun & Hsc & Hdom & HwfF & Hval).
  exists F, h'. split; [done|]. split_and!.
  - done.
  - split; [|done]. rewrite Hsc. by apply NoDup_filter.
  - intros v. rewrite Hsc, list_elem_of_filter. naive_solver.
  - intros σ. destruct (decide (valid_on h σ (get_scope F))) as [Hσ|Hσ].
    + unfold value_of at 1. by rewrite Hval.
    + rewrite (value_of_invalid h' F) by (by rewrite (valid_on_same h h' Hdom)).
      rewrite <- (sumQ_zeros (domain h var)). apply sumQ_ext. intros val Hv.
      symmetry. apply value_of_invalid. intros Hσ'. apply Hσ.
      intros v Hv'. rewrite Hsc in Hv'. apply list_elem_of_filter in Hv' as [Hne Hv'].
      specialize (Hσ' v Hv'). by rewrite lookup_total_insert_ne in Hσ'.
Qed.

Lemma joint_same_dom h h' Factors σ :
  same_dom h h' → joint h' Factors σ = joint h Factors σ.
Proof.
  intros Hdom. unfold joint. f_equal. apply list_fmap_ext. intros i f _.
  by apply value_of_same.
Qed.

Lemma joint_perm h Factors Factors' σ :
  Factors ≡ₚ Factors' → joint h Factors σ = joint h Factors' σ.
Proof. intros Hperm. unfold joint. apply prodQ_perm. by f_equiv. Qed.

Lemma joint_app h Factors1 Factors2 σ :
  joint h (Factors1 ++ Factors2) σ = (joint h Factors1 σ * joint h Factors2 σ)%Qc.
Proof. unfold joint. by rewrite fmap_app, prodQ_app. Qed.

Lemma joint_insert_notin h Factors (σ : assignment) var val :
  (∀ f, f ∈ Factors → var ∉ get_scope f) →
  joint h Factors (<[var := val]> σ) = joint h Factors σ.
Proof.
  intros Hvar. unfold joint. f_equal. apply list_fmap_ext.
  intros i f Hf%list_elem_of_lookup_2. by apply value_of_insert_notin, Hvar.
Qed.

Lemma good_factor_same h h' f : same_dom h h' → good_factor h f → good_factor h' f.
Proof. intros Hdom [Hnd Hwf]. split; [done|by apply (wf_factor_same h h')]. Qed.

Lemma VE_cagan31_correct (h : heap) (factors : list Factor) (var : nat) :
  (∀ f, f ∈ factors → good_factor h f) →
  (∃ f, f ∈ factors ∧ var ∈ get_scope f) →
  ∃ factors' h', VE_cagan31 factors var h = (Ok factors', h') ∧
    same_dom h h' ∧
    (∀ f, f ∈ factors' → good_factor h' f) ∧
    (∀ v, (∃ f, f ∈ factors' ∧ v ∈ get_scope f) ↔
          v ≠ var ∧ ∃ f, f ∈ factors ∧ v ∈ get_scope f) ∧
    ∀ σ, joint h' factors' σ
         = sumQ ((λ val, joint h factors (<[var := val]> σ)) <$> domain h var).
Proof.
  intros Hgood (f0 & Hf0 & Hvar0). unfold VE_cagan31.
  set (lst := filter (λ factor, var ∈ get_scope factor) factors).
  set (others := filter (λ factor, var ∉ get_scope factor) factors).
  assert (Hlst : ∀ f, f ∈ lst ↔ var ∈ get_scope f ∧ f ∈ factors)
    by (intros f; apply (list_elem_of_filter (λ factor, var ∈ get_scope factor))).
  assert (Hothers : ∀ f, f ∈ others ↔ (var ∉ get_scope f) ∧ f ∈ factors)
    by (intros f; apply (list_elem_of_filter (λ factor, var ∉ get_scope factor))).
  assert (filter (λ factor, factor ∉ lst) factors = others) as Hnew.
  { apply filter_ext_in. intros f Hf. rewrite Hlst. naive_solver. }
  assert (lst ≠ []) as Hne.
  { intros Hnil. assert (f0 ∈ lst) as Hin by (by apply Hlst). rewrite Hnil in Hin.
    by apply elem_of_nil in Hin. }
  destruct (multiply_factors_correct h lst Hne) as (M & HrunM & HgM & HscM & HvalM).
  { intros f [_ Hf]%Hlst. by apply Hgood. }
  destruct (sum_out_variable_value h M var HgM) as (S & h' & HrunS & Hdom & HgS & HscS & HvalS).
  { apply HscM. exists f0. split; [by apply Hlst|done]. }
  exists (others ++ [S]), h'.
  split.
  { destruct lst as [|l0 lst'] eqn:Elst; [done|].
    unfold bind at 1, get at 1. unfold bind at 1, lift at 1. rewrite HrunM.
    rewrite Hnew. unfold bind at 1. by rewrite HrunS. }
  split_and!.
  - done.
  - intros f [[_ Hf]%Hothers| ->%list_elem_of_singleton]%elem_of_app; [|done].
    by apply (good_factor_same h h'), Hgood.
  - intros v. split.
    + intros (f & [[Hnv Hf]%Hothers| ->%list_elem_of_singleton]%elem_of_app & Hv).
      * split; [by intros ->|]. by exists f.
      * apply HscS in Hv as [(f' & [_ Hf']%Hlst & Hv)%HscM Hnev]. split; [done|by exists f'].
    + intros (Hnev & f & Hf & Hv). destruct (decide (var ∈ get_scope f)) as [Hin|Hnin].
      * exists S. split; [apply elem_of_app; right; left|].
        apply HscS. split; [|done]. apply HscM. exists f. split; [by apply Hlst|done].
      * exists f. split; [|done]. apply elem_of_app. left. by apply Hothers.
  - intros σ. rewrite joint_app. unfold joint at 2. csimpl.
    rewrite HvalS, (joint_same_dom h h') by done.
    rewrite Qcmult_1_r, sumQ_mult_l. apply sumQ_ext. intros val _.
    rewrite HvalM. rewrite <- (joint_insert_notin h others σ var val)
      by (by intros f [? _]%Hothers).
    rewrite (joint_perm h factors (lst ++ others)), joint_app.
    + unfold joint. ring.
    + symmetry. apply filter_app_complement.
Qed.

Lemma VE_loop_correct (ordered : list nat) : ∀ (factors : list Factor) (h : heap),
  NoDup ordered →
  (∀ f, f ∈ factors → good_factor h f) →
  (∀ x, x ∈ ordered → ∃ f, f ∈ factors ∧ x ∈ get_scope f) →
  ∃ factors' h', foldM VE_cagan31 ordered factors h = (Ok factors', h') ∧
    same_dom h h' ∧
    (∀ f, f ∈ factors' → good_factor h' f) ∧
    (∀ v, (∃ f, f ∈ factors' ∧ v ∈ get_scope f) ↔
          (v ∉ ordered) ∧ ∃ f, f ∈ factors ∧ v ∈ get_scope f) ∧
    ∀ σ, joint h' factors' σ = sum_over h (reverse ordered) (joint h factors) σ.
Proof.
  induction ordered as [|x ordered IH]; intros factors h Hnd Hgood Hin.
  - exists factors, h. split_and!; [done|done|done| |done].
    intros v. split; [intros ?; split; [apply not_elem_of_nil|done]|by intros [_ ?]].
  - apply NoDup_cons in Hnd as [Hx Hnd].
    destruct (VE_cagan31_correct h factors x Hgood) as (factors1 & h1 & Hrun1 & Hdom1 & Hgood1 & Hsc1 & Hval1).
    { apply Hin. left. }
    destruct (IH factors1 h1 Hnd Hgood1) as (factors' & h' & Hrun & Hdom & Hgood' & Hsc & Hval).
    { intros y Hy. apply Hsc1. split; [by intros ->|]. apply Hin. by right. }
    exists factors', h'. split_and!.
    + cbn [foldM]. by rewrite (bind_ok _ _ _ _ _ Hrun1).
    + by eapply same_dom_trans.
    + done.
    + intros v. rewrite Hsc, Hsc1, not_elem_of_cons. naive_solver.
    + intros σ. rewrite Hval, reverse_cons, sum_over_app.
      rewrite (sum_over_same_dom h h1) by done.
      apply sum_over_ext. intros σ'. by rewrite Hval1.
Qed.

Lemma res_mapM_ok {A B} (f : A → Res B) (g : A → B) (l : list A) :
  (∀ x, x ∈ l → f x = Ok (g x)) → res_mapM f l = Ok (g <$> l).
Proof.
  induction l as [|x l IH]; intros Hfg; [done|].
  cbn [res_mapM]. rewrite Hfg by left. cbn [mbind Res_bind].
  change (res_mapM f l) with (res_mapM f l).
  rewrite IH by (intros y Hy; apply Hfg; by right). done.
Qed.

Lemma NoDup_only (l : list nat) (q : nat) :
  NoDup l → (∀ v, v ∈ l ↔ v = q) → l = [q].
Proof.
  intros Hnd Hl. destruct l as [|a l].
  - exfalso. eapply elem_of_nil, Hl. done.
  - assert (a = q) as -> by (apply Hl; left).
    destruct l as [|b l]; [done|]. exfalso.
    apply NoDup_cons in Hnd as [Hq _]. apply Hq.
    assert (b = q) as -> by (apply Hl; right; left). left.
Qed.

Lemma other_variables_elem (Factors : list Factor) (QueryVar v : nat) :
  v ∈ other_variables Factors QueryVar ↔
  v ≠ QueryVar ∧ ∃ f, f ∈ Factors ∧ v ∈ get_scope f.
Proof. unfold other_variables. by rewrite firsts_elem, list_elem_of_filter, scan_elem. Qed.

Lemma read_query_factor (h : heap) (last : Factor) (QueryVar : nat) :
  good_factor h last → get_scope last = [QueryVar] →
  res_mapM (λ dom, get_value h last [dom]) (domain h QueryVar)
  = Ok ((λ q, value_of h last (<[QueryVar := q]> ∅)) <$> domain h QueryVar).
Proof.
  intros HgL HscQ. apply res_mapM_ok. intros q Hq.
  pose proof (value_at_good h last (<[QueryVar := q]> ∅) HgL) as Hv.
  unfold value_at in Hv. rewrite HscQ in Hv. cbn [fmap list_fmap] in Hv.
  rewrite lookup_total_insert_eq in Hv. apply Hv.
  intros v ->%list_elem_of_singleton. by rewrite lookup_total_insert_eq.
Qed.

Lemma VE_no_evidence_correct (h : heap) (Net : BN) (QueryVar : nat) :
  (∀ f, f ∈ factors Net → good_factor h f) →
  (∃ f, f ∈ factors Net ∧ QueryVar ∈ get_scope f) →
  ∃ h', VE Net QueryVar [] h = (Ok (brute_force h Net QueryVar), h').
Proof.
  intros Hgood HQ. unfold VE. cbn [foldM]. unfold bind at 1, ret at 1.
  set (ordered := min_fill_ordering (factors Net) QueryVar).
  pose proof (min_fill_ordering_perm (factors Net) QueryVar) as Hperm. fold ordered in Hperm.
  assert (Hord : ∀ v, v ∈ ordered ↔ v ≠ QueryVar ∧ ∃ f, f ∈ factors Net ∧ v ∈ get_scope f).
  { intros v. by rewrite Hperm, other_variables_elem. }
  destruct (VE_loop_correct ordered (factors Net) h)
    as (factors' & h' & Hrun & Hdom & Hgood' & Hsc & Hval).
  { rewrite Hperm. apply firsts_NoDup. }
  { done. }
  { intros x Hx. by apply Hord. }
  rewrite (bind_ok _ _ _ _ _ Hrun). unfold bind at 1, get at 1.
  destruct (multiply_factors_correct h' factors') as (last & HrunL & HgL & HscL & HvalL).
  { intros ->. destruct HQ as (f & Hf & Hq).
    assert (∃ f, f ∈ @nil Factor ∧ QueryVar ∈ get_scope f) as (? & ?%elem_of_nil & _); [|done].
    apply Hsc. split; [|by exists f]. rewrite Hord. naive_solver. }
  { done. }
  unfold bind at 1, lift at 1. rewrite HrunL.
  assert (get_scope last = [QueryVar]) as HscQ.
  { apply NoDup_only; [apply HgL|]. intros v. rewrite HscL, Hsc, Hord. split.
    - intros [Hnot Hex]. destruct (decide (v = QueryVar)); [done|]. exfalso. by apply Hnot.
    - intros ->. split; [naive_solver|done]. }
  unfold bind at 1, lift at 1. rewrite (read_query_factor h' last QueryVar HgL HscQ).
  exists h'. unfold ret, brute_force. do 3 f_equal.
  rewrite (domain_same h h' Hdom). apply list_fmap_ext. intros i q _.
  rewrite HvalL. change (prodQ _) with (joint h' factors' (<[QueryVar := q]> ∅)).
  rewrite Hval. apply sum_over_perm.
  by rewrite reverse_Permutation.
Qed.


Lemma sum_out_loop_correct (vars : list nat) : ∀ (F : Factor) (h : heap),
  NoDup vars → good_factor h F → (∀ v, v ∈ vars → v ∈ get_scope F) →
  ∃ F' h', foldM sum_out_variable vars F h = (Ok F', h') ∧
    same_dom h h' ∧ good_factor h' F' ∧
    (∀ v, v ∈ get_scope F' ↔ v ∈ get_scope F ∧ v ∉ vars) ∧
    ∀ σ, value_of h' F' σ = sum_over h (reverse vars) (value_of h F) σ.
Proof.
  induction vars as [|x vars IH]; intros F h Hnd Hg Hin.
  - exists F, h. split_and!; [done|done|done| |done].
    intros v. split; [intros ?; split; [done|apply not_elem_of_nil]|by intros [? _]].
  - apply NoDup_cons in Hnd as [Hx Hnd].
    destruct (sum_out_variable_value h F x Hg) as (F1 & h1 & Hrun1 & Hdom1 & Hg1 & Hsc1 & Hval1).
    { apply Hin. left. }
    destruct (IH F1 h1 Hnd Hg1) as (F' & h' & Hrun & Hdom & Hg' & Hsc & Hval).
    { intros v Hv. apply Hsc1. split; [apply Hin; by right|by intros ->]. }
    exists F', h'. split_and!.
    + cbn [foldM]. by rewrite (bind_ok _ _ _ _ _ Hrun1).
    + by eapply same_dom_trans.
    + done.
    + intros v. rewrite Hsc, Hsc1, not_elem_of_cons. naive_solver.
    + intros σ. rewrite Hval, reverse_cons, sum_over_app.
      rewrite (sum_over_same_dom h h1) by done.
      apply sum_over_ext. intros σ'. by rewrite Hval1.
Qed.

Lemma brute_force_run_correct (h : heap) (Net : BN) (QueryVar : nat) :
  (∀ f, f ∈ factors Net → good_factor h f) →
  (∃ f, f ∈ factors Net ∧ QueryVar ∈ get_scope f) →
  ∃ h', brute_force_run Net QueryVar h = (Ok (brute_force h Net QueryVar), h').
Proof.
  intros Hgood HQ. unfold brute_force_run. unfold bind at 1, get at 1.
  destruct (multiply_factors_correct h (factors Net)) as (P & HrunP & HgP & HscP & HvalP).
  { intros Hnil. destruct HQ as (f & Hf & _). rewrite Hnil in Hf. by apply elem_of_nil in Hf. }
  { done. }
  unfold bind at 1, lift at 1. rewrite HrunP.
  set (vars := filter (λ v, v ≠ QueryVar) (get_scope P)).
  destruct (sum_out_loop_correct vars P h) as (S & h' & Hrun & Hdom & HgS & HscS & HvalS).
  { apply NoDup_filter, HgP. }
  { done. }
  { by intros v [_ ?]%list_elem_of_filter. }
  rewrite (bind_ok _ _ _ _ _ Hrun). unfold bind at 1, get at 1.
  assert (get_scope S = [QueryVar]) as HscQ.
  { apply NoDup_only; [apply HgS|]. intros v. rewrite HscS. unfold vars.
    rewrite list_elem_of_filter. split.
    - intros [Hv Hnot]. destruct (decide (v = QueryVar)); [done|]. exfalso. by apply Hnot.
    - intros ->. split; [by apply HscP|]. by intros [? _]. }
  unfold bind at 1, lift at 1. rewrite (read_query_factor h' S QueryVar HgS HscQ).
  exists h'. unfold ret, brute_force. do 3 f_equal.
  rewrite (domain_same h h' Hdom). apply list_fmap_ext. intros i q _.
  rewrite HvalS. rewrite (sum_over_ext h _ _ (joint h (factors Net)) HvalP).
  apply sum_over_perm. rewrite reverse_Permutation.
  apply NoDup_Permutation; [apply NoDup_filter, HgP|apply firsts_NoDup|].
  intros v. rewrite other_variables_elem. unfold vars.
  rewrite list_elem_of_filter, HscP. done.
Qed.

(** ** The exact model is [Num] at the rationals

    The operations of the exact model and those of [Num], instantiated with
    the rationals, compute the same results and leave the same store. *)

Section sim.
Context {S S' : Type} (φ : S → S').

Lemma sim_ret {A A'} (g : A → A') (a : A) : sim φ g (ret a) (ret (g a)).
Proof. done. Qed.

Lemma sim_lift {A A'} (g : A → A') (r : Res A) (r' : Res A') :
  r' = res_map g r → sim φ g (lift r) (lift r').
Proof. by intros -> s. Qed.

Lemma sim_lift_id {A} (r : Res A) : sim φ id (lift r) (lift r).
Proof. intros s. by destruct r. Qed.

Lemma sim_get : sim φ φ get get.
Proof. done. Qed.

Lemma sim_bind {A A' B B'} (g : A → A') (g2 : B → B') m m' k k' :
  sim φ g m m' → (∀ a, sim φ g2 (k a) (k' (g a))) → sim φ g2 (bind m k) (bind m' k').
Proof.
  intros Hm Hk s. unfold bind. rewrite Hm.
  destruct (m s) as [[a|e] s1]; cbn; [apply Hk|done].
Qed.

Lemma sim_for_ {A} (body : A → M S unit) (body' : A → M S' unit) (l : list A) :
  (∀ a, sim φ id (body a) (body' a)) → sim φ id (for_ body l) (for_ body' l).
Proof.
  intros Hb. induction l as [|a l IH]; [done|]. cbn [for_].
  eapply sim_bind; [apply Hb|]. intros _. apply IH.
Qed.

Lemma sim_foldM {A B B'} (g : B → B') (body : B → A → M S B) (body' : B' → A → M S' B')
    (l : list A) :
  (∀ b a, sim φ g (body b a) (body' (g b) a)) →
  ∀ b, sim φ g (foldM body l b) (foldM body' l (g b)).
Proof.
  intros Hb. induction l as [|a l IH]; intros b; [done|]. cbn [foldM].
  eapply sim_bind; [apply Hb|]. intros b1. apply IH.
Qed.

Lemma sim_mapM_ {A A' B B'} (f : A → A') (g : B → B') (body : A → M S B) (body' : A' → M S' B')
    (l : list A) :
  (∀ a, sim φ g (body a) (body' (f a))) →
  sim φ (fmap g) (mapM_ body l) (mapM_ body' (f <$> l)).
Proof.
  intros Hb. induction l as [|a l IH]; [done|]. cbn [mapM_ fmap list_fmap].
  eapply sim_bind; [apply Hb|]. intros b.
  eapply sim_bind; [apply IH|]. intros bs. by intros s.
Qed.
End sim.

Lemma res_foldM_map {A B B'} (g : B → B') (body : B → A → Res B) (body' : B' → A → Res B')
    (l : list A) :
  (∀ b a, body' (g b) a = res_map g (body b a)) →
  ∀ b, res_foldM body' l (g b) = res_map g (res_foldM body l b).
Proof.
  intros Hb. induction l as [|a l IH]; intros b; [done|]. cbn [res_foldM].
  rewrite Hb. destruct (body b a) as [b1|e]; cbn; [apply IH|done].
Qed.

Lemma to_num_add_values_row h F t :
  Num.add_values_row h (to_num F) t = res_map to_num (add_values_row h F t).
Proof.
  unfold Num.add_values_row, add_values_row. cbn [to_num Num.f_scope Num.f_values Num.f_name].
  destruct (row_index h (f_scope F) t.1 0) as [[index rest]|e]; cbn; [|done].
  destruct rest; [|done]. by destruct (py_setitem (f_values F) index t.2).
Qed.

Lemma to_num_add_values h rows : ∀ F,
  Num.add_values h (to_num F) rows = res_map to_num (add_values h F rows).
Proof.
  induction rows as [|t rows IH]; intros F; [done|]. cbn [Num.add_values add_values].
  rewrite to_num_add_values_row. destruct (add_values_row h F t) as [F'|e]; cbn; [apply IH|done].
Qed.

Lemma to_num_multiply_pair h f1 f2 :
  Num.multiply_pair 0%Qc Qcmult h (to_num f1) (to_num f2)
  = res_map to_num (multiply_pair h f1 f2).
Proof.
  unfold Num.multiply_pair, multiply_pair.
  change (Num.get_scope (to_num f1)) with (get_scope f1).
  change (Num.get_scope (to_num f2)) with (get_scope f2).
  change (Num.Factor_init 0%Qc h "Factor" ?scp) with (to_num (Factor_init h "Factor" scp)).
  apply (res_foldM_map to_num). intros F comb.
  destruct (res_mapM _ (get_scope f1)) as [comb1|e]; cbn [mbind Res_bind]; [|done].
  destruct (res_mapM _ (get_scope f2)) as [comb2|e]; cbn [mbind Res_bind]; [|done].
  change (Num.get_value h (to_num f1) comb1) with (get_value h f1 comb1).
  change (Num.get_value h (to_num f2) comb2) with (get_value h f2 comb2).
  destruct (get_value h f1 comb1) as [x1|e]; cbn [mbind Res_bind]; [|done].
  destruct (get_value h f2 comb2) as [x2|e]; cbn [mbind Res_bind]; [|done].
  apply to_num_add_values.
Qed.

Lemma to_num_multiply_loop h below : ∀ f1,
  Num.multiply_loop 0%Qc Qcmult h (to_num f1) (to_num <$> below)
  = res_map to_num (multiply_loop h f1 below).
Proof.
  induction below as [|f2 below IH]; intros f1; [done|].
  cbn [Num.multiply_loop multiply_loop fmap list_fmap].
  rewrite to_num_multiply_pair. destruct (multiply_pair h f1 f2) as [F|e]; cbn; [apply IH|done].
Qed.

Lemma to_num_multiply_factors h Factors :
  Num.multiply_factors 0%Qc Qcmult h (to_num <$> Factors)
  = res_map to_num (multiply_factors h Factors).
Proof.
  unfold Num.multiply_factors, multiply_factors. rewrite <- fmap_reverse.
  destruct (reverse Factors) as [|f1 below]; [done|]. apply to_num_multiply_loop.
Qed.

Lemma sim_refl {S A} (m : M S A) : sim id id m m.
Proof. intros s. unfold id. by destruct (m s) as [[a|e] s']. Qed.

Lemma sim_on_heap {A} (m : M heap A) : sim to_num_state id (on_heap m) (on_store m).
Proof. intros [h F]. unfold on_heap, on_store. cbn. by destruct (m h) as [[a|e] h']. Qed.

Lemma sim_F_add_value (number : Qc) :
  sim to_num_state id (F_add_value_at_current_assignment number)
    (Num.F_add_value_at_current_assignment number).
Proof.
  intros [h F]. unfold F_add_value_at_current_assignment, Num.F_add_value_at_current_assignment.
  unfold bind, get, lift, put, add_value_at_current_assignment,
    Num.add_value_at_current_assignment.
  cbn [fst snd to_num_state to_num Num.f_values Num.f_scope Num.f_name].
  by destruct (py_setitem _ _ _).
Qed.

Lemma sim_get_state {A A'} (g : A → A') (k : heap * Factor → M (heap * Factor) A)
    (k' : heap * Num.Factor Qc → M (heap * Num.Factor Qc) A') :
  (∀ s, sim to_num_state g (k s) (k' (to_num_state s))) →
  sim to_num_state g (bind get k) (bind get k').
Proof. intros Hk. eapply sim_bind; [apply sim_get|done]. Qed.

Lemma sim_recursive_restrict_factor (f : Factor) (var : nat) (Vars : list nat) :
  sim to_num_state id (recursive_restrict_factor f var Vars)
    (Num.recursive_restrict_factor (to_num f) var Vars).
Proof.
  induction Vars as [|v0 Vars IH]; cbn [recursive_restrict_factor Num.recursive_restrict_factor].
  - apply sim_get_state. intros s.
    eapply (sim_bind _ id); [apply sim_lift_id|].
    intros x. apply sim_F_add_value.
  - case_decide; [|done]. apply sim_get_state. intros s. apply sim_for_. intros val.
    eapply (sim_bind _ id); [apply sim_on_heap|]. by intros _.
Qed.

Lemma sim_recursive_eliminate_variable (f : Factor) (var : nat) (Vars : list nat) :
  sim to_num_state id (recursive_eliminate_variable f var Vars)
    (Num.recursive_eliminate_variable 0%Qc Qcplus (to_num f) var Vars).
Proof.
  induction Vars as [|v0 Vars IH];
    cbn [recursive_eliminate_variable Num.recursive_eliminate_variable].
  - apply sim_get_state. intros s.
    eapply (sim_bind _ id); [|intros x; apply sim_F_add_value].
    apply (sim_foldM to_num_state id). intros summ val.
    eapply (sim_bind _ id); [apply sim_on_heap|]. intros _.
    apply sim_get_state. intros s'.
    eapply (sim_bind _ id); [apply sim_lift_id|].
    by intros x.
  - apply sim_get_state. intros s. apply sim_for_. intros val.
    eapply (sim_bind _ id); [apply sim_on_heap|]. by intros _.
Qed.

Lemma sim_building (F : Factor) m m' :
  sim to_num_state id m m' → sim id to_num (building F m) (Num.building (to_num F) m').
Proof.
  intros Hm h. specialize (Hm (h, F)). unfold to_num_state in Hm. cbn [fst snd] in Hm.
  unfold building, Num.building, id. rewrite Hm.
  by destruct (m (h, F)) as [[[]|e] [h' F']].
Qed.

Lemma sim_restrict_factor (f : Factor) (var : nat) (value : pyval) :
  sim id to_num (restrict_factor f var value) (Num.restrict_factor 0%Qc (to_num f) var value).
Proof.
  unfold restrict_factor, Num.restrict_factor.
  eapply (sim_bind _ id); [apply sim_lift_id|]. intros scope.
  eapply (sim_bind _ id); [apply sim_get|]. intros h.
  eapply (sim_bind _ id); [apply sim_refl|]. intros _.
  apply sim_building, sim_recursive_restrict_factor.
Qed.

Lemma sim_sum_out_variable (f : Factor) (var : nat) :
  sim id to_num (sum_out_variable f var) (Num.sum_out_variable 0%Qc Qcplus (to_num f) var).
Proof.
  unfold sum_out_variable, Num.sum_out_variable.
  eapply (sim_bind _ id); [apply sim_lift_id|]. intros scope.
  eapply (sim_bind _ id); [apply sim_get|]. intros h.
  apply sim_building, sim_recursive_eliminate_variable.
Qed.

Lemma to_num_min_fill_ordering Factors QueryVar :
  Num.min_fill_ordering (to_num <$> Factors) QueryVar = min_fill_ordering Factors QueryVar.
Proof. unfold Num.min_fill_ordering, min_fill_ordering. by rewrite foldl_fmap. Qed.

Lemma to_num_filter_in (var : nat) (fs : list Factor) :
  filter (λ f, var ∈ Num.get_scope f) (to_num <$> fs)
  = to_num <$> filter (λ f, var ∈ get_scope f) fs.
Proof.
  induction fs as [|f fs IH]; [done|]. cbn [fmap list_fmap]. rewrite !filter_cons.
  change (Num.get_scope (to_num f)) with (get_scope f).
  case_decide; cbn [fmap list_fmap]; by rewrite IH.
Qed.

Lemma to_num_filter_notin (var : nat) (fs : list Factor) :
  filter (λ f, var ∉ Num.get_scope f) (to_num <$> fs)
  = to_num <$> filter (λ f, var ∉ get_scope f) fs.
Proof.
  induction fs as [|f fs IH]; [done|]. cbn [fmap list_fmap]. rewrite !filter_cons.
  change (Num.get_scope (to_num f)) with (get_scope f).
  case_decide; cbn [fmap list_fmap]; by rewrite IH.
Qed.

Lemma sim_VE_cagan31 (factors : list Factor) (var : nat) :
  sim id (fmap to_num) (VE_cagan31 factors var)
    (Num.VE_cagan31 0%Qc Qcplus Qcmult (to_num <$> factors) var).
Proof.
  unfold VE_cagan31, Num.VE_cagan31.
  rewrite to_num_filter_in.
  assert (filter (λ factor, factor ∉ filter (λ factor, var ∈ get_scope factor) factors) factors
          = filter (λ factor, var ∉ get_scope factor) factors) as Hnew.
  { apply filter_ext_in. intros f Hf. rewrite list_elem_of_filter. naive_solver. }
  destruct (filter (λ factor, var ∈ get_scope factor) factors) as [|l0 lst] eqn:E; [done|].
  cbn [fmap list_fmap].
  eapply (sim_bind _ id); [apply sim_get|]. intros h.
  eapply (sim_bind _ to_num); [apply sim_lift; apply (to_num_multiply_factors h (l0 :: lst))|].
  intros M.
  eapply (sim_bind _ to_num); [apply sim_sum_out_variable|]. intros S.
  intros s. unfold ret. cbn [fst snd res_map mbind Res_bind].
  by rewrite Hnew, to_num_filter_notin, fmap_app.
Qed.

Lemma sim_VE (Net : BN) (QueryVar : nat) (EvidenceVars : list nat) :
  sim id id (VE Net QueryVar EvidenceVars)
    (Num.VE 0%Qc Qcplus Qcmult Qcdiv Qc_is_zero (to_num_net Net) QueryVar EvidenceVars).
Proof.
  unfold VE, Num.VE.
  eapply (sim_bind _ (fmap to_num)).
  { apply (sim_foldM id (fmap to_num)). intros fs ev.
    apply (sim_mapM_ id to_num to_num). intros f.
    change (Num.get_scope (to_num f)) with (get_scope f).
    case_decide; [|done].
    eapply (sim_bind _ id); [apply sim_get|]. intros h.
    eapply (sim_bind _ id); [apply sim_lift_id|]. intros value.
    apply sim_restrict_factor. }
  intros fs. rewrite to_num_min_fill_ordering.
  eapply (sim_bind _ (fmap to_num)).
  { apply (sim_foldM id (fmap to_num)). intros fs' var. apply sim_VE_cagan31. }
  intros fs'.
  eapply (sim_bind _ id); [apply sim_get|]. intros h.
  eapply (sim_bind _ to_num); [apply sim_lift; apply to_num_multiply_factors|]. intros last.
  eapply (sim_bind _ id); [apply sim_lift_id|]. intros probabilities.
  intros s. unfold ret. cbn [fst snd res_map mbind Res_bind id]. by rewrite normalize_Num.
Qed.

Lemma sim_brute_force_run (Net : BN) (QueryVar : nat) :
  sim id id (brute_force_run Net QueryVar)
    (Num.brute_force_run 0%Qc Qcplus Qcmult Qcdiv Qc_is_zero (to_num_net Net) QueryVar).
Proof.
  unfold brute_force_run, Num.brute_force_run.
  eapply (sim_bind _ id); [apply sim_get|]. intros h.
  eapply (sim_bind _ to_num); [apply sim_lift; apply to_num_multiply_factors|]. intros P.
  eapply (sim_bind _ to_num).
  { apply (sim_foldM id to_num). intros F var. apply sim_sum_out_variable. }
  intros summed.
  eapply (sim_bind _ id); [apply sim_get|]. intros h'.
  eapply (sim_bind _ id); [apply sim_lift_id|]. intros values.
  intros s. unfold ret. cbn [fst snd res_map mbind Res_bind id]. by rewrite normalize_Num.
Qed.

Lemma res_map_id {A} (r : Res A) : res_map id r = r.
Proof. by destruct r. Qed.

Lemma VE_Num (Net : BN) (QueryVar : nat) (EvidenceVars : list nat) (h : heap) :
  Num.VE 0%Qc Qcplus Qcmult Qcdiv Qc_is_zero (to_num_net Net) QueryVar EvidenceVars h
  = VE Net QueryVar EvidenceVars h.
Proof.
  pose proof (sim_VE Net QueryVar EvidenceVars h) as H. unfold id in H.
  rewrite H, res_map_id. by destruct (VE Net QueryVar EvidenceVars h).
Qed.

Lemma brute_force_run_Num (Net : BN) (QueryVar : nat) (h : heap) :
  Num.brute_force_run 0%Qc Qcplus Qcmult Qcdiv Qc_is_zero (to_num_net Net) QueryVar h
  = brute_force_run Net QueryVar h.
Proof.
  pose proof (sim_brute_force_run Net QueryVar h) as H. unfold id in H.
  rewrite H, res_map_id. by destruct (brute_force_run Net QueryVar h).
Qed.

(** The normalization of the code on the weights is the division by their
    total written out in [reference_distribution]. *)
Lemma brute_force_reference (h : heap) (Net : BN) (QueryVar : nat) :
  brute_force h Net QueryVar = reference_distribution h Net QueryVar.
Proof.
  unfold brute_force, reference_distribution, normalize.
  fold (marginal_weights h Net QueryVar). rewrite py_sum_sumQ.
  case_decide; [|done].
  symmetry. by apply const_fmap.
Qed.

(** C1 (as the code has it).  On a network whose factors have duplicate-free
    scopes (and tables of the size their constructor gave them) and a query
    variable that occurs in some scope, [VE] with no evidence returns without
    raising, and on tables of exact numbers its list is the brute-force
    marginal: the weight of each value of the query domain, in order, is the
    product of all factors with every other variable summed out, and each
    weight is divided by the total of the weights (or is 0 when the total is
    0).  The same list is what the brute-force computation returns when it is
    carried out with [multiply_factors], [sum_out_variable], [get_value] and
    [normalize].  The exact [VE] and brute force are the operations of [Num]
    taken at the rationals, of which the statement is made as well. *)
Theorem VE_marginal_consistency (h : heap) (Net : BN) (QueryVar : nat) :
  (∀ f, f ∈ factors Net → NoDup (get_scope f) ∧ wf_factor h f) →
  (∃ f, f ∈ factors Net ∧ QueryVar ∈ get_scope f) →
  ∃ reference,
    reference = reference_distribution h Net QueryVar ∧
    length reference = length (domain h QueryVar) ∧
    (∃ h', VE Net QueryVar [] h = (Ok reference, h')) ∧
    (∃ h', brute_force_run Net QueryVar h = (Ok reference, h')) ∧
    (∃ h', Num.VE 0%Qc Qcplus Qcmult Qcdiv Qc_is_zero (to_num_net Net) QueryVar [] h
           = (Ok reference, h')) ∧
    (∃ h', Num.brute_force_run 0%Qc Qcplus Qcmult Qcdiv Qc_is_zero (to_num_net Net)
             QueryVar h
           = (Ok reference, h')).
Proof.
  intros Hgood HQ. exists (reference_distribution h Net QueryVar).
  rewrite VE_Num, brute_force_run_Num. split_and!.
  - done.
  - unfold reference_distribution, marginal_weights. by rewrite !length_fmap.
  - rewrite <- brute_force_reference. by apply VE_no_evidence_correct.
  - rewrite <- brute_force_reference. by apply brute_force_run_correct.
  - rewrite <- brute_force_reference. by apply VE_no_evidence_correct.
  - rewrite <- brute_force_reference. by apply brute_force_run_correct.
Qed.

Lemma VE_marginal_consistency_witness :
  ∃ reference,
    reference = reference_distribution ex_heap ExampleBN vG ∧
    length reference = length (domain ex_heap vG) ∧
    (∃ h', VE ExampleBN vG [] ex_heap = (Ok reference, h')) ∧
    (∃ h', brute_force_run ExampleBN vG ex_heap = (Ok reference, h')) ∧
    (∃ h', Num.VE 0%Qc Qcplus Qcmult Qcdiv Qc_is_zero (to_num_net ExampleBN) vG [] ex_heap
           = (Ok reference, h')) ∧
    (∃ h', Num.brute_force_run 0%Qc Qcplus Qcmult Qcdiv Qc_is_zero (to_num_net ExampleBN)
             vG ex_heap
           = (Ok reference, h')).
Proof.
  apply (VE_marginal_consistency ex_heap ExampleBN vG).
  - intros f Hf. repeat (apply elem_of_cons in Hf as [->|Hf]);
      [..|by apply elem_of_nil in Hf]; (split; [vm_compute; repeat constructor; set_solver|]);
      vm_compute; reflexivity.
  - exists FG. split; [|vm_compute; set_solver].
    unfold ExampleBN, factors. simpl. set_solver.
Defined.

(** With float tables the two computations round in different places.  On
    the autograder's network they differ in the last bits. *)
Lemma VE_float_rounding :
  (Float64.VE ExampleBN64 vG [] ex_heap).1
  = Ok [0.049500000000000009; 0.95050000000000001]%float ∧
  (Float64.brute_force_run ExampleBN64 vG ex_heap).1
  = Ok [0.049500000000000002; 0.9504999999999999]%float.
Proof. split; by vm_compute. Qed.

(** On [UnderflowNet] they differ altogether.  [VE] eliminates [X] first: it
    multiplies the two tiny tables on [X], and [1e-200 * 1e-200] underflows
    to [0.0]; the weights of [Q] are [0.0], and [normalize] returns zeros.
    The brute force multiplies from the end of the list, [T'(X)] by [H(Q)]
    first, and stays in range: it returns the uniform distribution. *)
Lemma VE_float_underflow :
  (Float64.VE UnderflowNet vQ [] qx_heap).1 = Ok [0; 0]%float ∧
  (Float64.brute_force_run UnderflowNet vQ qx_heap).1 = Ok [0.5; 0.5]%float.
Proof. split; by vm_compute. Qed.

Lemma VE_marginal_consistency_counterexample :
  ¬ ∃ (reference : list float) h1 h2,
      Float64.VE UnderflowNet vQ [] qx_heap = (Ok reference, h1) ∧
      Float64.brute_force_run UnderflowNet vQ qx_heap = (Ok reference, h2).
Proof.
  intros (reference & h1 & h2 & HVE & Hrun).
  destruct VE_float_underflow as [H1 H2].
  rewrite HVE in H1. rewrite Hrun in H2. cbn [fst] in H1, H2.
  rewrite H1 in H2.
  apply (f_equal (λ r, match r with
                       | Ok (x :: _) => PrimFloat.eqb x 0.5
                       | _ => true
                       end)) in H2.
  by vm_compute in H2.
Qed.

(** The same network with exact tables: both computations return the
    uniform distribution. *)
Lemma VE_exact_no_underflow :
  (VE UnderflowNet_exact vQ [] qx_heap).1 = Ok [qc 1 2; qc 1 2] ∧
  (brute_force_run UnderflowNet_exact vQ qx_heap).1 = Ok [qc 1 2; qc 1 2].
Proof.
  split; vm_compute;
    repeat first
      [ reflexivity
      | apply Qc_is_canon; reflexivity
      | apply (f_equal2 (@cons Qc))
      | apply (f_equal (@Ok (list Qc))) ].
Qed.

(** ** Likelihood-weighted sampling *)

Ltac qc_eq :=
  vm_compute;
  repeat first
    [ reflexivity
    | apply Qc_is_canon; reflexivity
    | apply (f_equal2 (@cons Qc))
    | apply (f_equal (@Ok (list Qc))) ].

(** The bucket that a round adds to is [weights[i]] for the value the local
    [i] has at that point; the position of the query's value is not
    consulted. *)
Lemma accumulate_bucket (h : heap) (QueryVar : nat) (s s' : Sampler)
    (dct : gmap string pyval) (curr_weight : Qc) (query : pyval) :
  dct !! v_name (obj h QueryVar) = Some query →
  truthy query = true → query ∈ domain h QueryVar →
  accumulate h QueryVar s dct curr_weight = Ok s' →
  ∃ w, py_getitem (weights s) (loop_i s) = Ok w ∧
       py_setitem (weights s) (loop_i s) (w + curr_weight)%Qc = Ok (weights s') ∧
       total s' = (total s + curr_weight)%Qc.
Proof.
  intros Hq Ht Hin. unfold accumulate. rewrite Hq. simpl. rewrite Ht.
  rewrite decide_True by done.
  destruct (py_getitem (weights s) (loop_i s)) as [w|e]; simpl; [|done].
  destruct (py_setitem (weights s) (loop_i s) (w + curr_weight)%Qc) as [ws|e] eqn:Hset;
    simpl; [|done].
  intros [= <-]. by exists w.
Qed.

(** The final division is not guarded: with a running total of zero and a
    non-empty query domain it raises. *)
Lemma SampleBN_rounds_zero_total (random : nat → Qc) (h : heap) (Net : BN)
    (QueryVar : nat) (EvidenceVars : list nat) (rounds : nat) (s : Sampler) :
  res_foldM (sample_round random h Net QueryVar EvidenceVars) (Z.of_nat <$> seq 0 rounds)
    (mkSampler (replicate (length (domain h QueryVar)) 0%Qc) 0%Qc 0 None 0%nat) = Ok s →
  total s = 0%Qc → weights s ≠ [] →
  SampleBN_rounds random h Net QueryVar EvidenceVars rounds = Raise ZeroDivisionError.
Proof.
  intros Hrun Htot Hw. unfold SampleBN_rounds. rewrite Hrun. cbn [mbind Res_bind].
  rewrite Htot. destruct (weights s) as [|w ws]; [done|]. cbn [res_mapM].
  assert (py_div w 0%Qc = Raise ZeroDivisionError) as ->; [|done].
  unfold py_div. by case_decide.
Qed.

(** On [QXNet] the outcome does not depend on the draws: for every source
    of random numbers in (0, 1], each round gives [Q] the value [a] and adds
    its weight to bucket 1. *)
Lemma sample_variable_Q (random : nat → Qc) (ws : list Qc) (t : Qc) (i : Z)
    (cf : option Factor) (d : nat) :
  (random d ≤ 1)%Qc →
  sample_variable random qx_heap QXNet [] (mkSampler ws t i cf d, ∅) vQ
  = Ok (mkSampler ws t 0 (Some FQ) (S d), {[ "Q"%string := VStr "a" ]}).
Proof.
  intros Hr. unfold sample_variable.
  rewrite decide_True by apply not_elem_of_nil.
  change (list_find _ (factors QXNet)) with (Some (0%nat, FQ)).
  cbn [curr_factor weights total draws loop_i].
  assert (conditional_probs qx_heap ∅ FQ vQ = Ok [1%Qc; 0%Qc]) as -> by qc_eq.
  cbn [mbind Res_bind choose_loop].
  rewrite decide_True by (by rewrite Qcplus_0_l).
  change (py_getitem (domain qx_heap vQ) 0) with (Ok (VStr "a")).
  cbn [mbind Res_bind]. done.
Qed.

Lemma sample_variable_X (random : nat → Qc) (ws : list Qc) (t : Qc) (i : Z)
    (cf : option Factor) (d : nat) :
  (0 < random d)%Qc → (random d ≤ 1)%Qc →
  sample_variable random qx_heap QXNet []
    (mkSampler ws t i cf d, {[ "Q"%string := VStr "a" ]}) vX
  = Ok (mkSampler ws t 1 (Some FX) (S d),
        <["X"%string := VStr "d"]> {[ "Q"%string := VStr "a" ]}).
Proof.
  intros Hpos Hr. unfold sample_variable.
  rewrite decide_True by apply not_elem_of_nil.
  change (list_find _ (factors QXNet)) with (Some (1%nat, FX)).
  cbn [curr_factor weights total draws loop_i].
  assert (conditional_probs qx_heap {[ "Q"%string := VStr "a" ]} FX vX = Ok [0%Qc; 1%Qc])
    as -> by qc_eq.
  cbn [mbind Res_bind choose_loop].
  rewrite !Qcplus_0_l.
  rewrite decide_False by (by apply Qclt_not_le).
  rewrite decide_True by done.
  change (py_getitem (domain qx_heap vX) (0 + 1)) with (Ok (VStr "d")).
  cbn [mbind Res_bind]. done.
Qed.

Lemma sample_round_QX (random : nat → Qc) (w0 w1 t : Qc) (i : Z) (cf : option Factor)
    (d : nat) (round : Z) :
  (∀ k, (0 < random k)%Qc ∧ (random k ≤ 1)%Qc) →
  sample_round random qx_heap QXNet vQ [] (mkSampler [w0; w1] t i cf d) round
  = Ok (mkSampler [w0; (w1 + 1)%Qc] (t + 1)%Qc 1 (Some FX) (S (S d))).
Proof.
  intros Hr. unfold sample_round, sample_assignment.
  cbn [evidence_loop res_foldM mbind Res_bind weights total curr_factor draws].
  change (variables QXNet) with [vQ; vX]. cbn [res_foldM].
  rewrite sample_variable_Q by apply Hr. cbn [mbind Res_bind].
  rewrite sample_variable_X by apply Hr. cbn [mbind Res_bind res_foldM].
  unfold accumulate.
  change (default VNone (_ !! v_name (obj qx_heap vQ))) with (VStr "a").
  cbn [truthy]. rewrite decide_True by (vm_compute; set_solver).
  cbn [weights loop_i total curr_factor draws]. done.
Qed.

Lemma sample_rounds_QX (random : nat → Qc) (n : nat) :
  (∀ k, (0 < random k)%Qc ∧ (random k ≤ 1)%Qc) →
  ∀ (a : nat) (w0 w1 t : Qc) (i : Z) (cf : option Factor) (d : nat),
  ∃ i' cf' d',
    res_foldM (sample_round random qx_heap QXNet vQ []) (Z.of_nat <$> seq a n)
      (mkSampler [w0; w1] t i cf d)
    = Ok (mkSampler [w0; add_ones n w1] (add_ones n t) i' cf' d').
Proof.
  intros Hr. induction n as [|n IH]; intros a w0 w1 t i cf d.
  - by exists i, cf, d.
  - cbn [seq fmap list_fmap res_foldM]. rewrite sample_round_QX by done.
    cbn [mbind Res_bind add_ones]. apply IH.
Qed.

Lemma SampleBN_QX_any_draws (random : nat → Qc) :
  (∀ k, (0 < random k)%Qc ∧ (random k ≤ 1)%Qc) →
  SampleBN random qx_heap QXNet vQ [] = Ok [0%Qc; 1%Qc].
Proof.
  intros Hr. unfold SampleBN, SampleBN_rounds.
  change (replicate (length (domain qx_heap vQ)) 0%Qc) with [0%Qc; 0%Qc].
  destruct (sample_rounds_QX random 1000 Hr 0 0%Qc 0%Qc 0%Qc 0 None 0) as (i' & cf' & d' & ->).
  cbn [mbind Res_bind weights total]. qc_eq.
Qed.

(** C2 (the code at a failing input).  In the network [QXNet] the query
    variable [Q] receives the value [a], whose position in the domain of [Q]
    is 0, in every round; the round nevertheless adds its weight to bucket 1,
    the position chosen for [X], the variable sampled last.  [SampleBN]
    returns [[0, 1]] for a variable that is [a] with certainty. *)
Theorem SampleBN_bucket_of_last_variable :
  (∃ s dct, sample_assignment (λ _, qc 1 2) qx_heap QXNet [] 0
              (mkSampler [0%Qc; 0%Qc] 0%Qc 0 None 0%nat) = Ok (s, dct, 1%Qc) ∧
            dct !! v_name (obj qx_heap vQ) = Some (VStr "a") ∧
            py_index (domain qx_heap vQ) (VStr "a") = Ok 0 ∧
            loop_i s = 1) ∧
  (∃ s', sample_round (λ _, qc 1 2) qx_heap QXNet vQ [] (mkSampler [0%Qc; 0%Qc] 0%Qc 0 None 0%nat) 0
           = Ok s' ∧
         weights s' = [0%Qc; 1%Qc] ∧ total s' = 1%Qc) ∧
  SampleBN (λ _, qc 1 2) qx_heap QXNet vQ [] = Ok [0%Qc; 1%Qc] ∧
  (VE QXNet vQ [] qx_heap).1 = Ok [1%Qc; 0%Qc].
Proof.
  split_and!.
  - eexists _, _. split_and!; [vm_compute; reflexivity|vm_compute; reflexivity..].
  - eexists. split_and!; [vm_compute; reflexivity|qc_eq|qc_eq].
  - qc_eq.
  - qc_eq.
Qed.

(** C4 (the code at a failing input).  With the evidence [X = c], whose
    prior is 0, every round has weight 0: the running total is 0 after the
    1000 rounds and the final division raises [ZeroDivisionError], where [VE]
    on the same query returns zeros through [normalize]. *)
Theorem SampleBN_zero_total_raises :
  (∃ s, res_foldM (sample_round (λ _, qc 1 2) qx_heap_c QXNet_half vQ [vX])
          (Z.of_nat <$> seq 0 1000)
          (mkSampler (replicate (length (domain qx_heap_c vQ)) 0%Qc) 0%Qc 0 None 0%nat) = Ok s ∧
        total s = 0%Qc) ∧
  SampleBN (λ _, qc 1 2) qx_heap_c QXNet_half vQ [vX] = Raise ZeroDivisionError ∧
  (VE QXNet_half vQ [vX] qx_heap_c).1 = Ok [0%Qc; 0%Qc].
Proof.
  split_and!.
  - eexists. split; [vm_compute; reflexivity|qc_eq].
  - vm_compute. reflexivity.
  - qc_eq.
Qed.


(** * Further properties of the code *)

(** ** What the factor operations do to the store *)

Lemma bind_inv {S A B} (m : M S A) (k : A → M S B) s r s' :
  bind m k s = (r, s') →
  (∃ a s1, m s = (Ok a, s1) ∧ k a s1 = (r, s')) ∨
  (∃ e, m s = (Raise e, s') ∧ r = Raise e).
Proof.
  unfold bind. destruct (m s) as [[a|e] s1]; intros Hrun.
  - left. by exists a, s1.
  - right. exists e. by injection Hrun as <- <-.
Qed.

Lemma only_assignments_refl S h : only_assignments S h h.
Proof. by intros v. Qed.

Lemma only_assignments_trans S h1 h2 h3 :
  only_assignments S h1 h2 → only_assignments S h2 h3 → only_assignments S h1 h3.
Proof.
  intros H12 H23 v.
  destruct (H12 v) as (N1 & D1 & E1 & R1 & A1), (H23 v) as (N2 & D2 & E2 & R2 & A2).
  split_and!; [by rewrite N2|by rewrite D2|by rewrite E2|by rewrite R2|].
  intros Hv. by rewrite A2, A1.
Qed.

Lemma only_assignments_mono S S' h h' :
  (∀ v, v ∈ S → v ∈ S') → only_assignments S h h' → only_assignments S' h h'.
Proof.
  intros Hsub H v. destruct (H v) as (? & ? & ? & ? & Ha). split_and!; try done.
  intros Hv. apply Ha. intros Hin. by apply Hv, Hsub.
Qed.

Lemma only_assignments_same_dom S h h' : only_assignments S h h' → same_dom h h'.
Proof. intros H v. by destruct (H v) as (_ & ? & _). Qed.

Lemma only_assignments_insert S (h : heap) v i :
  v ∈ S → only_assignments S h (<[v := with_assignment_index (obj h v) i]> h).
Proof.
  intros Hv w. destruct (decide (v = w)) as [->|Hne].
  - rewrite obj_insert_eq. by split_and!.
  - rewrite obj_insert_ne by done. by split_and!.
Qed.

Lemma set_assignment_only S v val h r h' :
  v ∈ S → set_assignment v val h = (r, h') → only_assignments S h h'.
Proof.
  intros Hv. unfold set_assignment. destruct (value_index h v val); intros [= <- <-].
  - by apply only_assignments_insert.
  - apply only_assignments_refl.
Qed.

Section keeps_facts.
Context (S : list nat).

Lemma keeps_ret {A} (a : A) : keeps S (ret a).
Proof. intros s r s' [= <- <-]. split; [apply only_assignments_refl|done]. Qed.

Lemma keeps_get : keeps S get.
Proof. intros s r s' [= <- <-]. split; [apply only_assignments_refl|done]. Qed.

Lemma keeps_lift {A} (x : Res A) : keeps S (lift x).
Proof. intros s r s' [= <- <-]. split; [apply only_assignments_refl|done]. Qed.

Lemma keeps_bind {A B} (m : M (heap * Factor) A) (k : A → M (heap * Factor) B) :
  keeps S m → (∀ a, keeps S (k a)) → keeps S (bind m k).
Proof.
  intros Hm Hk s r s' [(a & s1 & H1 & H2)|(e & H1 & _)]%bind_inv.
  - destruct (Hm _ _ _ H1) as [Ho1 Hs1], (Hk _ _ _ _ H2) as [Ho2 Hs2].
    split; [by eapply only_assignments_trans|by rewrite Hs2].
  - by eapply Hm.
Qed.

Lemma keeps_set_assignment v val : v ∈ S → keeps S (on_heap (set_assignment v val)).
Proof.
  intros Hv s r s'. unfold on_heap.
  destruct (set_assignment v val s.1) as [r1 h1] eqn:Hset. intros [= <- <-].
  split; [by eapply set_assignment_only|done].
Qed.

Lemma keeps_for {A} (body : A → M (heap * Factor) unit) (l : list A) :
  (∀ a, keeps S (body a)) → keeps S (for_ body l).
Proof.
  intros Hbody. induction l as [|a l IH]; cbn [for_].
  - apply keeps_ret.
  - apply keeps_bind; [apply Hbody|done].
Qed.

Lemma keeps_foldM {A B} (body : B → A → M (heap * Factor) B) (l : list A) :
  (∀ b a, keeps S (body b a)) → ∀ b, keeps S (foldM body l b).
Proof.
  intros Hbody. induction l as [|a l IH]; intros b; cbn [foldM].
  - apply keeps_ret.
  - apply keeps_bind; [apply Hbody|done].
Qed.

Lemma keeps_F_add_value (x : Qc) : keeps S (F_add_value_at_current_assignment x).
Proof.
  intros s r s'. unfold F_add_value_at_current_assignment, bind, get, lift, put.
  unfold add_value_at_current_assignment.
  destruct (py_setitem _ _ _); cbn [mbind Res_bind]; intros [= <- <-];
    (split; [apply only_assignments_refl|done]).
Qed.

Lemma keeps_leaf_restrict f : keeps S (leaf_restrict f).
Proof.
  unfold leaf_restrict. apply keeps_bind; [apply keeps_get|]. intros s.
  apply keeps_bind; [apply keeps_lift|]. intros x. apply keeps_F_add_value.
Qed.

Lemma keeps_leaf_eliminate f var : var ∈ S → keeps S (leaf_eliminate f var).
Proof.
  intros Hvar. unfold leaf_eliminate. apply keeps_bind; [apply keeps_get|]. intros s.
  apply keeps_bind; [|intros x; apply keeps_F_add_value].
  apply keeps_foldM. intros summ val.
  apply keeps_bind; [by apply keeps_set_assignment|]. intros _.
  apply keeps_bind; [apply keeps_get|]. intros s'.
  apply keeps_bind; [apply keeps_lift|]. intros x. apply keeps_ret.
Qed.

Lemma keeps_enumerate leaf (Vars : list nat) :
  keeps S leaf → (∀ v, v ∈ Vars → v ∈ S) → keeps S (enumerate leaf Vars).
Proof.
  intros Hleaf. induction Vars as [|v0 Vars IH]; intros Hsub; cbn [enumerate]; [done|].
  apply keeps_bind; [apply keeps_get|]. intros s.
  apply keeps_for. intros val.
  apply keeps_bind; [apply keeps_set_assignment, Hsub; left|]. intros _.
  apply IH. intros v Hv. apply Hsub. by right.
Qed.
End keeps_facts.

Lemma py_remove_Ok_elem {A} `{EqDecision A} (l l' : list A) (x : A) :
  py_remove l x = Ok l' → x ∈ l ∧ ∀ y, y ∈ l' → y ∈ l.
Proof.
  revert l'. induction l as [|y l IH]; intros l'; simpl; [done|].
  destruct (decide (y = x)) as [->|Hne].
  - intros [= <-]. split; [left|]. intros z Hz. by right.
  - destruct (py_remove l x) as [l''|] eqn:Hrem; simpl; [|done].
    intros [= <-]. destruct (IH l'' eq_refl) as [Hx Hsub]. split; [by right|].
    intros z [->|Hz]%elem_of_cons; [left|right; by apply Hsub].
Qed.

Lemma building_only S F (m : M (heap * Factor) unit) h r h' :
  keeps S m → building F m h = (r, h') →
  only_assignments S h h' ∧ ∀ F', r = Ok F' → f_scope F' = f_scope F.
Proof.
  intros Hm. unfold building. destruct (m (h, F)) as [[u|e] [h1 F1]] eqn:Hrun;
    intros [= <- <-]; destruct (Hm _ _ _ Hrun) as [Ho Hs]; (split; [done|]).
  - by intros F' [= <-].
  - done.
Qed.

Lemma restrict_factor_only (f : Factor) (var : nat) (value : pyval) (h : heap) r h' :
  restrict_factor f var value h = (r, h') →
  only_assignments (get_scope f) h h' ∧
  ∀ F, r = Ok F → py_remove (get_scope f) var = Ok (get_scope F).
Proof.
  unfold restrict_factor.
  intros [(scope & h1 & Hrem & Hrun)|(e & Hrem & ->)]%bind_inv;
    unfold lift in Hrem; injection Hrem as Hrem <-;
    [|split; [apply only_assignments_refl|done]].
  pose proof Hrem as [Hvar _]%py_remove_Ok_elem.
  unfold bind at 1, get at 1 in Hrun.
  apply bind_inv in Hrun as [(u & h2 & Hset & Hrun)|(e & Hset & ->)].
  - eapply building_only in Hrun as [Ho Hs].
    + split; [eapply only_assignments_trans; [by eapply set_assignment_only|done]|].
      intros F HF. unfold get_scope in *. by rewrite (Hs F HF).
    + rewrite recursive_restrict_factor_enumerate.
      apply keeps_enumerate; [apply keeps_leaf_restrict|].
      by intros v [_ ?]%list_elem_of_filter.
  - split; [by eapply set_assignment_only|done].
Qed.

Lemma sum_out_variable_only (f : Factor) (var : nat) (h : heap) r h' :
  sum_out_variable f var h = (r, h') →
  only_assignments (get_scope f) h h' ∧
  ∀ F, r = Ok F → py_remove (get_scope f) var = Ok (get_scope F).
Proof.
  unfold sum_out_variable.
  intros [(scope & h1 & Hrem & Hrun)|(e & Hrem & ->)]%bind_inv;
    unfold lift in Hrem; injection Hrem as Hrem <-;
    [|split; [apply only_assignments_refl|done]].
  pose proof Hrem as [Hvar Hsub]%py_remove_Ok_elem.
  unfold bind at 1, get at 1 in Hrun.
  eapply building_only in Hrun as [Ho Hs].
  - split; [done|]. intros F HF. unfold get_scope in *. by rewrite (Hs F HF).
  - rewrite recursive_eliminate_variable_enumerate.
    apply keeps_enumerate; [by apply keeps_leaf_eliminate|done].
Qed.

(** X1.  Whether they return or raise, [restrict_factor] and
    [sum_out_variable] change nothing in the store but assignment indices of
    variables of the factor's scope: names, domains and evidence stay as they
    were, and so do the assignment indices of every other variable. *)
Theorem factor_operations_keep_store (f : Factor) (var : nat) (value : pyval) (h : heap) :
  only_assignments (get_scope f) h (restrict_factor f var value h).2 ∧
  only_assignments (get_scope f) h (sum_out_variable f var h).2.
Proof.
  split.
  - destruct (restrict_factor f var value h) as [r h'] eqn:Hrun.
    by apply restrict_factor_only in Hrun as [? _].
  - destruct (sum_out_variable f var h) as [r h'] eqn:Hrun.
    by apply sum_out_variable_only in Hrun as [? _].
Qed.

(** ** What [VE] does to the store, and the shape of its result *)

Lemma bind_inv_Ok {S A B} (m : M S A) (k : A → M S B) s b s' :
  bind m k s = (Ok b, s') → ∃ a s1, m s = (Ok a, s1) ∧ k a s1 = (Ok b, s').
Proof. intros [H|(e & _ & [=])]%bind_inv. done. Qed.

Lemma res_foldM_inv {A B} (P : B → Prop) (body : B → A → Res B) (l : list A) :
  (∀ b a b', P b → body b a = Ok b' → P b') →
  ∀ b b', P b → res_foldM body l b = Ok b' → P b'.
Proof.
  intros Hbody. induction l as [|a l IH]; intros b b' Hb; cbn [res_foldM].
  - by intros [= <-].
  - destruct (body b a) as [b1|e] eqn:Hb1; cbn [mbind Res_bind]; [|done].
    apply IH. by eapply Hbody.
Qed.

Lemma res_mapM_length {A B} (f : A → Res B) (l : list A) (l' : list B) :
  res_mapM f l = Ok l' → length l' = length l.
Proof.
  revert l'. induction l as [|a l IH]; intros l'; cbn [res_mapM].
  - by intros [= <-].
  - destruct (f a) as [b|e]; cbn [mbind Res_bind]; [|done].
    destruct (res_mapM f l) as [bs|e]; cbn [mbind Res_bind]; [|done].
    intros [= <-]. cbn. by rewrite (IH bs).
Qed.

Lemma add_values_row_scope h F t F' :
  add_values_row h F t = Ok F' → f_scope F' = f_scope F.
Proof.
  unfold add_values_row.
  destruct (row_index h (f_scope F) t.1 0) as [[index rest]|e]; cbn [mbind Res_bind]; [|done].
  destruct rest; [|done].
  destruct (py_setitem _ _ _); cbn [mbind Res_bind]; [|done]. by intros [= <-].
Qed.

Lemma add_values_scope h rows : ∀ F F',
  add_values h F rows = Ok F' → f_scope F' = f_scope F.
Proof.
  induction rows as [|t rows IH]; intros F F'; cbn [add_values].
  - by intros [= <-].
  - destruct (add_values_row h F t) as [F1|e] eqn:Hrow; cbn [mbind Res_bind]; [|done].
    intros HF'%IH. by rewrite HF', (add_values_row_scope _ _ _ _ Hrow).
Qed.

Lemma multiply_pair_scope h f1 f2 F :
  multiply_pair h f1 f2 = Ok F → get_scope F = product_scope f1 f2.
Proof.
  unfold multiply_pair.
  apply (res_foldM_inv (λ F, get_scope F = product_scope f1 f2)); [|done].
  intros b comb b' Hb.
  destruct (res_mapM _ (get_scope f1)); cbn [mbind Res_bind]; [|done].
  destruct (res_mapM _ (get_scope f2)); cbn [mbind Res_bind]; [|done].
  destruct (get_value h f1 _); cbn [mbind Res_bind]; [|done].
  destruct (get_value h f2 _); cbn [mbind Res_bind]; [|done].
  intros Hadd%add_values_scope. unfold get_scope in *. by rewrite Hadd.
Qed.

Lemma product_scope_elem f1 f2 v :
  v ∈ product_scope f1 f2 ↔ v ∈ get_scope f1 ∨ v ∈ get_scope f2.
Proof.
  unfold product_scope. rewrite elem_of_app, list_elem_of_filter.
  destruct (decide (v ∈ get_scope f2)); naive_solver.
Qed.

Lemma multiply_loop_scope h (below : list Factor) : ∀ factor1 F,
  multiply_loop h factor1 below = Ok F →
  ∀ v, v ∈ get_scope F ↔ v ∈ get_scope factor1 ∨ ∃ f, f ∈ below ∧ v ∈ get_scope f.
Proof.
  induction below as [|f2 below IH]; intros factor1 F; cbn [multiply_loop].
  - intros [= <-] v. split; [by left|]. by intros [?|(f & ?%elem_of_nil & _)].
  - destruct (multiply_pair h factor1 f2) as [P|e] eqn:HP; cbn [mbind Res_bind]; [|done].
    intros HF v. rewrite (IH _ _ HF), (multiply_pair_scope _ _ _ _ HP), product_scope_elem.
    split.
    + intros [[?|?]|(f & Hf & Hv)]; [by left|right; exists f2; split; [left|done]|].
      right. exists f. split; [by right|done].
    + intros [?|(f & [->|Hf]%elem_of_cons & Hv)]; [by left; left|by left; right|].
      right. by exists f.
Qed.

Lemma multiply_factors_scope h (Factors : list Factor) F :
  multiply_factors h Factors = Ok F →
  ∀ v, v ∈ get_scope F ↔ ∃ f, f ∈ Factors ∧ v ∈ get_scope f.
Proof.
  unfold multiply_factors. destruct (reverse Factors) as [|factor1 below] eqn:Hrev; [done|].
  intros HF v. rewrite (multiply_loop_scope _ _ _ _ HF).
  assert (∀ f, f ∈ Factors ↔ f = factor1 ∨ f ∈ below) as Hin.
  { intros f. by rewrite <- elem_of_reverse, Hrev, elem_of_cons. }
  split.
  - intros [Hv|(f & Hf & Hv)]; [exists factor1|exists f]; rewrite Hin; naive_solver.
  - intros (f & [->|Hf]%Hin & Hv); [by left|right; by exists f].
Qed.

Section VE_store.
Context (S : list nat).

Lemma VE_restrict_loop_only (ev : nat) : ∀ (fs : list Factor) h r h',
  scopes_in S fs →
  mapM_ (λ factor,
      if decide (ev ∈ get_scope factor) then
        h <- get ;;
        value <- lift (get_evidence h ev) ;;
        restrict_factor factor ev value
      else ret factor) fs h = (r, h') →
  only_assignments S h h' ∧
  ∀ fs', r = Ok fs' → scopes_in S fs' ∧ length fs' = length fs.
Proof.
  induction fs as [|f fs IH]; intros h r h' Hin; cbn [mapM_].
  - intros [= <- <-]. split; [apply only_assignments_refl|]. by intros fs' [= <-].
  - assert (scopes_in S fs) as Hin' by (intros g v Hg; apply Hin; by right).
    assert (∀ v, v ∈ get_scope f → v ∈ S) as Hf by (intros v; apply Hin; left).
    intros [(F & h1 & Hhead & Hrun)|(e & Hhead & ->)]%bind_inv.
    + assert (only_assignments S h h1 ∧ ∀ v, v ∈ get_scope F → v ∈ S) as [Ho1 HF].
      { destruct (decide (ev ∈ get_scope f)) as [Hev|Hev].
        - unfold bind at 1, get at 1, bind at 1, lift at 1 in Hhead.
          destruct (get_evidence h ev) as [value|e']; [|done].
          apply restrict_factor_only in Hhead as [Ho Hsc].
          split; [by eapply only_assignments_mono|].
          intros v Hv. apply Hf. by eapply (py_remove_Ok_elem _ _ _ (Hsc F eq_refl)).
        - injection Hhead as <- <-. split; [apply only_assignments_refl|done]. }
      apply bind_inv in Hrun as [(fs1 & h2 & Htail & Hret)|(e & Htail & ->)].
      * destruct (IH _ _ _ Hin' Htail) as [Ho2 Hfs1]. injection Hret as <- <-.
        split; [by eapply only_assignments_trans|]. intros fs' [= <-].
        destruct (Hfs1 fs1 eq_refl) as [Hsc Hlen]. split; [|cbn; by rewrite Hlen].
        intros g v [->|Hg]%elem_of_cons; [apply HF|by apply Hsc].
      * destruct (IH _ _ _ Hin' Htail) as [Ho2 _].
        split; [by eapply only_assignments_trans|done].
    + split; [|done]. destruct (decide (ev ∈ get_scope f)); [|done].
      unfold bind at 1, get at 1, bind at 1, lift at 1 in Hhead.
      destruct (get_evidence h ev) as [value|e'].
      * apply restrict_factor_only in Hhead as [Ho _]. by eapply only_assignments_mono.
      * injection Hhead as _ <-. apply only_assignments_refl.
Qed.

Lemma VE_evidence_loop_only (Ev : list nat) : ∀ (fs : list Factor) h r h',
  scopes_in S fs →
  foldM (λ factors ev,
      mapM_ (λ factor,
          if decide (ev ∈ get_scope factor) then
            h <- get ;;
            value <- lift (get_evidence h ev) ;;
            restrict_factor factor ev value
          else ret factor)
        factors) Ev fs h = (r, h') →
  only_assignments S h h' ∧
  ∀ fs', r = Ok fs' → scopes_in S fs' ∧ length fs' = length fs.
Proof.
  induction Ev as [|ev Ev IH]; intros fs h r h' Hin; cbn [foldM].
  - intros [= <- <-]. split; [apply only_assignments_refl|]. by intros fs' [= <-].
  - intros [(fs1 & h1 & Hhead & Hrun)|(e & Hhead & ->)]%bind_inv.
    + apply VE_restrict_loop_only in Hhead as [Ho1 Hfs1]; [|done].
      destruct (Hfs1 fs1 eq_refl) as [Hsc1 Hlen1].
      apply IH in Hrun as [Ho2 Hfs']; [|done].
      split; [by eapply only_assignments_trans|].
      intros fs' Hr. destruct (Hfs' fs' Hr) as [? Hlen]. split; [done|congruence].
    + apply VE_restrict_loop_only in Hhead as [Ho1 _]; done.
Qed.

Lemma VE_cagan31_only (fs : list Factor) (var : nat) h r h' :
  scopes_in S fs → VE_cagan31 fs var h = (r, h') →
  only_assignments S h h' ∧
  ∀ fs', r = Ok fs' → scopes_in S fs' ∧ (fs ≠ [] → fs' ≠ []).
Proof.
  intros Hin. unfold VE_cagan31.
  destruct (filter (λ factor, var ∈ get_scope factor) fs) as [|l0 lst'] eqn:Hlst.
  - intros [= <- <-]. split; [apply only_assignments_refl|]. by intros fs' [= <-].
  - rewrite <- Hlst. unfold bind at 1, get at 1, bind at 1, lift at 1.
    destruct (multiply_factors h _) as [P|e] eqn:HP;
      [|intros [= <- <-]; split; [apply only_assignments_refl|done]].
    assert (∀ v, v ∈ get_scope P → v ∈ S) as HPin.
    { intros v (f & [_ Hf]%list_elem_of_filter & Hv)%(multiply_factors_scope _ _ _ HP).
      by eapply Hin. }
    intros [(F & h1 & Hsum & Hret)|(e & Hsum & ->)]%bind_inv;
      apply sum_out_variable_only in Hsum as [Ho Hsc];
      [injection Hret as <- <-|]; (split; [by eapply only_assignments_mono|]); [|done].
    intros fs' [= <-]. split.
    + intros g v [[_ Hg]%list_elem_of_filter| ->%list_elem_of_singleton]%elem_of_app Hv.
      * by eapply Hin.
      * apply HPin. by eapply (py_remove_Ok_elem _ _ _ (Hsc F eq_refl)).
    + intros _ Hnil. by apply app_eq_nil in Hnil as [_ [=]].
Qed.

Lemma VE_elimination_loop_only (ordered : list nat) : ∀ (fs : list Factor) h r h',
  scopes_in S fs → foldM VE_cagan31 ordered fs h = (r, h') →
  only_assignments S h h' ∧
  ∀ fs', r = Ok fs' → scopes_in S fs' ∧ (fs ≠ [] → fs' ≠ []).
Proof.
  induction ordered as [|x ordered IH]; intros fs h r h' Hin; cbn [foldM].
  - intros [= <- <-]. split; [apply only_assignments_refl|]. by intros fs' [= <-].
  - intros [(fs1 & h1 & Hhead & Hrun)|(e & Hhead & ->)]%bind_inv.
    + apply VE_cagan31_only in Hhead as [Ho1 Hfs1]; [|done].
      destruct (Hfs1 fs1 eq_refl) as [Hsc1 Hne1].
      apply IH in Hrun as [Ho2 Hfs']; [|done].
      split; [by eapply only_assignments_trans|].
      intros fs' Hr. destruct (Hfs' fs' Hr) as [? Hne]. split; [done|]. auto.
    + apply VE_cagan31_only in Hhead as [Ho1 _]; done.
Qed.
End VE_store.

Lemma VE_only (Net : BN) (QueryVar : nat) (EvidenceVars : list nat) h r h' :
  VE Net QueryVar EvidenceVars h = (r, h') →
  only_assignments (scan (factors Net)) h h' ∧
  ∀ probs, r = Ok probs →
    ∃ values, probs = normalize values ∧ length values = length (domain h QueryVar).
Proof.
  assert (scopes_in (scan (factors Net)) (factors Net)) as Hin.
  { intros f v Hf Hv. apply scan_elem. by exists f. }
  unfold VE.
  intros [(fs1 & h1 & Hev & Hrun)|(e & Hev & ->)]%bind_inv;
    apply (VE_evidence_loop_only _ _ _ _ _ _ Hin) in Hev as [Ho1 Hfs1]; [|done].
  destruct (Hfs1 fs1 eq_refl) as [Hin1 _].
  apply bind_inv in Hrun as [(fs2 & h2 & Hel & Hrun)|(e & Hel & ->)];
    apply (VE_elimination_loop_only _ _ _ _ _ _ Hin1) in Hel as [Ho2 _];
    [|split; [by eapply only_assignments_trans|done]].
  assert (only_assignments (scan (factors Net)) h h2) as Ho
    by (by eapply only_assignments_trans).
  unfold bind at 1, get at 1, bind at 1, lift at 1 in Hrun.
  destruct (multiply_factors h2 fs2) as [last|e]; [|by injection Hrun as <- <-].
  unfold bind at 1, lift at 1 in Hrun.
  destruct (res_mapM _ (domain h2 QueryVar)) as [values|e] eqn:Hvalues;
    [|by injection Hrun as <- <-].
  injection Hrun as <- <-. split; [done|]. intros probs [= <-].
  exists values. split; [done|]. rewrite (res_mapM_length _ _ _ Hvalues).
  unfold domain. by destruct (Ho QueryVar) as (_ & -> & _).
Qed.

(** X2.  Whether it returns or raises, [VE] leaves the evidence, the domains
    and the names of all variables as they were; it changes assignment
    indices only, and those only on variables that occur in a scope of the
    network.  In particular every [get_evidence] answers after the call as it
    did before. *)
Theorem VE_keeps_evidence (Net : BN) (QueryVar : nat) (EvidenceVars : list nat) (h : heap) :
  only_assignments (scan (factors Net)) h (VE Net QueryVar EvidenceVars h).2 ∧
  ∀ v, get_evidence (VE Net QueryVar EvidenceVars h).2 v = get_evidence h v.
Proof.
  destruct (VE Net QueryVar EvidenceVars h) as [r h'] eqn:Hrun.
  apply VE_only in Hrun as [Ho _]. split; [done|].
  intros v. unfold get_evidence. cbn [snd].
  by destruct (Ho v) as (_ & -> & -> & _).
Qed.

(** X3.  When [VE] returns, on any network, query and evidence, its list has
    one entry for each value of the query variable's domain. *)
Theorem VE_result_shape (Net : BN) (QueryVar : nat) (EvidenceVars : list nat)
    (h : heap) (probs : list Qc) :
  (VE Net QueryVar EvidenceVars h).1 = Ok probs →
  length probs = length (domain h QueryVar).
Proof.
  destruct (VE Net QueryVar EvidenceVars h) as [r h'] eqn:Hrun. cbn [fst]. intros ->.
  apply VE_only in Hrun as [_ Hprobs].
  destruct (Hprobs probs eq_refl) as (values & -> & Hlen).
  rewrite <- Hlen. unfold normalize.
  case_decide; [by rewrite length_replicate|by rewrite length_fmap].
Qed.

Lemma VE_result_shape_witness :
  length [1%Qc; 0%Qc] = length (domain qx_heap vQ).
Proof. apply (VE_result_shape QXNet vQ [] qx_heap [1%Qc; 0%Qc]). qc_eq. Defined.

(** ** [VE] with evidence *)

Lemma get_evidence_only S h h' v :
  only_assignments S h h' → get_evidence h' v = get_evidence h v.
Proof. intros Ho. unfold get_evidence. by destruct (Ho v) as (_ & -> & -> & _). Qed.

Lemma evidence_value_only S h h' v :
  only_assignments S h h' → evidence_value h' v = evidence_value h v.
Proof. intros Ho. unfold evidence_value. by rewrite (get_evidence_only S h h'). Qed.

Lemma with_evidence_only S h h' Ev σ :
  only_assignments S h h' → with_evidence h' Ev σ = with_evidence h Ev σ.
Proof.
  intros Ho. induction Ev as [|ev Ev IH]; [done|].
  unfold with_evidence in *. cbn [foldr]. by rewrite IH, (evidence_value_only S h h').
Qed.

Lemma restrict_factor_value (h : heap) (f : Factor) (var : nat) (value : pyval) :
  good_factor h f → var ∈ get_scope f → value ∈ domain h var →
  ∃ F h', restrict_factor f var value h = (Ok F, h') ∧
    same_dom h h' ∧ good_factor h' F ∧
    (∀ v, v ∈ get_scope F ↔ v ∈ get_scope f ∧ v ≠ var) ∧
    ∀ σ, value_of h' F σ = value_of h f (<[var := value]> σ).
Proof.
  intros [Hnd Hwf] Hvar Hvalue.
  destruct (restrict_factor_correct h f var value Hnd Hwf Hvar Hvalue)
    as (F & h' & Hrun & Hsc & Hdom & HwfF & Hval).
  exists F, h'. split; [done|]. split_and!.
  - done.
  - split; [|done]. rewrite Hsc. by apply NoDup_filter.
  - intros v. rewrite Hsc, list_elem_of_filter. naive_solver.
  - intros σ. destruct (decide (valid_on h σ (get_scope F))) as [Hσ|Hσ].
    + unfold value_of at 1. by rewrite Hval.
    + rewrite (value_of_invalid h' F) by (by rewrite (valid_on_same h h' Hdom)).
      symmetry. apply value_of_invalid. intros Hσ'. apply Hσ.
      intros v Hv'. rewrite Hsc in Hv'. apply list_elem_of_filter in Hv' as [Hne Hv'].
      specialize (Hσ' v Hv'). by rewrite lookup_total_insert_ne in Hσ'.
Qed.

Lemma joint_cons h f fs σ : joint h (f :: fs) σ = (value_of h f σ * joint h fs σ)%Qc.
Proof. done. Qed.

Lemma VE_restrict_loop_correct (ev : nat) (value : pyval) : ∀ (fs : list Factor) (h : heap),
  (∀ f, f ∈ fs → good_factor h f) →
  ((∃ f, f ∈ fs ∧ ev ∈ get_scope f) →
   get_evidence h ev = Ok value ∧ value ∈ domain h ev) →
  ∃ fs' h',
    mapM_ (λ factor,
        if decide (ev ∈ get_scope factor) then
          h <- get ;;
          value <- lift (get_evidence h ev) ;;
          restrict_factor factor ev value
        else ret factor) fs h = (Ok fs', h') ∧
    same_dom h h' ∧
    (∀ f, f ∈ fs' → good_factor h' f) ∧
    (∀ v, (∃ f, f ∈ fs' ∧ v ∈ get_scope f) ↔
          v ≠ ev ∧ ∃ f, f ∈ fs ∧ v ∈ get_scope f) ∧
    ∀ σ, joint h' fs' σ = joint h fs (<[ev := value]> σ).
Proof.
  induction fs as [|f fs IH]; intros h Hgood Hev.
  - exists [], h. split_and!; try done.
    intros v. split; [by intros (f & ?%elem_of_nil & _)|by intros (_ & f & ?%elem_of_nil & _)].
  - assert (good_factor h f) as Hgf by (apply Hgood; left).
    destruct (decide (ev ∈ get_scope f)) as [Hin|Hnin].
    + destruct Hev as [Hget Hvalue]; [exists f; split; [left|done]|].
      destruct (restrict_factor_value h f ev value Hgf Hin Hvalue)
        as (F & h1 & Hrun1 & Hdom1 & HgF & HscF & HvalF).
      pose proof (restrict_factor_only _ _ _ _ _ _ Hrun1) as [Ho1 _].
      destruct (IH h1) as (fs' & h' & Hrun & Hdom & Hgood' & Hsc & Hval).
      { intros g Hg. apply (good_factor_same h h1); [done|]. apply Hgood. by right. }
      { intros _. rewrite (get_evidence_only _ _ _ _ Ho1), (domain_same h h1 Hdom1). done. }
      exists (F :: fs'), h'. split_and!.
      * cbn [mapM_]. rewrite decide_True by done.
        unfold bind at 1, bind at 1, get at 1, bind at 1, lift at 1.
        rewrite Hget, Hrun1. unfold bind at 1. by rewrite Hrun.
      * by eapply same_dom_trans.
      * intros g [->|Hg]%elem_of_cons; [by apply (good_factor_same h1 h')|by apply Hgood'].
      * intros v. split.
        -- intros (g & [->|Hg]%elem_of_cons & Hv).
           ++ apply HscF in Hv as [Hv Hne]. split; [done|]. exists f. split; [left|done].
           ++ destruct (proj1 (Hsc v)) as (Hne & g' & Hg' & Hv'); [by exists g|].
              split; [done|]. exists g'. split; [by right|done].
        -- intros (Hne & g & [->|Hg]%elem_of_cons & Hv).
           ++ exists F. split; [left|]. by apply HscF.
           ++ destruct (proj2 (Hsc v)) as (g' & Hg' & Hv'); [split; [done|by exists g]|].
              exists g'. split; [by right|done].
      * intros σ. rewrite !joint_cons, Hval, (value_of_same h1 h' Hdom), HvalF.
        by rewrite (joint_same_dom h h1).
    + destruct (IH h) as (fs' & h' & Hrun & Hdom & Hgood' & Hsc & Hval).
      { intros g Hg. apply Hgood. by right. }
      { intros (g & Hg & Hv). apply Hev. exists g. split; [by right|done]. }
      exists (f :: fs'), h'. split_and!.
      * cbn [mapM_]. rewrite decide_False by done.
        unfold bind at 1, ret at 1, bind at 1. by rewrite Hrun.
      * done.
      * intros g [->|Hg]%elem_of_cons; [by apply (good_factor_same h h')|by apply Hgood'].
      * intros v. split.
        -- intros (g & [->|Hg]%elem_of_cons & Hv).
           ++ split; [by intros ->|]. exists f. split; [left|done].
           ++ destruct (proj1 (Hsc v)) as (Hne & g' & Hg' & Hv'); [by exists g|].
              split; [done|]. exists g'. split; [by right|done].
        -- intros (Hne & g & [->|Hg]%elem_of_cons & Hv).
           ++ exists f. split; [left|done].
           ++ destruct (proj2 (Hsc v)) as (g' & Hg' & Hv'); [split; [done|by exists g]|].
              exists g'. split; [by right|done].
      * intros σ. rewrite !joint_cons, Hval, (value_of_same h h' Hdom).
        by rewrite value_of_insert_notin.
Qed.

Lemma VE_evidence_loop_correct (Ev : list nat) : ∀ (fs : list Factor) (h : heap),
  (∀ f, f ∈ fs → good_factor h f) →
  (∀ ev, ev ∈ Ev → (∃ f, f ∈ fs ∧ ev ∈ get_scope f) →
         ∃ val, get_evidence h ev = Ok val ∧ val ∈ domain h ev) →
  ∃ fs' h',
    foldM (λ factors ev,
        mapM_ (λ factor,
            if decide (ev ∈ get_scope factor) then
              h <- get ;;
              value <- lift (get_evidence h ev) ;;
              restrict_factor factor ev value
            else ret factor)
          factors) Ev fs h = (Ok fs', h') ∧
    same_dom h h' ∧
    (∀ f, f ∈ fs' → good_factor h' f) ∧
    (∀ v, (∃ f, f ∈ fs' ∧ v ∈ get_scope f) ↔
          (v ∉ Ev) ∧ ∃ f, f ∈ fs ∧ v ∈ get_scope f) ∧
    ∀ σ, joint h' fs' σ = joint h fs (with_evidence h Ev σ).
Proof.
  induction Ev as [|ev Ev IH]; intros fs h Hgood Hev.
  - exists fs, h. split_and!; [done|done|done| |done].
    intros v. split; [intros ?; split; [apply not_elem_of_nil|done]|by intros [_ ?]].
  - destruct (VE_restrict_loop_correct ev (evidence_value h ev) fs h Hgood)
      as (fs1 & h1 & Hrun1 & Hdom1 & Hgood1 & Hsc1 & Hval1).
    { intros Hex. destruct (Hev ev) as (val & Hget & Hval); [left|done|].
      unfold evidence_value. by rewrite Hget. }
    assert (only_assignments (scan fs) h h1) as Ho1.
    { eapply (VE_restrict_loop_only (scan fs)); [|exact Hrun1].
      intros f v Hf Hv. apply scan_elem. by exists f. }
    destruct (IH fs1 h1 Hgood1) as (fs' & h' & Hrun & Hdom & Hgood' & Hsc & Hval).
    { intros ev' Hev' (f & Hf & Hv).
      destruct (proj1 (Hsc1 ev')) as [_ Hex]; [by exists f|].
      destruct (Hev ev') as (val & Hget & Hin); [by right|done|].
      exists val. by rewrite (get_evidence_only _ _ _ _ Ho1), (domain_same h h1 Hdom1). }
    exists fs', h'. split_and!.
    + cbn [foldM]. by rewrite (bind_ok _ _ _ _ _ Hrun1).
    + by eapply same_dom_trans.
    + done.
    + intros v. rewrite Hsc, Hsc1, not_elem_of_cons. naive_solver.
    + intros σ. by rewrite Hval, Hval1, (with_evidence_only _ _ _ _ _ Ho1).
Qed.

Lemma read_last_factor (h : heap) (last : Factor) (QueryVar : nat) :
  good_factor h last → (∀ v, v ∈ get_scope last → v = QueryVar) →
  res_mapM (λ dom, get_value h last [dom]) (domain h QueryVar)
  = Ok ((λ q, value_of h last (<[QueryVar := q]> ∅)) <$> domain h QueryVar).
Proof.
  intros HgL Hsc. destruct (get_scope last) as [|a [|b l]] eqn:E.
  - apply res_mapM_ok. intros q Hq.
    pose proof (value_at_good h last (<[QueryVar := q]> ∅) HgL) as Hv.
    unfold value_at in Hv. rewrite E in Hv. cbn [fmap list_fmap] in Hv.
    rewrite <- Hv by (by intros v ?%elem_of_nil).
    unfold get_value. unfold get_scope in E. by rewrite E.
  - assert (a = QueryVar) as -> by (apply Hsc; left).
    by apply read_query_factor.
  - exfalso. destruct HgL as [Hnd _]. rewrite E in Hnd.
    apply NoDup_cons in Hnd as [Hab _]. apply Hab.
    assert (a = QueryVar) as -> by (apply Hsc; left).
    assert (b = QueryVar) as -> by (apply Hsc; right; left). left.
Qed.

Lemma VE_tail_correct (h : heap) (fs : list Factor) (QueryVar : nat) :
  fs ≠ [] → (∀ f, f ∈ fs → good_factor h f) →
  ∃ h',
    (factors <- foldM VE_cagan31 (min_fill_ordering fs QueryVar) fs ;;
     h <- get ;;
     last_factor <- lift (multiply_factors h factors) ;;
     probabilities <-
       lift (res_mapM (λ dom, get_value h last_factor [dom]) (domain h QueryVar)) ;;
     ret (normalize probabilities)) h
    = (Ok (normalize
             ((λ q, sum_over h (other_variables fs QueryVar) (joint h fs)
                      (<[QueryVar := q]> ∅)) <$> domain h QueryVar)), h').
Proof.
  intros Hne Hgood.
  set (ordered := min_fill_ordering fs QueryVar).
  pose proof (min_fill_ordering_perm fs QueryVar) as Hperm. fold ordered in Hperm.
  assert (Hord : ∀ v, v ∈ ordered ↔ v ≠ QueryVar ∧ ∃ f, f ∈ fs ∧ v ∈ get_scope f).
  { intros v. by rewrite Hperm, other_variables_elem. }
  destruct (VE_loop_correct ordered fs h)
    as (factors' & h' & Hrun & Hdom & Hgood' & Hsc & Hval).
  { rewrite Hperm. apply firsts_NoDup. }
  { done. }
  { intros x Hx. by apply Hord. }
  assert (factors' ≠ []) as Hne'.
  { eapply (VE_elimination_loop_only (scan fs)) in Hrun as [_ Hfs'].
    - destruct (Hfs' factors' eq_refl) as [_ Hn]. by apply Hn.
    - intros f v Hf Hv. apply scan_elem. by exists f. }
  rewrite (bind_ok _ _ _ _ _ Hrun). unfold bind at 1, get at 1.
  destruct (multiply_factors_correct h' factors' Hne' Hgood')
    as (last & HrunL & HgL & HscL & HvalL).
  unfold bind at 1, lift at 1. rewrite HrunL.
  unfold bind at 1, lift at 1. rewrite (read_last_factor h' last QueryVar HgL).
  - exists h'. unfold ret. do 3 f_equal.
    rewrite (domain_same h h' Hdom). apply list_fmap_ext. intros i q _.
    rewrite HvalL. change (prodQ _) with (joint h' factors' (<[QueryVar := q]> ∅)).
    rewrite Hval. apply sum_over_perm.
    by rewrite reverse_Permutation.
  - intros v [Hnot Hex]%HscL%Hsc. destruct (decide (v = QueryVar)); [done|].
    exfalso. apply Hnot, Hord. done.
Qed.

Lemma VE_evidence_correct (h : heap) (Net : BN) (QueryVar : nat) (Ev : list nat) :
  factors Net ≠ [] →
  (∀ f, f ∈ factors Net → good_factor h f) →
  (∀ ev, ev ∈ Ev → (∃ f, f ∈ factors Net ∧ ev ∈ get_scope f) →
         ∃ val, get_evidence h ev = Ok val ∧ val ∈ domain h ev) →
  ∃ h', VE Net QueryVar Ev h = (Ok (conditional_brute_force h Net QueryVar Ev), h').
Proof.
  intros Hne Hgood Hev. unfold VE.
  destruct (VE_evidence_loop_correct Ev (factors Net) h Hgood Hev)
    as (fs1 & h1 & Hrun1 & Hdom1 & Hgood1 & Hsc1 & Hval1).
  assert (fs1 ≠ []) as Hne1.
  { eapply (VE_evidence_loop_only (scan (factors Net))) in Hrun1 as [_ Hfs1].
    - destruct (Hfs1 fs1 eq_refl) as [_ Hlen]. intros ->.
      destruct (factors Net); [done|discriminate Hlen].
    - intros f v Hf Hv. apply scan_elem. by exists f. }
  rewrite (bind_ok _ _ _ _ _ Hrun1).
  destruct (VE_tail_correct h1 fs1 QueryVar Hne1 Hgood1) as (h' & Hrun).
  exists h'. etrans; [exact Hrun|]. unfold conditional_brute_force. do 3 f_equal.
  rewrite (domain_same h h1 Hdom1). apply list_fmap_ext. intros i q _.
  rewrite (sum_over_same_dom h h1) by done.
  rewrite (sum_over_ext h _ _ _ Hval1).
  apply sum_over_perm. apply NoDup_Permutation.
  - apply firsts_NoDup.
  - apply NoDup_filter, firsts_NoDup.
  - intros v. unfold hidden_variables.
    rewrite list_elem_of_filter, !other_variables_elem, Hsc1. naive_solver.
Qed.

(** X4.  On a network with at least one factor, whose factors have
    duplicate-free scopes and tables of the size their constructor gave them,
    and with every evidence variable that occurs in a scope holding evidence
    from its domain, [VE] returns without raising, and its list has one entry
    for each value of the query variable's domain.  Evidence variables may
    repeat, may occur in no scope, and may include the query variable; the
    query variable need not occur in a scope. *)
Theorem VE_with_evidence_returns (h : heap) (Net : BN) (QueryVar : nat)
    (EvidenceVars : list nat) :
  factors Net ≠ [] →
  (∀ f, f ∈ factors Net → NoDup (get_scope f) ∧ wf_factor h f) →
  (∀ ev, ev ∈ EvidenceVars → (∃ f, f ∈ factors Net ∧ ev ∈ get_scope f) →
         ∃ val, get_evidence h ev = Ok val ∧ val ∈ domain h ev) →
  ∃ probs h', VE Net QueryVar EvidenceVars h = (Ok probs, h') ∧
    length probs = length (domain h QueryVar).
Proof.
  intros Hne Hgood Hev.
  destruct (VE_evidence_correct h Net QueryVar EvidenceVars Hne Hgood Hev) as (h' & Hrun).
  eexists _, h'. split; [exact Hrun|].
  unfold conditional_brute_force, normalize.
  case_decide; by rewrite ?length_replicate, !length_fmap.
Qed.

Lemma VE_with_evidence_returns_witness :
  ∃ probs h', VE ExampleBN vG [vS] (set_evidence vS (VStr "-s") ex_heap).2 = (Ok probs, h') ∧
    length probs = length (domain (set_evidence vS (VStr "-s") ex_heap).2 vG).
Proof.
  apply (VE_with_evidence_returns (set_evidence vS (VStr "-s") ex_heap).2 ExampleBN vG [vS]).
  - done.
  - intros f Hf. repeat (apply elem_of_cons in Hf as [->|Hf]);
      [..|by apply elem_of_nil in Hf]; (split; [vm_compute; repeat constructor; set_solver|]);
      vm_compute; reflexivity.
  - intros ev ->%list_elem_of_singleton _. exists (VStr "-s").
    split; [vm_compute; reflexivity|]. vm_compute. set_solver.
Defined.

Lemma with_evidence_elem h (Ev : list nat) (σ : assignment) (Q : nat) (q : pyval) :
  Q ∈ Ev → with_evidence h Ev (<[Q := q]> σ) = with_evidence h Ev σ.
Proof.
  unfold with_evidence. induction Ev as [|ev Ev IH]; [by intros ?%elem_of_nil|].
  cbn [foldr]. intros HQ. destruct (decide (Q ∈ Ev)) as [Hin|Hnin].
  - by rewrite IH.
  - apply elem_of_cons in HQ as [->|HQ]; [|done]. clear IH.
    assert (foldr (λ ev σ, <[ev := evidence_value h ev]> σ) (<[ev := q]> σ) Ev
            = <[ev := q]> (foldr (λ ev σ, <[ev := evidence_value h ev]> σ) σ Ev)) as ->.
    { induction Ev as [|x Ev IH]; [done|]. cbn [foldr].
      apply not_elem_of_cons in Hnin as [Hne Hnin].
      rewrite IH by done. by apply insert_insert_ne. }
    apply insert_insert_eq.
Qed.

Lemma sum_over_insert_irrelevant h (vars : list nat) (G : assignment → Qc) (Q : nat) (q : pyval) :
  (∀ σ, G (<[Q := q]> σ) = G σ) →
  ∀ σ, sum_over h vars G (<[Q := q]> σ) = sum_over h vars G σ.
Proof.
  intros HG. induction vars as [|x vars IH]; intros σ; cbn [sum_over]; [done|].
  apply sumQ_ext. intros val _. destruct (decide (x = Q)) as [->|Hne].
  - by rewrite insert_insert_eq.
  - by rewrite insert_insert_ne, IH.
Qed.

Lemma normalize_replicate (n : nat) (c : Qc) :
  ∃ p, normalize (replicate n c) = replicate n p.
Proof.
  unfold normalize. case_decide.
  - exists 0%Qc. by rewrite length_replicate.
  - eexists. by rewrite fmap_replicate.
Qed.

(** X5.  Under the conditions of X4, when the query variable is itself among
    the evidence variables, all entries of the list [VE] returns are equal:
    the observed value of the query variable gets no more weight than the
    other values of its domain. *)
Theorem VE_query_in_evidence (h : heap) (Net : BN) (QueryVar : nat)
    (EvidenceVars : list nat) :
  QueryVar ∈ EvidenceVars →
  factors Net ≠ [] →
  (∀ f, f ∈ factors Net → NoDup (get_scope f) ∧ wf_factor h f) →
  (∀ ev, ev ∈ EvidenceVars → (∃ f, f ∈ factors Net ∧ ev ∈ get_scope f) →
         ∃ val, get_evidence h ev = Ok val ∧ val ∈ domain h ev) →
  ∃ p h', VE Net QueryVar EvidenceVars h
          = (Ok (replicate (length (domain h QueryVar)) p), h').
Proof.
  intros HQ Hne Hgood Hev.
  destruct (VE_evidence_correct h Net QueryVar EvidenceVars Hne Hgood Hev) as (h' & Hrun).
  set (G := λ σ : assignment, joint h (factors Net) (with_evidence h EvidenceVars σ)).
  set (c := sum_over h (hidden_variables (factors Net) QueryVar EvidenceVars) G ∅).
  destruct (normalize_replicate (length (domain h QueryVar)) c) as (p & Hp).
  exists p, h'. rewrite Hrun, <- Hp. unfold conditional_brute_force. do 3 f_equal.
  apply const_fmap. intros i q _. fold G. unfold c.
  apply sum_over_insert_irrelevant. intros σ. unfold G. by rewrite with_evidence_elem.
Qed.

Lemma VE_query_in_evidence_witness :
  ∃ p h', VE QXNet vQ [vQ] (set_evidence vQ (VStr "a") qx_heap).2
          = (Ok (replicate (length (domain (set_evidence vQ (VStr "a") qx_heap).2 vQ)) p), h').
Proof.
  apply (VE_query_in_evidence (set_evidence vQ (VStr "a") qx_heap).2 QXNet vQ [vQ]).
  - left.
  - done.
  - intros f Hf. repeat (apply elem_of_cons in Hf as [->|Hf]);
      [..|by apply elem_of_nil in Hf]; (split; [vm_compute; repeat constructor; set_solver|]);
      vm_compute; reflexivity.
  - intros ev ->%list_elem_of_singleton _. exists (VStr "a").
    split; [vm_compute; reflexivity|]. vm_compute. set_solver.
Defined.

(** ** Errors of the factor operations and of [VE] *)

Lemma py_remove_elem {A} `{EqDecision A} (l : list A) (x : A) :
  x ∈ l → ∃ l', py_remove l x = Ok l'.
Proof.
  induction l as [|y l IH]; [by intros ?%elem_of_nil|]. simpl.
  destruct (decide (y = x)) as [->|Hne]; [by eexists|].
  intros [->|Hx]%elem_of_cons; [done|]. destruct (IH Hx) as (l' & ->). by eexists.
Qed.

Lemma restrict_factor_bad_value (f : Factor) (var : nat) (value : pyval) (h : heap) :
  var ∈ get_scope f → value ∉ domain h var →
  restrict_factor f var value h = (Raise ValueError, h).
Proof.
  intros Hvar Hvalue. unfold restrict_factor.
  destruct (py_remove_elem _ _ Hvar) as (scope & Hrem).
  unfold bind at 1, lift at 1. rewrite Hrem. unfold bind at 1, get at 1.
  apply bind_raise. unfold set_assignment, value_index.
  by rewrite py_index_not_elem.
Qed.

Lemma VE_restrict_loop_raises (ev : nat) (value : pyval) : ∀ (fs : list Factor) (h : heap),
  (∃ f, f ∈ fs ∧ ev ∈ get_scope f) →
  get_evidence h ev = Ok value → value ∉ domain h ev →
  mapM_ (λ factor,
      if decide (ev ∈ get_scope factor) then
        h <- get ;;
        value <- lift (get_evidence h ev) ;;
        restrict_factor factor ev value
      else ret factor) fs h = (Raise ValueError, h).
Proof.
  induction fs as [|f fs IH]; intros h (g & Hg & Hv) Hget Hvalue.
  - by apply elem_of_nil in Hg.
  - cbn [mapM_]. destruct (decide (ev ∈ get_scope f)) as [Hin|Hnin].
    + apply bind_raise. unfold bind at 1, get at 1, bind at 1, lift at 1.
      rewrite Hget. by apply restrict_factor_bad_value.
    + unfold bind at 1, ret at 1. apply bind_raise. apply IH; [|done|done].
      apply elem_of_cons in Hg as [->|Hg]; [done|]. by exists g.
Qed.

Lemma foldM_app {S A B} (body : B → A → M S B) (l1 l2 : list A) : ∀ b s,
  foldM body (l1 ++ l2) b s = bind (foldM body l1 b) (foldM body l2) s.
Proof.
  induction l1 as [|a l1 IH]; intros b s; [done|].
  cbn [app foldM]. unfold bind at 1 2 3.
  destruct (body b a s) as [[b1|e] s1]; [|done]. apply IH.
Qed.

(** X6.  An evidence variable whose evidence was never set makes [VE] raise
    [ValueError]: when the variable occurs in a scope, its [get_evidence] is
    [None], and the restriction to [None] fails at [value_index] unless
    [None] is a value of the domain.  The evidence variables listed before it
    are as in X4. *)
Theorem VE_unset_evidence (h : heap) (Net : BN) (QueryVar : nat)
    (Ev1 : list nat) (ev : nat) (Ev2 : list nat) :
  (∀ f, f ∈ factors Net → NoDup (get_scope f) ∧ wf_factor h f) →
  (∀ e, e ∈ Ev1 → (∃ f, f ∈ factors Net ∧ e ∈ get_scope f) →
        ∃ val, get_evidence h e = Ok val ∧ val ∈ domain h e) →
  ev ∉ Ev1 → (∃ f, f ∈ factors Net ∧ ev ∈ get_scope f) →
  evidence_index (obj h ev) < 0 → VNone ∉ domain h ev →
  (VE Net QueryVar (Ev1 ++ ev :: Ev2) h).1 = Raise ValueError.
Proof.
  intros Hgood Hev1 Hnin Hex Hidx Hnone.
  destruct (VE_evidence_loop_correct Ev1 (factors Net) h Hgood Hev1)
    as (fs1 & h1 & Hrun1 & Hdom1 & Hgood1 & Hsc1 & _).
  assert (only_assignments (scan (factors Net)) h h1) as Ho1.
  { eapply (VE_evidence_loop_only (scan (factors Net))); [|exact Hrun1].
    intros f v Hf Hv. apply scan_elem. by exists f. }
  unfold VE. unfold bind at 1. rewrite foldM_app, (bind_ok _ _ _ _ _ Hrun1).
  cbn [foldM]. rewrite (bind_raise _ _ _ ValueError h1); [done|].
  apply (VE_restrict_loop_raises ev VNone).
  - by apply Hsc1.
  - rewrite (get_evidence_only _ _ _ _ Ho1). unfold get_evidence.
    by rewrite decide_False by lia.
  - by rewrite (domain_same h h1 Hdom1).
Qed.

Lemma VE_unset_evidence_witness :
  (VE ExampleBN vG ([vS] ++ vW :: []) (set_evidence vS (VStr "-s") ex_heap).2).1
  = Raise ValueError.
Proof.
  apply (VE_unset_evidence (set_evidence vS (VStr "-s") ex_heap).2 ExampleBN vG [vS] vW []).
  - intros f Hf. repeat (apply elem_of_cons in Hf as [->|Hf]);
      [..|by apply elem_of_nil in Hf]; (split; [vm_compute; repeat constructor; set_solver|]);
      vm_compute; reflexivity.
  - intros ev ->%list_elem_of_singleton _. exists (VStr "-s").
    split; [vm_compute; reflexivity|]. vm_compute. set_solver.
  - vm_compute. set_solver.
  - exists FW. split; [|vm_compute; set_solver].
    unfold ExampleBN, factors. simpl. set_solver.
  - vm_compute. reflexivity.
  - vm_compute. set_solver.
Defined.

Lemma sum_out_variable_not_in_scope (f : Factor) (var : nat) (h : heap) :
  var ∉ get_scope f → sum_out_variable f var h = (Raise ValueError, h).
Proof.
  intros Hvar. unfold sum_out_variable. apply bind_raise.
  unfold lift. by rewrite py_remove_not_elem.
Qed.

(** X7.  The two ways the factor operations fail before they write anything:
    [sum_out_variable] on a variable outside the scope raises [ValueError]
    (at [scope.remove]), and [restrict_factor] to a value outside the
    variable's domain raises [ValueError] (at [set_assignment]); in both
    cases the store is left exactly as it was. *)
Theorem factor_operations_raise (f : Factor) (var var' : nat) (value : pyval) (h : heap) :
  var ∉ get_scope f → var' ∈ get_scope f → value ∉ domain h var' →
  sum_out_variable f var h = (Raise ValueError, h) ∧
  restrict_factor f var' value h = (Raise ValueError, h).
Proof.
  intros Hvar Hvar' Hvalue.
  split; [by apply sum_out_variable_not_in_scope|by apply restrict_factor_bad_value].
Qed.

Lemma factor_operations_raise_witness :
  sum_out_variable FE vB ex_heap = (Raise ValueError, ex_heap) ∧
  restrict_factor FE vE (VStr "maybe") ex_heap = (Raise ValueError, ex_heap).
Proof.
  apply (factor_operations_raise FE vB vE (VStr "maybe") ex_heap);
    vm_compute; set_solver.
Defined.

(** ** Tables: [Factor.__init__], [add_values], [get_value] *)

Lemma get_value_row (h : heap) (F : Factor) (vals : list pyval) :
  good_factor h F → row_for h (get_scope F) vals →
  get_value h F vals = Ok (table_at h F (positions h (assign (get_scope F) vals))).
Proof.
  intros [Hnd Hwf] Hrow. pose proof (Forall2_length _ _ _ Hrow) as Hlen.
  pose proof (value_at_valid h F (assign (get_scope F) vals) Hwf) as Hv.
  unfold value_at in Hv. rewrite (assign_values _ _ Hnd Hlen) in Hv.
  apply Hv. by apply assign_valid.
Qed.

Lemma add_values_row_run (h : heap) (F : Factor) (vals : list pyval) (x : Qc) :
  good_factor h F → row_for h (get_scope F) vals →
  add_values_row h F (vals, x)
  = Ok (write_at h (λ _, x) F (positions h (assign (get_scope F) vals))).
Proof.
  intros [Hnd Hwf] Hrow. pose proof (Forall2_length _ _ _ Hrow) as Hlen.
  assert (valid_on h (assign (get_scope F) vals) (get_scope F)) as Hσ
    by (by apply assign_valid).
  pose proof (row_index_valid h _ (get_scope F) 0 Hσ) as E.
  rewrite (assign_values _ _ Hnd Hlen) in E.
  unfold add_values_row. cbn [fst snd]. unfold get_scope in E at 1. rewrite E.
  cbn [mbind Res_bind]. rewrite py_setitem_Ok; [done|].
  apply hidx_table_bounds; [done|]. by apply positions_bounds.
Qed.

Lemma write_at_wf h g F ρ : wf_factor h F → wf_factor h (write_at h g F ρ).
Proof. unfold wf_factor, write_at. cbn. by rewrite length_insert. Qed.

Lemma table_at_write_eq h g (F : Factor) ρ :
  wf_factor h F → (∀ v, v ∈ f_scope F → 0 ≤ ρ v < domain_size h v) →
  table_at h (write_at h g F ρ) ρ = g ρ.
Proof.
  intros Hwf Hρ. unfold table_at, write_at. cbn [f_values f_scope].
  rewrite list_lookup_insert_eq; [done|].
  pose proof (hidx_table_bounds h ρ F Hwf Hρ). lia.
Qed.

Lemma table_at_write_ne h g (F : Factor) ρ ρ' :
  (∀ v, v ∈ f_scope F → 0 ≤ ρ v < domain_size h v) →
  (∀ v, v ∈ f_scope F → 0 ≤ ρ' v < domain_size h v) →
  (∃ v, v ∈ f_scope F ∧ ρ v ≠ ρ' v) →
  table_at h (write_at h g F ρ) ρ' = table_at h F ρ'.
Proof.
  intros Hρ Hρ' (v & Hv & Hne). unfold table_at, write_at. cbn [f_values f_scope].
  rewrite list_lookup_insert_ne; [done|]. intros Heq. apply Hne.
  pose proof (hidx_bounds h ρ (f_scope F) 0 Hρ).
  pose proof (hidx_bounds h ρ' (f_scope F) 0 Hρ').
  pose proof (psize_nonneg h (f_scope F)).
  apply (hidx_inj h ρ ρ' (f_scope F) 0 0); [done|done|lia|done].
Qed.

Lemma rows_differ (h : heap) (scope : list nat) (vals vals' : list pyval) :
  NoDup scope → row_for h scope vals → row_for h scope vals' → vals ≠ vals' →
  ∃ v, v ∈ scope ∧
       positions h (assign scope vals) v ≠ positions h (assign scope vals') v.
Proof.
  intros Hnd Hrow Hrow' Hne.
  pose proof (Forall2_length _ _ _ Hrow) as Hlen.
  pose proof (Forall2_length _ _ _ Hrow') as Hlen'.
  pose proof (assign_valid h scope vals Hnd Hrow) as Hσ.
  pose proof (assign_valid h scope vals' Hnd Hrow') as Hσ'.
  destruct (decide (Exists (λ v, positions h (assign scope vals) v
                                 ≠ positions h (assign scope vals') v) scope))
    as [Hex|Hall].
  - apply Exists_exists in Hex as (v & Hv & Hd). by exists v.
  - exfalso. apply Hne.
    rewrite <- (assign_values scope vals Hnd Hlen), <- (assign_values scope vals' Hnd Hlen').
    apply list_fmap_ext. intros i v Hv%list_elem_of_lookup_2.
    apply (vidx_inj h v); [by apply Hσ|by apply Hσ'|].
    destruct (decide (vidx h v (assign scope vals !!! v) = vidx h v (assign scope vals' !!! v)))
      as [?|Hd]; [done|].
    exfalso. apply Hall, Exists_exists. by exists v.
Qed.

Lemma add_values_rows (h : heap) (rows : list (list pyval * Qc)) : ∀ F : Factor,
  good_factor h F →
  (∀ row, row ∈ rows → row_for h (get_scope F) row.1) →
  ∃ F', add_values h F rows = Ok F' ∧
    get_scope F' = get_scope F ∧ f_name F' = f_name F ∧ good_factor h F' ∧
    ∀ vals, row_for h (get_scope F) vals →
      get_value h F' vals
      = Ok (last_row rows vals (table_at h F (positions h (assign (get_scope F) vals)))).
Proof.
  induction rows as [|[vals0 x] rows IH]; intros F HgF Hrows.
  - exists F. split_and!; try done. intros vals Hvals. by apply get_value_row.
  - assert (row_for h (get_scope F) vals0) as Hrow0 by (apply (Hrows (vals0, x)); left).
    set (F1 := write_at h (λ _, x) F (positions h (assign (get_scope F) vals0))).
    assert (good_factor h F1) as HgF1.
    { destruct HgF as [Hnd Hwf]. split; [done|by apply write_at_wf]. }
    destruct (IH F1 HgF1) as (F' & Hrun & Hsc & Hname & HgF' & Hval).
    { intros row Hrow. apply Hrows. by right. }
    exists F'. split_and!; try done.
    + cbn [add_values]. rewrite add_values_row_run by done. exact Hrun.
    + intros vals Hvals. rewrite (Hval vals Hvals). f_equal.
      cbn [last_row foldl fst snd]. unfold last_row. f_equal.
      destruct HgF as [Hnd Hwf].
      assert (∀ vs, row_for h (get_scope F) vs →
                ∀ v, v ∈ f_scope F →
                  0 ≤ positions h (assign (get_scope F) vs) v < domain_size h v) as Hb.
      { intros vs Hvs. apply positions_bounds. by apply assign_valid. }
      change (get_scope F1) with (get_scope F).
      destruct (decide (vals0 = vals)) as [->|Hne].
      * unfold F1. by rewrite table_at_write_eq by auto.
      * unfold F1. apply table_at_write_ne; [by apply Hb|by apply Hb|].
        by apply rows_differ.
Qed.

(** X8.  A factor created by [Factor.__init__] and filled by [add_values]
    holds, at every row of values of its scope, the number of the last row
    given for these values, and 0 at the rows that were never given: later
    rows overwrite earlier ones, and an incomplete list of rows leaves zeros.
    ([scope] is duplicate-free and every given row lists values of the
    domains, in scope order.) *)
Theorem add_values_last_row_wins (h : heap) (name : string) (scope : list nat)
    (rows : list (list pyval * Qc)) :
  NoDup scope →
  (∀ row, row ∈ rows → row_for h scope row.1) →
  ∃ F, add_values h (Factor_init h name scope) rows = Ok F ∧
    get_scope F = scope ∧
    length (get_values F) = Z.to_nat (table_size h scope) ∧
    ∀ vals, row_for h scope vals → get_value h F vals = Ok (last_row rows vals 0%Qc).
Proof.
  intros Hnd Hrows.
  assert (good_factor h (Factor_init h name scope)) as Hg
    by (split; [done|apply Factor_init_wf]).
  destruct (add_values_rows h rows _ Hg Hrows) as (F & Hrun & Hsc & _ & [_ Hwf] & Hval).
  exists F. split_and!; [done|done| |].
  { unfold wf_factor in Hwf. unfold get_scope in Hsc. by rewrite Hsc in Hwf. }
  intros vals Hvals. rewrite (Hval vals Hvals). do 2 f_equal.
  unfold table_at, Factor_init. cbn [f_values f_scope].
  destruct (replicate _ _ !! _) as [x|] eqn:E; [|done].
  by apply lookup_replicate in E as [-> _].
Qed.

Lemma add_values_last_row_wins_witness :
  ∃ F, add_values qx_heap (Factor_init qx_heap "P(Q)" [vQ])
         [([VStr "a"], qc 1 4); ([VStr "a"], qc 1 1)] = Ok F ∧
    get_scope F = [vQ] ∧
    length (get_values F) = Z.to_nat (table_size qx_heap [vQ]) ∧
    ∀ vals, row_for qx_heap [vQ] vals →
      get_value qx_heap F vals
      = Ok (last_row [([VStr "a"], qc 1 4); ([VStr "a"], qc 1 1)] vals 0%Qc).
Proof.
  apply (add_values_last_row_wins qx_heap "P(Q)" [vQ]).
  - repeat constructor. set_solver.
  - intros row Hrow. repeat (apply elem_of_cons in Hrow as [->|Hrow]);
      [..|by apply elem_of_nil in Hrow];
      (constructor; [vm_compute; set_solver|constructor]).
Defined.

Lemma row_index_short (h : heap) : ∀ (scope : list nat) (vals : list pyval) (acc : Z),
  row_for h (take (length vals) scope) vals → (length vals < length scope)%nat →
  row_index h scope vals acc = Raise IndexError.
Proof.
  induction scope as [|v scope IH]; intros vals acc Hrow Hlen; [cbn in Hlen; lia|].
  destruct vals as [|x vals]; [done|].
  cbn [length take] in Hrow. apply Forall2_cons in Hrow as [Hx Hrow].
  cbn [row_index]. rewrite (py_getitem_Ok _ 0 x) by done. cbn [mbind Res_bind].
  destruct (value_index_elem h v x Hx) as (i & ->). cbn [mbind Res_bind tail].
  apply IH; [done|]. cbn in Hlen. lia.
Qed.

Lemma row_index_extra (h : heap) (extra : list pyval) :
  ∀ (scope : list nat) (vals : list pyval) (acc : Z),
  (length scope ≤ length vals)%nat →
  row_index h scope (vals ++ extra) acc
  = '(i, rest) ← row_index h scope vals acc; Ok (i, rest ++ extra).
Proof.
  induction scope as [|v scope IH]; intros vals acc Hlen; [done|].
  destruct vals as [|x vals]; [cbn in Hlen; lia|].
  cbn [row_index app]. rewrite !(py_getitem_Ok _ 0 x) by done. cbn [mbind Res_bind].
  destruct (value_index h v x) as [i|e]; cbn [mbind Res_bind tail]; [|done].
  apply IH. cbn in Hlen. lia.
Qed.

Lemma row_index_foreign (h : heap) (x : pyval) (rest : list pyval) :
  ∀ (scope : list nat) (pre : list pyval) (v : nat) (acc : Z),
  row_for h (take (length pre) scope) pre → scope !! length pre = Some v →
  x ∉ domain h v →
  row_index h scope (pre ++ x :: rest) acc = Raise ValueError.
Proof.
  induction scope as [|v0 scope IH]; intros pre v acc Hrow Hv Hx; [done|].
  destruct pre as [|y pre].
  - cbn in Hv. injection Hv as ->. cbn [row_index app].
    rewrite (py_getitem_Ok _ 0 x) by done. cbn [mbind Res_bind].
    unfold value_index. by rewrite py_index_not_elem.
  - cbn [length take] in Hrow. apply Forall2_cons in Hrow as [Hy Hrow].
    cbn [row_index app]. rewrite (py_getitem_Ok _ 0 y) by done. cbn [mbind Res_bind].
    destruct (value_index_elem h v0 y Hy) as (i & ->). cbn [mbind Res_bind tail].
    by eapply IH.
Qed.

(** X9.  [get_value] reads its argument by position.  Values beyond the
    length of the scope are ignored: on an empty scope every list reads the
    one cell of the table.  A list shorter than the scope, of values of the
    right domains, raises [IndexError]; and a value that is not in the domain
    of the variable at its position, after values that are, raises
    [ValueError].  The table is not consulted in the two failing cases. *)
Theorem get_value_by_position (h : heap) (f : Factor) :
  (∀ vals extra : list pyval,
     (length (get_scope f) ≤ length vals)%nat →
     get_value h f (vals ++ extra) = get_value h f vals) ∧
  (∀ short : list pyval,
     row_for h (take (length short) (get_scope f)) short →
     (length short < length (get_scope f))%nat →
     get_value h f short = Raise IndexError) ∧
  (∀ (pre rest : list pyval) (x : pyval) (v : nat),
     row_for h (take (length pre) (get_scope f)) pre →
     get_scope f !! length pre = Some v → x ∉ domain h v →
     get_value h f (pre ++ x :: rest) = Raise ValueError).
Proof.
  unfold get_value. split_and!.
  - intros vals extra Hlen. rewrite row_index_extra by done.
    by destruct (row_index _ _ vals 0) as [[i r]|e].
  - intros short Hshort Hlt. by rewrite row_index_short.
  - intros pre rest x v Hpre Hv Hx. by rewrite (row_index_foreign h x rest _ pre v).
Qed.

Lemma get_value_by_position_witness :
  (get_value ex_heap FS ([VStr "s"; VStr "e"; VStr "b"] ++ [VStr "g"])
   = get_value ex_heap FS [VStr "s"; VStr "e"; VStr "b"] ∧
   get_value ex_heap FS [VStr "s"] = Raise IndexError ∧
   get_value ex_heap FS ([VStr "s"] ++ VStr "g" :: [VStr "b"]) = Raise ValueError) ∧
  get_value ex_heap (mkFactor "Factor" [] [qc 1 2]) ([] ++ [VStr "g"; VStr "w"])
  = get_value ex_heap (mkFactor "Factor" [] [qc 1 2]) [].
Proof.
  split; [split_and!|].
  - apply (get_value_by_position ex_heap FS). vm_compute. lia.
  - apply (get_value_by_position ex_heap FS); [|vm_compute; lia].
    constructor; [vm_compute; set_solver|constructor].
  - apply (proj2 (proj2 (get_value_by_position ex_heap FS)) [VStr "s"] [VStr "b"] (VStr "g") vE).
    + constructor; [vm_compute; set_solver|constructor].
    + reflexivity.
    + vm_compute. set_solver.
  - apply (get_value_by_position ex_heap (mkFactor "Factor" [] [qc 1 2])). vm_compute. lia.
Defined.

Lemma row_index_current (h : heap) (σ : assignment) : ∀ (scope : list nat) (acc : Z),
  (∀ v, v ∈ scope → value_index h v (σ !!! v) = Ok (get_assignment_index h v)) →
  row_index h scope ((λ v, σ !!! v) <$> scope) acc
  = Ok (foldl (λ index v, index * domain_size h v + get_assignment_index h v) acc scope, []).
Proof.
  induction scope as [|v scope IH]; intros acc Hσ; [done|].
  cbn [row_index fmap list_fmap]. rewrite (py_getitem_Ok _ 0 (σ !!! v)) by done.
  cbn [mbind Res_bind]. rewrite Hσ by left. cbn [mbind Res_bind tail foldl].
  apply IH. intros w Hw. apply Hσ. by right.
Qed.

(** X10.  The current-assignment interface agrees with the list interface:
    when every variable of the scope is assigned (as [set_assignment] does)
    the index of its value under [σ], [get_value_at_current_assignments]
    returns what [get_value] returns on the values of [σ] in scope order, and
    [add_value_at_current_assignment] has the effect of [add_values] on the
    one row of these values: the same table, or the same exception. *)
Theorem current_assignment_interface (h : heap) (f : Factor) (σ : assignment) (x : Qc) :
  (∀ v, v ∈ get_scope f → value_index h v (σ !!! v) = Ok (get_assignment_index h v)) →
  get_value_at_current_assignments h f
  = get_value h f ((λ v, σ !!! v) <$> get_scope f) ∧
  add_value_at_current_assignment h f x
  = add_values h f [((λ v, σ !!! v) <$> get_scope f, x)].
Proof.
  intros Hσ. pose proof (row_index_current h σ (get_scope f) 0 Hσ) as E.
  unfold get_scope in E. split.
  - unfold get_value_at_current_assignments, get_value, get_scope. by rewrite E.
  - unfold add_value_at_current_assignment, add_values, add_values_row, get_scope.
    cbn [fst snd]. rewrite E. cbn [mbind Res_bind].
    by destruct (py_setitem _ _ _).
Qed.

Lemma current_assignment_interface_witness :
  get_value_at_current_assignments (set_assignment vQ (VStr "b") qx_heap).2 FQ
  = get_value (set_assignment vQ (VStr "b") qx_heap).2 FQ
      ((λ v, ({[vQ := VStr "b"]} : assignment) !!! v) <$> get_scope FQ) ∧
  add_value_at_current_assignment (set_assignment vQ (VStr "b") qx_heap).2 FQ (qc 1 3)
  = add_values (set_assignment vQ (VStr "b") qx_heap).2 FQ
      [((λ v, ({[vQ := VStr "b"]} : assignment) !!! v) <$> get_scope FQ, qc 1 3)].
Proof.
  apply (current_assignment_interface (set_assignment vQ (VStr "b") qx_heap).2 FQ
           {[vQ := VStr "b"]} (qc 1 3)).
  intros v ->%list_elem_of_singleton. vm_compute. reflexivity.
Defined.

(** ** Variables: assignment, evidence, domain *)

Lemma get_assignment_insert_ne (h : heap) v w o :
  v ≠ w → get_assignment (<[v := o]> h) w = get_assignment h w.
Proof. intros Hne. unfold get_assignment. by rewrite obj_insert_ne. Qed.

Lemma get_evidence_insert_ne (h : heap) v w o :
  v ≠ w → get_evidence (<[v := o]> h) w = get_evidence h w.
Proof. intros Hne. unfold get_evidence. by rewrite obj_insert_ne. Qed.

(** X11.  The assignment and the evidence of a variable are two independent
    slots.  For a value of the domain, [set_assignment] makes
    [get_assignment] return the value and [set_evidence] makes [get_evidence]
    return it; neither changes what the other getter returns, for this or any
    other variable, nor the own getter of another variable.  For a value
    outside the domain both raise [ValueError] and change nothing. *)
Theorem assignment_and_evidence_slots (h : heap) (v : nat) (val bad : pyval) :
  val ∈ domain h v → bad ∉ domain h v →
  ∃ ha he,
    set_assignment v val h = (Ok tt, ha) ∧ set_evidence v val h = (Ok tt, he) ∧
    get_assignment ha v = Ok val ∧ get_evidence he v = Ok val ∧
    value_index ha v val = Ok (get_assignment_index ha v) ∧
    (∀ w, get_evidence ha w = get_evidence h w) ∧
    (∀ w, get_assignment he w = get_assignment h w) ∧
    (∀ w, w ≠ v → get_assignment ha w = get_assignment h w) ∧
    (∀ w, w ≠ v → get_evidence he w = get_evidence h w) ∧
    set_assignment v bad h = (Raise ValueError, h) ∧
    set_evidence v bad h = (Raise ValueError, h).
Proof.
  intros Hval Hbad.
  pose proof (vidx_Ok h v val Hval) as Hidx.
  pose proof (vidx_bounds h v val Hval) as Hb.
  pose proof (vidx_lookup h v val Hval) as Hl.
  exists (<[v := with_assignment_index (obj h v) (vidx h v val)]> h),
         (<[v := with_evidence_index (obj h v) (vidx h v val)]> h).
  unfold set_assignment, set_evidence. rewrite Hidx. split_and!; try done.
  - unfold get_assignment. rewrite obj_insert_eq. cbn.
    rewrite decide_True by lia. by apply py_getitem_Ok; [|lia].
  - unfold get_evidence. rewrite obj_insert_eq. cbn.
    rewrite decide_True by lia. by apply py_getitem_Ok; [|lia].
  - unfold value_index, get_assignment_index. by rewrite obj_insert_eq.
  - intros w. destruct (decide (v = w)) as [->|Hne]; [|by apply get_evidence_insert_ne].
    unfold get_evidence. by rewrite obj_insert_eq.
  - intros w. destruct (decide (v = w)) as [->|Hne]; [|by apply get_assignment_insert_ne].
    unfold get_assignment. by rewrite obj_insert_eq.
  - intros w Hne. by apply get_assignment_insert_ne.
  - intros w Hne. by apply get_evidence_insert_ne.
  - unfold value_index. by rewrite py_index_not_elem.
  - unfold value_index. by rewrite py_index_not_elem.
Qed.

Lemma assignment_and_evidence_slots_witness :
  ∃ ha he,
    set_assignment vS (VStr "-s") ex_heap = (Ok tt, ha) ∧
    set_evidence vS (VStr "-s") ex_heap = (Ok tt, he) ∧
    get_assignment ha vS = Ok (VStr "-s") ∧ get_evidence he vS = Ok (VStr "-s") ∧
    value_index ha vS (VStr "-s") = Ok (get_assignment_index ha vS) ∧
    (∀ w, get_evidence ha w = get_evidence ex_heap w) ∧
    (∀ w, get_assignment he w = get_assignment ex_heap w) ∧
    (∀ w, w ≠ vS → get_assignment ha w = get_assignment ex_heap w) ∧
    (∀ w, w ≠ vS → get_evidence he w = get_evidence ex_heap w) ∧
    set_assignment vS VNone ex_heap = (Raise ValueError, ex_heap) ∧
    set_evidence vS VNone ex_heap = (Raise ValueError, ex_heap).
Proof.
  apply (assignment_and_evidence_slots ex_heap vS (VStr "-s") VNone);
    vm_compute; set_solver.
Defined.

Lemma reset_variables_obj (vs : list nat) : ∀ (h : heap) (v : nat),
  obj (for_ (λ v h, (Ok tt,
         <[v := with_assignment_index (with_evidence_index (obj h v) (-1)) (-1)]> h)) vs h).2 v
  = if decide (v ∈ vs)
    then mkVariable (v_name (obj h v)) (v_dom (obj h v)) (-1) (-1)
           (reset_evidence_attr (obj h v))
    else obj h v.
Proof.
  induction vs as [|a vs IH]; intros h v; cbn [for_].
  - rewrite decide_False by apply not_elem_of_nil. done.
  - unfold bind at 1. rewrite IH. destruct (decide (a = v)) as [->|Hne].
    + rewrite obj_insert_eq. rewrite (decide_True (P := v ∈ v :: vs)) by left.
      by case_decide.
    + rewrite obj_insert_ne by done.
      destruct (decide (v ∈ vs)) as [Hin|Hnin].
      * rewrite decide_True by (by right). done.
      * rewrite decide_False; [done|]. rewrite not_elem_of_cons. naive_solver.
Qed.

(** X12.  [reset_variables] never raises; afterwards every variable of the
    network has neither evidence nor assignment ([get_evidence] and
    [get_assignment] return [None]); names and domains are kept, and
    variables that are not in the network's list are left as they were. *)
Theorem reset_variables_clears (Net : BN) (h : heap) :
  (reset_variables Net h).1 = Ok tt ∧
  (∀ v, v ∈ variables Net →
        get_evidence (reset_variables Net h).2 v = Ok VNone ∧
        get_assignment (reset_variables Net h).2 v = Ok VNone) ∧
  (∀ v, domain (reset_variables Net h).2 v = domain h v ∧
        v_name (obj (reset_variables Net h).2 v) = v_name (obj h v)) ∧
  (∀ v, v ∉ variables Net → obj (reset_variables Net h).2 v = obj h v).
Proof.
  unfold reset_variables, variables. split_and!.
  - generalize h. induction (bn_Variables Net) as [|a vs IH]; intros h0; [done|].
    cbn [for_]. unfold bind at 1. apply IH.
  - intros v Hv. unfold get_evidence, get_assignment.
    rewrite reset_variables_obj, (decide_True (P := v ∈ bn_Variables Net)) by done. cbn.
    by rewrite decide_False by lia.
  - intros v. unfold domain. rewrite reset_variables_obj. by case_decide.
  - intros v Hv. by rewrite reset_variables_obj, (decide_False (P := v ∈ bn_Variables Net)).
Qed.

Lemma index_from_app_l {A} `{EqDecision A} (x : A) (l l' : list A) : ∀ k i,
  index_from x l k = Some i → index_from x (l ++ l') k = Some i.
Proof.
  induction l as [|y l IH]; intros k i; simpl; [done|].
  destruct (decide (y = x)); [done|]. apply IH.
Qed.

Lemma py_getitem_app_l {A} (l l' : list A) (i : Z) (x : A) :
  0 ≤ i → py_getitem l i = Ok x → py_getitem (l ++ l') i = Ok x.
Proof.
  intros Hi. unfold py_getitem. case_decide as Hr; [|case_decide; [lia|done]].
  destruct (l !! Z.to_nat i) as [a|] eqn:Hl; [|done]. intros [= ->].
  rewrite decide_True by (rewrite length_app; lia).
  by rewrite (lookup_app_l_Some _ _ _ _ Hl).
Qed.

(** X13.  [add_domain_values] appends to the domain and never raises.  The
    values that were in the domain keep their index, an evidence or
    assignment that [get_evidence] or [get_assignment] returned is still
    returned, and no other variable changes. *)
Theorem add_domain_values_keeps_positions (h : heap) (v : nat) (values : list pyval) :
  (add_domain_values v values h).1 = Ok tt ∧
  domain (add_domain_values v values h).2 v = domain h v ++ values ∧
  (∀ val, val ∈ domain h v →
          value_index (add_domain_values v values h).2 v val = value_index h v val) ∧
  (∀ val, get_evidence h v = Ok val →
          get_evidence (add_domain_values v values h).2 v = Ok val) ∧
  (∀ val, get_assignment h v = Ok val →
          get_assignment (add_domain_values v values h).2 v = Ok val) ∧
  (∀ w, w ≠ v → obj (add_domain_values v values h).2 w = obj h w).
Proof.
  unfold add_domain_values. cbn [fst snd]. split_and!.
  - done.
  - unfold domain. by rewrite obj_insert_eq.
  - intros val Hval. unfold value_index, py_index. rewrite obj_insert_eq. cbn.
    destruct (index_from val (v_dom (obj h v)) 0) as [i|] eqn:Hi.
    + by rewrite (index_from_app_l _ _ _ _ _ Hi).
    + by apply index_from_None in Hi.
  - intros val. unfold get_evidence. rewrite obj_insert_eq. cbn.
    case_decide; [|done]. apply py_getitem_app_l. lia.
  - intros val. unfold get_assignment. rewrite obj_insert_eq. cbn.
    case_decide; [|done]. apply py_getitem_app_l. lia.
  - intros w Hne. by apply obj_insert_ne.
Qed.

Lemma psize_grow (h h' : heap) (scope : list nat) :
  (∀ w, w ∈ scope → 0 < domain_size h w ≤ domain_size h' w) →
  0 < psize h scope ≤ psize h' scope ∧
  ((∃ v, v ∈ scope ∧ domain_size h v < domain_size h' v) →
   psize h scope < psize h' scope).
Proof.
  induction scope as [|w scope IH]; intros Hsz.
  - split; [done|]. by intros (v & ?%elem_of_nil & _).
  - destruct IH as [Hp Hst]; [intros u Hu; apply Hsz; by right|].
    pose proof (Hsz w ltac:(left)) as Hw.
    assert (psize h (w :: scope) = domain_size h w * psize h scope) as -> by done.
    assert (psize h' (w :: scope) = domain_size h' w * psize h' scope) as -> by done.
    split; [nia|].
    intros (v & [->|Hv]%elem_of_cons & Hlt); [nia|].
    assert (psize h scope < psize h' scope) by (apply Hst; by exists v). nia.
Qed.

(** X14.  [add_domain_values] does not resize the tables of the factors that
    exist: after values are added to a variable of its scope, a factor whose
    table had the size of its scope (all domains non-empty) has a table that
    is too short for it. *)
Theorem add_domain_values_stale_tables (h : heap) (v : nat) (values : list pyval)
    (f : Factor) :
  wf_factor h f → v ∈ get_scope f → values ≠ [] →
  (∀ w, w ∈ get_scope f → domain h w ≠ []) →
  (length (get_values f)
   < Z.to_nat (table_size (add_domain_values v values h).2 (get_scope f)))%nat.
Proof.
  intros Hwf Hv Hvalues Hne. unfold wf_factor in Hwf. unfold get_values. rewrite Hwf.
  set (h' := (add_domain_values v values h).2).
  assert (∀ w, domain_size h' w
               = if decide (w = v) then domain_size h w + Z.of_nat (length values)
                 else domain_size h w) as Hsz.
  { intros w. unfold domain_size, h', add_domain_values. cbn [snd].
    case_decide as Hw; [subst w|by rewrite obj_insert_ne].
    rewrite obj_insert_eq. cbn. rewrite length_app. lia. }
  assert (0 < Z.of_nat (length values)) by (destruct values; [done|cbn; lia]).
  destruct (psize_grow h h' (get_scope f)) as [Hp Hst].
  { intros w Hw. specialize (Hne w Hw). rewrite Hsz. unfold domain_size, domain in *.
    destruct (v_dom (obj h w)); [done|]. case_decide; cbn; lia. }
  rewrite !table_size_psize. unfold get_scope in *.
  assert (psize h (f_scope f) < psize h' (f_scope f)); [|lia].
  apply Hst. exists v. split; [done|]. rewrite Hsz, decide_True by done. lia.
Qed.

Lemma add_domain_values_stale_tables_witness :
  (length (get_values FG)
   < Z.to_nat (table_size (add_domain_values vS [VStr "maybe"] ex_heap).2 (get_scope FG)))%nat.
Proof.
  apply (add_domain_values_stale_tables ex_heap vS [VStr "maybe"] FG).
  - vm_compute. reflexivity.
  - vm_compute. set_solver.
  - done.
  - intros w Hw. repeat (apply elem_of_cons in Hw as [->|Hw]);
      [..|by apply elem_of_nil in Hw]; vm_compute; discriminate.
Defined.

(** ** [multiply_factors]: edge cases and the order of the scope *)

Lemma filter_filter_and {A} (P Q : A → Prop) `{∀ x, Decision (P x)} `{∀ x, Decision (Q x)}
    (l : list A) :
  filter P (filter Q l) = filter (λ x, P x ∧ Q x) l.
Proof.
  induction l as [|x l IH]; [done|]. rewrite (filter_cons Q), (filter_cons (λ x, P x ∧ Q x)).
  destruct (decide (Q x)) as [HQ|HQ].
  - rewrite filter_cons. destruct (decide (P x)) as [HP|HP].
    + rewrite decide_True by done. by rewrite IH.
    + rewrite decide_False by naive_solver. done.
  - rewrite decide_False by naive_solver. done.
Qed.

Lemma firsts_app_NoDup (l1 l2 : list nat) :
  NoDup l1 → firsts (l1 ++ l2) = l1 ++ filter (λ y, y ∉ l1) (firsts l2).
Proof.
  induction l1 as [|x l1 IH]; intros Hnd.
  - cbn [app]. symmetry. apply filter_id. intros y _. apply not_elem_of_nil.
  - apply NoDup_cons in Hnd as [Hx Hnd]. cbn [app firsts]. rewrite IH by done.
    rewrite filter_app, filter_filter_and. f_equal. f_equal.
    + apply filter_id. intros y Hy ->. done.
    + apply filter_ext_in. intros y _. rewrite not_elem_of_cons. naive_solver.
Qed.

Lemma firsts_NoDup_id (l : list nat) : NoDup l → firsts l = l.
Proof.
  intros Hnd. rewrite <- (app_nil_r l) at 1. rewrite firsts_app_NoDup by done.
  by rewrite app_nil_r.
Qed.

Lemma scan_app (fs1 fs2 : list Factor) : scan (fs1 ++ fs2) = scan fs1 ++ scan fs2.
Proof.
  unfold scan. induction fs1 as [|f fs1 IH]; [done|].
  cbn [app foldr]. by rewrite IH, app_assoc.
Qed.

Lemma multiply_loop_scope_order (h : heap) (below : list Factor) :
  ∀ (factor1 F : Factor) (L : list nat),
  (∀ f, f ∈ below → NoDup (get_scope f)) →
  get_scope factor1 = firsts L →
  multiply_loop h factor1 below = Ok F →
  get_scope F = firsts (scan (reverse below) ++ L).
Proof.
  induction below as [|f2 below IH]; intros factor1 F L Hnd HL; cbn [multiply_loop].
  - by intros [= <-].
  - destruct (multiply_pair h factor1 f2) as [P|e] eqn:HP; cbn [mbind Res_bind]; [|done].
    intros HF. rewrite reverse_cons, scan_app, <- app_assoc.
    assert (scan [f2] = get_scope f2) as -> by (unfold scan; cbn; by rewrite app_nil_r).
    apply (IH P F (get_scope f2 ++ L)); [intros f Hf; apply Hnd; by right| |done].
    rewrite (multiply_pair_scope _ _ _ _ HP). unfold product_scope. rewrite HL.
    symmetry. apply firsts_app_NoDup, Hnd. left.
Qed.

(** X15.  [multiply_factors] on the empty list raises [IndexError] (at
    [factors.pop()]); on a list of one factor it returns that factor, whatever
    it holds; and whenever it returns on factors with duplicate-free scopes,
    the scope of the product lists the variables of the factors in the order
    of their first occurrence, the factors taken in list order and each scope
    from left to right. *)
Theorem multiply_factors_scope_order (h : heap) (Factors : list Factor) (F : Factor) :
  (∀ f, f ∈ Factors → NoDup (get_scope f)) →
  multiply_factors h Factors = Ok F →
  get_scope F = firsts (scan Factors) ∧
  multiply_factors h [] = Raise IndexError ∧
  (∀ f, multiply_factors h [f] = Ok f).
Proof.
  intros Hnd. unfold multiply_factors at 1.
  destruct (reverse Factors) as [|factor1 below] eqn:Hrev; [done|].
  assert (Factors = reverse below ++ [factor1]) as HFs.
  { by rewrite <- (reverse_involutive Factors), Hrev, reverse_cons. }
  intros HF. split_and!; [|done|done].
  rewrite HFs, scan_app.
  assert (scan [factor1] = get_scope factor1) as -> by (unfold scan; cbn; by rewrite app_nil_r).
  apply (multiply_loop_scope_order h below factor1); [| |done].
  - intros f Hf. apply Hnd. rewrite HFs, elem_of_app, elem_of_reverse. by left.
  - symmetry. apply firsts_NoDup_id, Hnd. rewrite HFs, elem_of_app. right. left.
Qed.

Lemma multiply_factors_scope_order_witness :
  get_scope (mkFactor "Factor" [vQ; vX] [0%Qc; 1%Qc; 0%Qc; 0%Qc]) = firsts (scan [FQ; FX]) ∧
  multiply_factors qx_heap [] = Raise IndexError ∧
  (∀ f, multiply_factors qx_heap [f] = Ok f).
Proof.
  apply (multiply_factors_scope_order qx_heap [FQ; FX]
           (mkFactor "Factor" [vQ; vX] [0%Qc; 1%Qc; 0%Qc; 0%Qc])).
  - intros f Hf. repeat (apply elem_of_cons in Hf as [->|Hf]);
      [..|by apply elem_of_nil in Hf]; vm_compute; repeat constructor; set_solver.
  - vm_compute. apply (f_equal Ok). apply (f_equal (mkFactor _ _)).
    repeat first [reflexivity | apply Qc_is_canon; reflexivity | apply (f_equal2 cons)].
Defined.

(** ** One elimination step *)

(** X16.  [VE_cagan31] eliminates one variable.  When no factor mentions
    the variable, the list of factors is returned as it is and the store is
    not touched.  Otherwise the factors that do not mention it are kept, in
    their order, and one new factor is appended: its scope is duplicate-free
    and holds the other variables of the factors that mention the variable,
    and its table has the size of its scope. *)
Theorem VE_cagan31_eliminates (h : heap) (factors : list Factor) (var : nat) :
  (∀ f, f ∈ factors → NoDup (get_scope f) ∧ wf_factor h f) →
  ((∀ f, f ∈ factors → var ∉ get_scope f) →
   VE_cagan31 factors var h = (Ok factors, h)) ∧
  ((∃ f, f ∈ factors ∧ var ∈ get_scope f) →
   ∃ S h',
     VE_cagan31 factors var h
     = (Ok (filter (λ f, var ∉ get_scope f) factors ++ [S]), h') ∧
     NoDup (get_scope S) ∧ wf_factor h' S ∧
     (∀ v, v ∈ get_scope S ↔
           v ≠ var ∧ ∃ f, f ∈ factors ∧ var ∈ get_scope f ∧ v ∈ get_scope f)).
Proof.
  intros Hgood. unfold VE_cagan31.
  set (lst := filter (λ factor, var ∈ get_scope factor) factors).
  set (others := filter (λ factor, var ∉ get_scope factor) factors).
  assert (Hlst : ∀ f, f ∈ lst ↔ var ∈ get_scope f ∧ f ∈ factors)
    by (intros f; apply (list_elem_of_filter (λ factor, var ∈ get_scope factor))).
  assert (Hothers : ∀ f, f ∈ others ↔ (var ∉ get_scope f) ∧ f ∈ factors)
    by (intros f; apply (list_elem_of_filter (λ factor, var ∉ get_scope factor))).
  split.
  - intros Hnone. destruct lst as [|l0 lst'] eqn:Elst; [done|]. exfalso.
    assert (l0 ∈ l0 :: lst') as [Hin Hl0]%Hlst by left. by apply (Hnone l0).
  - intros (f0 & Hf0 & Hvar0).
    assert (filter (λ factor, factor ∉ lst) factors = others) as Hnew.
    { apply filter_ext_in. intros f Hf. rewrite Hlst. naive_solver. }
    assert (lst ≠ []) as Hne.
    { intros Hnil. assert (f0 ∈ lst) as Hin by (by apply Hlst). rewrite Hnil in Hin.
      by apply elem_of_nil in Hin. }
    destruct (multiply_factors_correct h lst Hne) as (M & HrunM & HgM & HscM & HvalM).
    { intros f [_ Hf]%Hlst. by apply Hgood. }
    destruct (sum_out_variable_value h M var HgM)
      as (S & h' & HrunS & Hdom & HgS & HscS & HvalS).
    { apply HscM. exists f0. split; [by apply Hlst|done]. }
    exists S, h'. split_and!.
    + destruct lst as [|l0 lst'] eqn:Elst; [done|].
      unfold bind at 1, get at 1. unfold bind at 1, lift at 1. rewrite HrunM.
      rewrite Hnew. unfold bind at 1. by rewrite HrunS.
    + apply HgS.
    + apply HgS.
    + intros v. rewrite HscS, HscM. split.
      * intros [(f & [Hv' Hf]%Hlst & Hv) Hne']. split; [done|]. by exists f.
      * intros (Hne' & f & Hf & Hv' & Hv). split; [|done]. exists f. split; [|done].
        by apply Hlst.
Qed.

Lemma VE_cagan31_eliminates_witness :
  VE_cagan31 [FE; FB] vS ex_heap = (Ok [FE; FB], ex_heap) ∧
  ∃ S h', VE_cagan31 [FE; FB] vE ex_heap = (Ok ([FB] ++ [S]), h') ∧ get_scope S = [].
Proof.
  assert (∀ f, f ∈ [FE; FB] → NoDup (get_scope f) ∧ wf_factor ex_heap f) as Hgood.
  { intros f Hf. repeat (apply elem_of_cons in Hf as [->|Hf]);
      [..|by apply elem_of_nil in Hf]; (split; [vm_compute; repeat constructor; set_solver|]);
      vm_compute; reflexivity. }
  split.
  - apply (VE_cagan31_eliminates ex_heap [FE; FB] vS Hgood).
    intros f Hf. repeat (apply elem_of_cons in Hf as [->|Hf]);
      [..|by apply elem_of_nil in Hf]; vm_compute; set_solver.
  - destruct (proj2 (VE_cagan31_eliminates ex_heap [FE; FB] vE Hgood))
      as (S & h' & Hrun & Hnd & _ & Hsc).
    { exists FE. split; [left|vm_compute; set_solver]. }
    exists S, h'. split; [exact Hrun|].
    destruct (get_scope S) as [|v l] eqn:E; [done|]. exfalso.
    destruct (proj1 (Hsc v) ltac:(left)) as (Hne & f & Hf & HvE & Hv).
    repeat (apply elem_of_cons in Hf as [->|Hf]); [..|by apply elem_of_nil in Hf].
    + apply list_elem_of_singleton in Hv. done.
    + by apply list_elem_of_singleton in HvE.
Defined.

(** ** Sampling: the weight of a sample, and the unbound [curr_factor] *)

Lemma evidence_inner_loop (h : heap) (ev : nat) (e : pyval) :
  get_evidence h ev = Ok e →
  ∀ (fs : list Factor) (w w' : Qc),
  res_foldM (λ curr_weight factor,
      let scp := get_scope factor in
      if decide (ev ∈ scp ∧ length scp = 1%nat) then
        e' ← get_evidence h ev;
        x ← get_value h factor [e'];
        Ok (curr_weight * x)%Qc
      else Ok curr_weight) fs w = Ok w' →
  w' = (w * prodQ ((λ f, value_of h f (<[ev := e]> ∅))
                     <$> filter (λ f, get_scope f = [ev]) fs))%Qc.
Proof.
  intros Hget. induction fs as [|f fs IH]; intros w w'; cbn [res_foldM].
  - intros [= <-]. cbn. ring.
  - match goal with |- context [res_foldM ?b fs] => set (loop := res_foldM b fs) in * end.
    cbn zeta. rewrite filter_cons. destruct (decide (get_scope f = [ev])) as [Hsc|Hsc].
    + rewrite decide_True by (rewrite Hsc; split; [left|done]).
      rewrite Hget. cbn [mbind Res_bind].
      destruct (get_value h f [e]) as [x|err] eqn:Hx; cbn [mbind Res_bind]; [|done].
      intros ->%IH. csimpl.
      assert (value_of h f (<[ev := e]> ∅) = x) as ->; [|ring].
      unfold value_of, value_at. rewrite Hsc. cbn [fmap list_fmap].
      by rewrite lookup_total_insert_eq, Hx.
    + rewrite decide_False.
      * cbn [mbind Res_bind]. apply IH.
      * intros [Hin Hlen]. apply Hsc.
        destruct (get_scope f) as [|a [|b l]]; [done| |done].
        by apply list_elem_of_singleton in Hin as ->.
Qed.

Lemma evidence_loop_from (h : heap) (Net : BN) (Ev : list nat) :
  ∀ (d0 : gmap string pyval) (w0 : Qc) (dct : gmap string pyval) (w : Qc),
  res_foldM (λ '(dct, curr_weight) ev,
      e ← get_evidence h ev;
      let dct := <[v_name (obj h ev) := e]> dct in
      curr_weight ← res_foldM (λ curr_weight factor,
          let scp := get_scope factor in
          if decide (ev ∈ scp ∧ length scp = 1%nat) then
            e' ← get_evidence h ev;
            x ← get_value h factor [e'];
            Ok (curr_weight * x)%Qc
          else Ok curr_weight)
        (factors Net) curr_weight;
      Ok (dct, curr_weight))
    Ev (d0, w0) = Ok (dct, w) →
  w = (w0 * evidence_prior h Net Ev)%Qc.
Proof.
  unfold evidence_prior.
  induction Ev as [|ev Ev IH]; intros d0 w0 dct w; cbn [res_foldM].
  - intros [= <- <-]. cbn. ring.
  - match goal with |- context [res_foldM ?b Ev] => set (outer := res_foldM b Ev) in * end.
    match goal with
    | |- context [res_foldM ?b (factors Net)] => set (inner := res_foldM b (factors Net))
    end.
    assert (∃ r, get_evidence h ev = r) as ([e|err] & Hget) by eauto;
      rewrite Hget; cbn [mbind Res_bind]; [|done].
    cbn zeta.
    destruct (inner w0) as [w1|err] eqn:Hinner; cbn [mbind Res_bind]; [|done].
    subst inner outer.
    apply (evidence_inner_loop h ev e Hget) in Hinner as ->.
    intros ->%IH. csimpl. rewrite prodQ_app. unfold prior_factors, evidence_value.
    rewrite Hget. ring.
Qed.

(** X20.  In [SampleBN] every sample of a call gets the same weight,
    whatever was drawn: the product, over the evidence variables, of the
    values that the one-variable factors on them give to the evidence.
    Factors that mention an evidence variable together with other variables
    never enter the weight; without one-variable factors on evidence
    variables the weight is 1. *)
Theorem SampleBN_weight_is_constant (random : nat → Qc) (h : heap) (Net : BN)
    (EvidenceVars : list nat) (round : Z) (s s' : Sampler)
    (dct : gmap string pyval) (curr_weight : Qc) :
  sample_assignment random h Net EvidenceVars round s = Ok (s', dct, curr_weight) →
  curr_weight = evidence_prior h Net EvidenceVars ∧
  ((∀ ev, ev ∈ EvidenceVars → prior_factors Net ev = []) → curr_weight = 1%Qc).
Proof.
  unfold sample_assignment, evidence_loop. cbn zeta.
  destruct (res_foldM _ EvidenceVars (∅, 1%Qc)) as [[dct0 w0]|err] eqn:Hev;
    cbn [mbind Res_bind]; [|done].
  destruct (res_foldM _ (variables Net) _) as [[s1 dct1]|err];
    cbn [mbind Res_bind]; [|done].
  intros [= <- <- <-]. apply evidence_loop_from in Hev as ->.
  split; [ring|]. intros Hnone. unfold evidence_prior.
  assert ((ev ← EvidenceVars;
           (λ f, value_of h f (<[ev := evidence_value h ev]> ∅)) <$> prior_factors Net ev)
          = []) as ->; [|cbn; ring].
  induction EvidenceVars as [|ev Ev IH]; [done|]. csimpl.
  rewrite (Hnone ev) by left. csimpl. apply IH. intros ev' Hev'. apply Hnone. by right.
Qed.

Lemma SampleBN_weight_is_constant_witness :
  0%Qc = evidence_prior qx_heap_c QXNet_half [vX] ∧
  ((∀ ev, ev ∈ [vX] → prior_factors QXNet_half ev = []) → 0%Qc = 1%Qc).
Proof.
  apply (SampleBN_weight_is_constant (λ _, qc 1 2) qx_heap_c QXNet_half [vX] 0
           (mkSampler [0%Qc; 0%Qc] 0%Qc 0 None 0%nat)
           (mkSampler [0%Qc; 0%Qc] 0%Qc 0 (Some FQ_half) 1%nat)
           (<["Q"%string := VStr "a"]> {["X"%string := VStr "c"]}) 0%Qc).
  vm_compute. reflexivity.
Defined.

Lemma sample_variable_skip (random : nat → Qc) (h : heap) (Net : BN)
    (EvidenceVars : list nat) (st : Sampler * gmap string pyval) (variable : nat) :
  variable ∈ EvidenceVars → sample_variable random h Net EvidenceVars st variable = Ok st.
Proof.
  intros Hin. destruct st as [s dct]. unfold sample_variable.
  case_decide as Hu; [by exfalso|done].
Qed.

Lemma sample_variable_unbound (random : nat → Qc) (h : heap) (Net : BN)
    (EvidenceVars : list nat) (s : Sampler) (dct : gmap string pyval) (variable : nat) :
  variable ∉ EvidenceVars → (∀ f, f ∈ factors Net → variable ∉ get_scope f) →
  curr_factor s = None →
  sample_variable random h Net EvidenceVars (s, dct) variable = Raise UnboundLocalError.
Proof.
  intros Hv Hnone Hcf. unfold sample_variable. case_decide as Hv'; [|done].
  assert (list_find (λ factor, variable ∈ get_scope factor) (factors Net) = None) as ->.
  { apply list_find_None, Forall_forall. intros f Hf. by apply Hnone. }
  by rewrite Hcf.
Qed.

Lemma sample_variable_evidence (random : nat → Qc) (h : heap) (Net : BN)
    (EvidenceVars : list nat) (pre : list nat) :
  (∀ u, u ∈ pre → u ∈ EvidenceVars) →
  ∀ (rest : list nat) (st : Sampler * gmap string pyval),
  res_foldM (sample_variable random h Net EvidenceVars) (pre ++ rest) st
  = res_foldM (sample_variable random h Net EvidenceVars) rest st.
Proof.
  induction pre as [|u pre IH]; intros Hpre rest st; [done|].
  cbn [app res_foldM]. rewrite sample_variable_skip by (apply Hpre; left).
  cbn [mbind Res_bind]. apply IH. intros u' Hu'. apply Hpre. by right.
Qed.

Lemma sample_round_unbound (random : nat → Qc) (h : heap) (Net : BN)
    (QueryVar : nat) (EvidenceVars : list nat) (pre post : list nat) (v : nat)
    (dct : gmap string pyval) (w : Qc) (s : Sampler) (round : Z) :
  variables Net = pre ++ v :: post →
  (∀ u, u ∈ pre → u ∈ EvidenceVars) → v ∉ EvidenceVars →
  (∀ f, f ∈ factors Net → v ∉ get_scope f) →
  evidence_loop h Net EvidenceVars = Ok (dct, w) →
  curr_factor s = None →
  sample_round random h Net QueryVar EvidenceVars s round = Raise UnboundLocalError.
Proof.
  intros Hvars Hpre Hv Hnone Hev Hcf. unfold sample_round, sample_assignment.
  cbn zeta. rewrite Hev. cbn [mbind Res_bind].
  rewrite Hvars, sample_variable_evidence by done. cbn [res_foldM].
  by rewrite sample_variable_unbound.
Qed.

Lemma SampleBN_rounds_unbound (random : nat → Qc) (h : heap) (Net : BN)
    (QueryVar : nat) (EvidenceVars : list nat) (pre post : list nat) (v : nat)
    (dct : gmap string pyval) (w : Qc) (n : nat) :
  variables Net = pre ++ v :: post →
  (∀ u, u ∈ pre → u ∈ EvidenceVars) → v ∉ EvidenceVars →
  (∀ f, f ∈ factors Net → v ∉ get_scope f) →
  evidence_loop h Net EvidenceVars = Ok (dct, w) →
  SampleBN_rounds random h Net QueryVar EvidenceVars (S n) = Raise UnboundLocalError.
Proof.
  intros Hvars Hpre Hv Hnone Hev. unfold SampleBN_rounds.
  cbn [seq fmap list_fmap res_foldM].
  by rewrite (sample_round_unbound _ _ _ _ _ pre post v dct w).
Qed.

(** X21.  When the first variable of the network's list that is not an
    evidence variable occurs in the scope of no factor, [SampleBN] raises
    [UnboundLocalError] in its first round: the local [curr_factor] is read
    before any factor was bound to it.  (The loop over the evidence is taken
    to complete.) *)
Theorem SampleBN_unbound_curr_factor (random : nat → Qc) (h : heap) (Net : BN)
    (QueryVar : nat) (EvidenceVars : list nat) (pre post : list nat) (v : nat)
    (dct : gmap string pyval) (w : Qc) :
  variables Net = pre ++ v :: post →
  (∀ u, u ∈ pre → u ∈ EvidenceVars) → v ∉ EvidenceVars →
  (∀ f, f ∈ factors Net → v ∉ get_scope f) →
  evidence_loop h Net EvidenceVars = Ok (dct, w) →
  SampleBN random h Net QueryVar EvidenceVars = Raise UnboundLocalError.
Proof. intros. unfold SampleBN. by eapply (SampleBN_rounds_unbound _ _ _ _ _ pre post v). Qed.

Lemma SampleBN_unbound_curr_factor_witness :
  SampleBN (λ _, qc 1 2) qx_heap (mkBN "QX" [vX; vQ] [FQ]) vQ [] = Raise UnboundLocalError.
Proof.
  apply (SampleBN_unbound_curr_factor (λ _, qc 1 2) qx_heap (mkBN "QX" [vX; vQ] [FQ]) vQ []
           [] [vQ] vX ∅ 1%Qc).
  - reflexivity.
  - by intros u ?%elem_of_nil.
  - apply not_elem_of_nil.
  - intros f ->%list_elem_of_singleton. vm_compute. set_solver.
  - reflexivity.
Defined.

Lemma py_setitem_length {A} (l l' : list A) (i : Z) (x : A) :
  py_setitem l i x = Ok l' → length l' = length l.
Proof.
  unfold py_setitem. repeat case_decide; intros [= <-]; by rewrite length_insert.
Qed.

Lemma sample_variable_weights (random : nat → Qc) (h : heap) (Net : BN)
    (EvidenceVars : list nat) st variable st' :
  sample_variable random h Net EvidenceVars st variable = Ok st' →
  weights st'.1 = weights st.1 ∧ total st'.1 = total st.1.
Proof.
  destruct st as [s dct]. unfold sample_variable. case_decide; [|by intros [= <-]].
  destruct (match list_find _ _ with Some _ => _ | None => _ end) as [cf|]; [|done].
  destruct (conditional_probs h dct cf variable); cbn [mbind Res_bind]; [|done].
  destruct (choose_loop _ _ _ _ _ _ _ _) as [[i cv]|]; cbn [mbind Res_bind]; [|done].
  by intros [= <-].
Qed.

Lemma sample_round_weights (random : nat → Qc) (h : heap) (Net : BN) (QueryVar : nat)
    (EvidenceVars : list nat) (s s' : Sampler) (round : Z) :
  sample_round random h Net QueryVar EvidenceVars s round = Ok s' →
  length (weights s') = length (weights s).
Proof.
  unfold sample_round, sample_assignment. cbn zeta.
  destruct (evidence_loop h Net EvidenceVars) as [[dct0 w0]|]; cbn [mbind Res_bind]; [|done].
  destruct (res_foldM _ (variables Net) _) as [[s1 dct1]|] eqn:Hvars;
    cbn [mbind Res_bind]; [|done].
  assert (weights s1 = weights s) as Hw.
  { apply (res_foldM_inv (λ st : Sampler * gmap string pyval, weights st.1 = weights s))
      in Hvars; [done| |done].
    intros st a st' Hst Hrun. apply sample_variable_weights in Hrun as [-> _]. done. }
  unfold accumulate. cbn zeta.
  destruct (truthy _); [case_decide|]; cbn [mbind Res_bind].
  - destruct (py_getitem _ _) as [x|]; cbn [mbind Res_bind]; [|done].
    destruct (py_setitem _ _ _) as [ws|] eqn:Hset; cbn [mbind Res_bind]; [|done].
    intros [= <-]. cbn. by rewrite (py_setitem_length _ _ _ _ Hset), Hw.
  - intros [= <-]. cbn. by rewrite Hw.
  - intros [= <-]. cbn. by rewrite Hw.
Qed.

(** X22.  When [SampleBN] returns, its list has one entry for each value of
    the query variable's domain, whatever the draws. *)
Theorem SampleBN_result_length (random : nat → Qc) (h : heap) (Net : BN)
    (QueryVar : nat) (EvidenceVars : list nat) (probs : list Qc) :
  SampleBN random h Net QueryVar EvidenceVars = Ok probs →
  length probs = length (domain h QueryVar).
Proof.
  unfold SampleBN, SampleBN_rounds.
  destruct (res_foldM _ _ _) as [s|] eqn:Hrounds; cbn [mbind Res_bind]; [|done].
  intros Hmap%res_mapM_length. rewrite Hmap.
  apply (res_foldM_inv (λ s, length (weights s) = length (domain h QueryVar))) in Hrounds.
  - done.
  - intros b a b' Hb Hrun. by rewrite (sample_round_weights _ _ _ _ _ _ _ _ Hrun).
  - cbn. by rewrite length_replicate.
Qed.

Lemma SampleBN_result_length_witness :
  length [0%Qc; 1%Qc] = length (domain qx_heap vQ).
Proof.
  apply (SampleBN_result_length (λ _, qc 1 2) qx_heap QXNet vQ [] [0%Qc; 1%Qc]).
  qc_eq.
Defined.

(** ** [print_table] *)

Lemma row_index_fun (h : heap) (g : nat → pyval) (ρ : nat → Z) :
  ∀ (scope : list nat) (acc : Z),
  (∀ v, v ∈ scope → value_index h v (g v) = Ok (ρ v)) →
  row_index h scope (g <$> scope) acc = Ok (hidx h ρ scope acc, []).
Proof.
  induction scope as [|v scope IH]; intros acc Hg; [done|].
  cbn [row_index fmap list_fmap]. rewrite (py_getitem_Ok _ 0 (g v)) by done.
  cbn [mbind Res_bind]. rewrite Hg by left. cbn [mbind Res_bind tail].
  rewrite IH; [done|]. intros w Hw. apply Hg. by right.
Qed.

Section print_table_facts.
Context (h0 : heap) (f : Factor) (Hwf : wf_factor h0 f).

Lemma print_leaf (h : heap) (out : list printed_line) :
  only_assignments (f_scope f) h0 h →
  (∀ v, v ∈ f_scope f → assigned_ok h0 h v) →
  ∃ line, recursive_print_values f [] (h, out) = (Ok tt, (h, out ++ [line])) ∧
          line_ok h0 f line.
Proof using Hwf.
  intros Ho Hok.
  pose proof (only_assignments_same_dom _ _ _ Ho) as Hdom.
  set (g := λ v, default VNone (v_dom (obj h v) !! Z.to_nat (assignment_index (obj h v)))).
  set (ρ := λ v, assignment_index (obj h v)).
  assert (∀ v, v ∈ f_scope f →
            g v ∈ domain h0 v ∧ ρ v = vidx h0 v (g v) ∧
            v_dom (obj h v) !! Z.to_nat (ρ v) = Some (g v)) as Hg.
  { intros v Hv. destruct (Hok v Hv) as (val & Hval & Hidx).
    pose proof (vidx_lookup h0 v val Hval) as Hl. unfold domain in Hl.
    rewrite <- (Hdom v), <- Hidx in Hl. unfold g, ρ. rewrite Hl. by split_and!. }
  assert (∀ v, v ∈ f_scope f → 0 ≤ ρ v < domain_size h0 v) as Hb.
  { intros v Hv. destruct (Hg v Hv) as (Hin & -> & _). by apply vidx_bounds. }
  exists ((λ v, (v_name (obj h v), g v)) <$> f_scope f, table_at h0 f ρ). split.
  - cbn [recursive_print_values]. unfold bind at 1, get at 1. cbn [fst snd].
    unfold bind at 1, lift at 1.
    rewrite (res_mapM_ok _ (λ v, (v_name (obj h v), g v))).
    + unfold bind at 1, lift at 1.
      by rewrite (get_value_current_run h0 h f ρ Hdom Hwf).
    + intros v Hv. destruct (Hg v Hv) as (_ & _ & Hl). specialize (Hb v Hv).
      unfold get_assignment. fold (ρ v). rewrite decide_True by lia.
      by rewrite (py_getitem_Ok _ _ _ Hl) by lia.
  - split; cbn [fst snd].
    + rewrite <- list_fmap_compose. apply list_fmap_ext. intros i v _. cbn.
      by destruct (Ho v) as (-> & _).
    + rewrite <- list_fmap_compose. unfold get_value.
      rewrite (row_index_fun h0 g ρ).
      * cbn [mbind Res_bind]. by apply py_getitem_table.
      * intros v Hv. destruct (Hg v Hv) as (Hin & -> & _). by apply vidx_Ok.
Qed.

Lemma recursive_print_values_spec (vars : list nat) :
  ∀ (h : heap) (out : list printed_line),
  only_assignments (f_scope f) h0 h →
  (∀ v, v ∈ vars → v ∈ f_scope f) →
  (∀ v, v ∈ f_scope f → v ∉ vars → assigned_ok h0 h v) →
  ∃ lines h',
    recursive_print_values f vars (h, out) = (Ok tt, (h', out ++ lines)) ∧
    only_assignments vars h h' ∧
    length lines = Z.to_nat (psize h0 vars) ∧
    Forall (line_ok h0 f) lines.
Proof using Hwf.
  induction vars as [|v0 vars IH]; intros h out Ho Hsub Hok.
  - destruct (print_leaf h out Ho) as (line & Hrun & Hline).
    { intros v Hv. apply Hok; [done|apply not_elem_of_nil]. }
    exists [line], h. split_and!; [done|apply only_assignments_refl|done|by constructor].
  - assert (v0 ∈ f_scope f) as Hv0 by (apply Hsub; left).
    assert (∀ v, v ∈ vars → v ∈ f_scope f) as Hsub' by (intros v Hv; apply Hsub; by right).
    assert (∀ vals (h : heap) (out : list printed_line),
              (∀ val, val ∈ vals → val ∈ domain h0 v0) →
              only_assignments (f_scope f) h0 h →
              (∀ v, v ∈ f_scope f → v ∉ v0 :: vars → assigned_ok h0 h v) →
              ∃ lines h',
                for_ (λ val, on_store (set_assignment v0 val) ;;;
                             recursive_print_values f vars) vals (h, out)
                = (Ok tt, (h', out ++ lines)) ∧
                only_assignments (v0 :: vars) h h' ∧
                length lines = (length vals * Z.to_nat (psize h0 vars))%nat ∧
                Forall (line_ok h0 f) lines) as Hloop.
    { clear h out Ho Hok. induction vals as [|val vals IHvals]; intros h out Hvals Ho Hok.
      - exists [], h. rewrite app_nil_r.
        split_and!; [done|apply only_assignments_refl|done|constructor].
      - pose proof (only_assignments_same_dom _ _ _ Ho) as Hdom.
        assert (val ∈ domain h0 v0) as Hval by (apply Hvals; left).
        set (h1 := <[v0 := with_assignment_index (obj h v0) (vidx h0 v0 val)]> h).
        assert (only_assignments (v0 :: vars) h h1) as Ho1
          by (apply only_assignments_insert; left).
        assert (only_assignments (f_scope f) h h1) as Ho1'
          by (by apply only_assignments_insert).
        destruct (IH h1 out) as (lines1 & h2 & Hrun1 & Ho2 & Hlen1 & Hok1).
        { by eapply only_assignments_trans. }
        { done. }
        { intros v Hv Hnin. destruct (decide (v = v0)) as [->|Hne].
          - exists val. split; [done|]. unfold h1. by rewrite obj_insert_eq.
          - destruct (Hok v Hv) as (val' & Hval' & Hidx);
              [rewrite not_elem_of_cons; naive_solver|].
            exists val'. split; [done|]. unfold h1. by rewrite obj_insert_ne. }
        assert (only_assignments (v0 :: vars) h h2) as Ho12.
        { eapply only_assignments_trans; [exact Ho1|].
          eapply only_assignments_mono; [|exact Ho2]. intros v Hv. by right. }
        destruct (IHvals h2 (out ++ lines1)) as (lines2 & h' & Hrun2 & Ho3 & Hlen2 & Hok2).
        { intros val' Hval'. apply Hvals. by right. }
        { eapply only_assignments_trans; [exact Ho|].
          eapply only_assignments_mono; [|exact Ho12].
          intros v [->|Hv]%elem_of_cons; [done|by apply Hsub']. }
        { intros v Hv Hnin. destruct (Hok v Hv Hnin) as (val' & Hval' & Hidx).
          exists val'. split; [done|]. destruct (Ho12 v) as (_ & _ & _ & _ & Ha).
          by rewrite Ha. }
        exists (lines1 ++ lines2), h'. split_and!.
        + cbn [for_]. unfold bind at 1, bind at 1, on_store at 1. cbn [fst snd].
          rewrite (set_assignment_run h0 h v0 val Hdom Hval). fold h1.
          rewrite Hrun1, app_assoc. exact Hrun2.
        + by eapply only_assignments_trans.
        + rewrite length_app, Hlen1, Hlen2. cbn [length]. lia.
        + by apply Forall_app. }
    destruct (Hloop (domain h v0) h out) as (lines & h' & Hrun & Ho' & Hlen & Hlines).
    { intros val. unfold domain. by destruct (Ho v0) as (_ & -> & _). }
    { done. }
    { done. }
    exists lines, h'. split_and!; [exact Hrun|done| |done].
    rewrite Hlen. assert (psize h0 (v0 :: vars) = domain_size h0 v0 * psize h0 vars) as -> by done.
    pose proof (psize_nonneg h0 vars).
    unfold domain_size, domain. destruct (Ho v0) as (_ & -> & _).
    rewrite Z2Nat.inj_mul, Nat2Z.id by lia. done.
Qed.

Lemma restore_assignments (h : heap) (scope : list nat) :
  ∀ (h1 : heap) (out : list printed_line),
  ∃ h2 rest,
    foldM (λ saved_values v,
        i <- lift (py_getitem saved_values 0) ;;
        on_store (set_assignment_index v i) ;;;
        ret (tail saved_values))
      scope ((λ v, get_assignment_index h v) <$> scope) (h1, out)
    = (Ok rest, (h2, out)) ∧
    ∀ v, obj h2 v = if decide (v ∈ scope)
                    then with_assignment_index (obj h1 v) (assignment_index (obj h v))
                    else obj h1 v.
Proof.
  induction scope as [|a scope IH]; intros h1 out.
  - exists h1, []. split; [done|]. intros v. by rewrite decide_False by apply not_elem_of_nil.
  - set (h1' := <[a := with_assignment_index (obj h1 a) (get_assignment_index h a)]> h1).
    destruct (IH h1' out) as (h2 & rest & Hrun & Hobj).
    exists h2, rest. split.
    + cbn [foldM fmap list_fmap]. unfold bind at 1, bind at 1, lift at 1.
      rewrite (py_getitem_Ok _ 0 (get_assignment_index h a)) by done.
      unfold bind at 1, on_store at 1, set_assignment_index at 1. cbn [fst snd].
      unfold ret at 1. cbn [tail]. exact Hrun.
    + intros v. rewrite Hobj. unfold h1'.
      destruct (decide (a = v)) as [->|Hne].
      * rewrite obj_insert_eq. rewrite (decide_True (P := v ∈ v :: scope)) by left.
        by case_decide.
      * rewrite obj_insert_ne by done. destruct (decide (v ∈ scope)) as [Hin|Hnin].
        -- by rewrite decide_True by (by right).
        -- rewrite decide_False; [done|]. rewrite not_elem_of_cons. naive_solver.
Qed.
End print_table_facts.



(** ** Sampling a child before its parents *)

Lemma res_mapM_raise {A B} (g : A → Res B) (l : list A) (e : pyerr) (u : A) :
  (∀ w, w ∈ l → (∃ b, g w = Ok b) ∨ g w = Raise e) →
  u ∈ l → g u = Raise e →
  res_mapM g l = Raise e.
Proof.
  induction l as [|a l IH]; intros Hall Hu Hgu; [by apply elem_of_nil in Hu|].
  cbn [res_mapM].
  destruct (Hall a ltac:(left)) as [(b & Hb)|Hb]; rewrite Hb; cbn [mbind Res_bind]; [|done].
  assert (u ∈ l) as Hu' by (apply elem_of_cons in Hu as [->|Hu]; [congruence|done]).
  rewrite IH; [done| |done|done]. intros w Hw. apply Hall. by right.
Qed.

Lemma evidence_loop_dct (h : heap) (Net : BN) (name : string) (Ev : list nat) :
  (∀ ev, ev ∈ Ev → v_name (obj h ev) ≠ name) →
  ∀ (d0 : gmap string pyval) (w0 : Qc) (dct : gmap string pyval) (w : Qc),
  res_foldM (λ '(dct, curr_weight) ev,
      e ← get_evidence h ev;
      let dct := <[v_name (obj h ev) := e]> dct in
      curr_weight ← res_foldM (λ curr_weight factor,
          let scp := get_scope factor in
          if decide (ev ∈ scp ∧ length scp = 1%nat) then
            e' ← get_evidence h ev;
            x ← get_value h factor [e'];
            Ok (curr_weight * x)%Qc
          else Ok curr_weight)
        (factors Net) curr_weight;
      Ok (dct, curr_weight))
    Ev (d0, w0) = Ok (dct, w) →
  dct !! name = d0 !! name.
Proof.
  induction Ev as [|ev Ev IH]; intros Hname d0 w0 dct w; cbn [res_foldM].
  - by intros [= <- <-].
  - destruct (get_evidence h ev) as [e|err]; cbn [mbind Res_bind]; [|done].
    cbn zeta.
    destruct (res_foldM _ (factors Net) w0) as [w1|err]; cbn [mbind Res_bind]; [|done].
    intros Hrun%IH; [|intros ev' Hev'; apply Hname; by right].
    rewrite Hrun. apply lookup_insert_ne, Hname. left.
Qed.

Lemma conditional_probs_KeyError (h : heap) (dct : gmap string pyval) (cf : Factor)
    (v u : nat) :
  u ∈ get_scope cf → u ≠ v → dct !! v_name (obj h u) = None → domain h v ≠ [] →
  conditional_probs h dct cf v = Raise KeyError.
Proof.
  intros Hu Hne Hdct Hdom. unfold conditional_probs.
  destruct (domain h v) as [|val vals]; [done|]. cbn [res_mapM].
  rewrite (res_mapM_raise _ (get_scope cf) KeyError u); [done| |done|].
  - intros w _. case_decide; [left; by eexists|].
    destruct (dct !! v_name (obj h w)); [left; by eexists|by right].
  - rewrite decide_False by done. by rewrite Hdct.
Qed.

Lemma sample_variable_KeyError (random : nat → Qc) (h : heap) (Net : BN)
    (EvidenceVars : list nat) (s : Sampler) (dct : gmap string pyval)
    (v u : nat) (i : nat) (cf : Factor) :
  v ∉ EvidenceVars →
  list_find (λ factor, v ∈ get_scope factor) (factors Net) = Some (i, cf) →
  u ∈ get_scope cf → u ≠ v → dct !! v_name (obj h u) = None → domain h v ≠ [] →
  sample_variable random h Net EvidenceVars (s, dct) v = Raise KeyError.
Proof.
  intros Hv Hfind Hu Hne Hdct Hdom. unfold sample_variable.
  case_decide as Hv'; [|done]. rewrite Hfind.
  by rewrite (conditional_probs_KeyError h dct cf v u).
Qed.

(** X24.  [SampleBN] samples the variables in the order of the network's
    list and conditions each on the values already in its dictionary.  When
    the first variable to be sampled has, in the first factor that mentions
    it, another variable that is not evidence, that variable has no entry
    yet and [SampleBN] raises [KeyError] in its first round: a child must not
    be listed before its parents.  (The variable's domain is not empty and
    the loop over the evidence is taken to complete.) *)
Theorem SampleBN_child_before_parent (random : nat → Qc) (h : heap) (Net : BN)
    (QueryVar : nat) (EvidenceVars : list nat) (pre post : list nat) (v u : nat)
    (i : nat) (cf : Factor) (dct : gmap string pyval) (w : Qc) :
  variables Net = pre ++ v :: post →
  (∀ x, x ∈ pre → x ∈ EvidenceVars) → v ∉ EvidenceVars →
  list_find (λ factor, v ∈ get_scope factor) (factors Net) = Some (i, cf) →
  u ∈ get_scope cf → u ≠ v →
  (∀ ev, ev ∈ EvidenceVars → v_name (obj h ev) ≠ v_name (obj h u)) →
  domain h v ≠ [] →
  evidence_loop h Net EvidenceVars = Ok (dct, w) →
  SampleBN random h Net QueryVar EvidenceVars = Raise KeyError.
Proof.
  intros Hvars Hpre Hv Hfind Hu Hne Hnames Hdom Hev.
  assert (dct !! v_name (obj h u) = None) as Hdct.
  { unfold evidence_loop in Hev. by rewrite (evidence_loop_dct _ _ _ _ Hnames _ _ _ _ Hev). }
  assert (∀ s round,
            sample_round random h Net QueryVar EvidenceVars s round = Raise KeyError)
    as Hround.
  { intros s round. unfold sample_round, sample_assignment. cbn zeta.
    rewrite Hev. cbn [mbind Res_bind].
    rewrite Hvars, sample_variable_evidence by done. cbn [res_foldM].
    by rewrite (sample_variable_KeyError _ _ _ _ _ _ v u i cf). }
  unfold SampleBN, SampleBN_rounds. cbn [seq fmap list_fmap res_foldM].
  by rewrite Hround.
Qed.

Lemma SampleBN_child_before_parent_witness :
  SampleBN (λ _, qc 1 2) ex_heap
    (mkBN "child first" [vS; vE; vB; vG; vW] [FE; FB; FS; FG; FW]) vG []
  = Raise KeyError.
Proof.
  apply (SampleBN_child_before_parent (λ _, qc 1 2) ex_heap
           (mkBN "child first" [vS; vE; vB; vG; vW] [FE; FB; FS; FG; FW]) vG []
           [] [vE; vB; vG; vW] vS vE 2%nat FS ∅ 1%Qc).
  - reflexivity.
  - by intros x ?%elem_of_nil.
  - apply not_elem_of_nil.
  - vm_compute. reflexivity.
  - vm_compute. set_solver.
  - vm_compute. lia.
  - by intros ev ?%elem_of_nil.
  - vm_compute. discriminate.
  - reflexivity.
Defined.

(** ** [BN.get_variable] and a network without factors *)

Lemma get_variable_loop_Some (h : heap) (vs : list nat) (name : string) (v : nat) :
  get_variable_loop h vs name = Some v →
  v_name (obj h v) = name ∧
  ∃ i, vs !! i = Some v ∧
       ∀ j w, vs !! j = Some w → (j < i)%nat → v_name (obj h w) ≠ name.
Proof.
  induction vs as [|a vs IH]; cbn [get_variable_loop]; [done|].
  case_decide as Ha.
  - intros [= <-]. split; [done|]. exists 0%nat. split; [done|]. intros j w _ Hj. lia.
  - intros (Hname & i & Hi & Hbefore)%IH. split; [done|]. exists (S i). split; [done|].
    intros [|j] w Hw Hj; [by injection Hw as <-|]. apply (Hbefore j); [done|lia].
Qed.

Lemma get_variable_loop_None (h : heap) (vs : list nat) (name : string) :
  get_variable_loop h vs name = None ↔ ∀ v, v ∈ vs → v_name (obj h v) ≠ name.
Proof.
  induction vs as [|a vs IH]; cbn [get_variable_loop].
  - split; [by intros _ v ?%elem_of_nil|done].
  - case_decide as Ha.
    + split; [done|]. intros Hall. exfalso. by apply (Hall a); [left|].
    + rewrite IH. split.
      * intros Hall v [->|Hv]%elem_of_cons; [done|by apply Hall].
      * intros Hall v Hv. apply Hall. by right.
Qed.

(** X25.  [get_variable] finds variables by name.  What it returns is a
    variable of the network's list that has the name, and the first such: no
    variable listed before it has the name, so of two variables with one name
    the second is never returned.  It returns [None] exactly when no variable
    of the list has the name.  When the names of the list are distinct, every
    variable of the list is found under its own name. *)
Theorem get_variable_by_name (h : heap) (Net : BN) :
  (∀ name v, get_variable h Net name = Some v →
     v ∈ variables Net ∧ v_name (obj h v) = name ∧
     ∃ i, variables Net !! i = Some v ∧
          ∀ j w, variables Net !! j = Some w → (j < i)%nat → v_name (obj h w) ≠ name) ∧
  (∀ name, get_variable h Net name = None ↔
           ∀ v, v ∈ variables Net → v_name (obj h v) ≠ name) ∧
  (NoDup ((λ v, v_name (obj h v)) <$> variables Net) →
   ∀ v, v ∈ variables Net → get_variable h Net (v_name (obj h v)) = Some v).
Proof.
  unfold get_variable, variables. split_and!.
  - intros name v (Hname & i & Hi & Hbefore)%get_variable_loop_Some.
    split_and!; [by eapply list_elem_of_lookup_2|done|]. by exists i.
  - intros name. apply get_variable_loop_None.
  - intros Hnd v Hv.
    destruct (get_variable_loop h (bn_Variables Net) (v_name (obj h v))) as [w|] eqn:Hfind.
    + apply get_variable_loop_Some in Hfind as (Hname & i & Hi & _).
      apply list_elem_of_lookup in Hv as (k & Hk). f_equal.
      assert (i = k) as ->; [|congruence].
      apply (NoDup_lookup _ i k (v_name (obj h v)) Hnd); rewrite list_lookup_fmap.
      * by rewrite Hi; cbn; rewrite Hname.
      * by rewrite Hk.
    + exfalso. by apply (proj1 (get_variable_loop_None _ _ _) Hfind v).
Qed.

Lemma VE_evidence_loop_nil (Ev : list nat) (h : heap) :
  foldM (λ factors ev,
      mapM_ (λ factor,
          if decide (ev ∈ get_scope factor) then
            h <- get ;;
            value <- lift (get_evidence h ev) ;;
            restrict_factor factor ev value
          else ret factor)
        factors) Ev [] h = (Ok [], h).
Proof. induction Ev as [|ev Ev IH]; [done|]. cbn [foldM mapM_]. exact IH. Qed.

(** X26.  On a network without factors [VE] raises [IndexError], for every
    query variable and every list of evidence variables, and leaves the store
    as it was: the product of no factors is not defined by
    [multiply_factors]. *)
Theorem VE_no_factors (Net : BN) (QueryVar : nat) (EvidenceVars : list nat) (h : heap) :
  factors Net = [] →
  VE Net QueryVar EvidenceVars h = (Raise IndexError, h).
Proof.
  intros Hnil. unfold VE. rewrite Hnil.
  rewrite (bind_ok _ _ _ _ _ (VE_evidence_loop_nil EvidenceVars h)). done.
Qed.

Lemma VE_no_factors_witness :
  VE (mkBN "empty" [vQ; vX] []) vQ [vX] qx_heap = (Raise IndexError, qx_heap).
Proof. apply (VE_no_factors (mkBN "empty" [vQ; vX] []) vQ [vX] qx_heap). reflexivity. Defined.

(** ** One call of [VE] after another *)

Lemma conditional_brute_force_only S (h h' : heap) (Net : BN) (QueryVar : nat)
    (Ev : list nat) :
  only_assignments S h h' →
  conditional_brute_force h' Net QueryVar Ev = conditional_brute_force h Net QueryVar Ev.
Proof.
  intros Ho. pose proof (only_assignments_same_dom _ _ _ Ho) as Hdom.
  unfold conditional_brute_force. rewrite (domain_same h h' Hdom). f_equal.
  apply list_fmap_ext. intros i q _. rewrite (sum_over_same_dom h h') by done.
  apply sum_over_ext. intros σ.
  by rewrite (joint_same_dom h h'), (with_evidence_only S h h').
Qed.

(** X27.  A call of [VE] does not disturb a later one.  Under the conditions
    of X4 for the later call, [VE] returns after any earlier call of [VE] on
    the network, whatever the earlier query, evidence list and outcome, the
    list it returns without it. *)
Theorem VE_after_VE (h : heap) (Net : BN) (QueryVar QueryVar' : nat)
    (EvidenceVars EvidenceVars' : list nat) :
  factors Net ≠ [] →
  (∀ f, f ∈ factors Net → NoDup (get_scope f) ∧ wf_factor h f) →
  (∀ ev, ev ∈ EvidenceVars' → (∃ f, f ∈ factors Net ∧ ev ∈ get_scope f) →
         ∃ val, get_evidence h ev = Ok val ∧ val ∈ domain h ev) →
  (VE Net QueryVar' EvidenceVars' (VE Net QueryVar EvidenceVars h).2).1
  = (VE Net QueryVar' EvidenceVars' h).1.
Proof.
  intros Hne Hgood Hev.
  destruct (VE Net QueryVar EvidenceVars h) as [r h1] eqn:Hrun1. cbn [snd].
  apply VE_only in Hrun1 as [Ho _].
  pose proof (only_assignments_same_dom _ _ _ Ho) as Hdom.
  destruct (VE_evidence_correct h Net QueryVar' EvidenceVars' Hne Hgood Hev) as (h2 & ->).
  destruct (VE_evidence_correct h1 Net QueryVar' EvidenceVars' Hne) as (h3 & ->).
  - intros f Hf. by apply (good_factor_same h h1), Hgood.
  - intros ev Hin Hex. destruct (Hev ev Hin Hex) as (val & Hget & Hval).
    exists val. by rewrite (get_evidence_only _ _ _ _ Ho), (domain_same h h1 Hdom).
  - cbn [fst]. f_equal. by eapply conditional_brute_force_only.
Qed.

Lemma VE_after_VE_witness :
  (VE ExampleBN vG [vS] (VE ExampleBN vW [vS; vB] (set_evidence vS (VStr "-s") ex_heap).2).2).1
  = (VE ExampleBN vG [vS] (set_evidence vS (VStr "-s") ex_heap).2).1.
Proof.
  apply (VE_after_VE (set_evidence vS (VStr "-s") ex_heap).2 ExampleBN vW vG [vS; vB] [vS]).
  - done.
  - intros f Hf. repeat (apply elem_of_cons in Hf as [->|Hf]);
      [..|by apply elem_of_nil in Hf]; (split; [vm_compute; repeat constructor; set_solver|]);
      vm_compute; reflexivity.
  - intros ev ->%list_elem_of_singleton _. exists (VStr "-s").
    split; [vm_compute; reflexivity|]. vm_compute. set_solver.
Defined.

(** ** Sampling: choosing a value, and the conditional distribution *)

Lemma choose_loop_reached (h : heap) (variable : nat) (r : Qc) (val : pyval) :
  ∀ (probs : list Qc) (k : nat) (index : Z) (acc : Qc) (i0 : Z) (cv0 : pyval),
  0 ≤ index →
  (∀ j, (j < k)%nat → (acc + sumQ (take (S j) probs) < r)%Qc) →
  (k < length probs)%nat →
  (r ≤ acc + sumQ (take (S k) probs))%Qc →
  domain h variable !! (Z.to_nat index + k)%nat = Some val →
  choose_loop h variable r probs index acc i0 cv0 = Ok (index + Z.of_nat k, val).
Proof.
  induction probs as [|p probs IH]; intros k index acc i0 cv0 Hidx Hbefore Hk Hreach Hval;
    [cbn in Hk; lia|].
  cbn [choose_loop]. cbn zeta. destruct k as [|k].
  - cbn [take sumQ foldr] in Hreach.
    rewrite decide_True by (by replace (acc + p)%Qc with (acc + (p + 0))%Qc by ring).
    rewrite Nat.add_0_r in Hval. rewrite (py_getitem_Ok _ _ _ Hval) by done.
    cbn [mbind Res_bind]. do 2 f_equal. lia.
  - pose proof (Hbefore 0%nat ltac:(lia)) as H0. cbn [take sumQ foldr] in H0.
    rewrite decide_False
      by (apply Qclt_not_le; by replace (acc + p)%Qc with (acc + (p + 0))%Qc by ring).
    rewrite (IH k (index + 1) (acc + p)%Qc index cv0).
    + do 2 f_equal. lia.
    + lia.
    + intros j Hj. specialize (Hbefore (S j) ltac:(lia)).
      cbn [take sumQ foldr] in Hbefore. change (foldr Qcplus 0%Qc ?l) with (sumQ l) in Hbefore.
      by replace (acc + p + sumQ (take (S j) probs))%Qc
        with (acc + (p + sumQ (take (S j) probs)))%Qc by ring.
    + cbn in Hk. lia.
    + cbn [take sumQ foldr] in Hreach. change (foldr Qcplus 0%Qc ?l) with (sumQ l) in Hreach.
      by replace (acc + p + sumQ (take (S k) probs))%Qc
        with (acc + (p + sumQ (take (S k) probs)))%Qc by ring.
    + by replace (Z.to_nat (index + 1) + k)%nat with (Z.to_nat index + S k)%nat by lia.
Qed.

Lemma choose_loop_not_reached (h : heap) (variable : nat) (r : Qc) :
  ∀ (probs : list Qc) (index : Z) (acc : Qc) (i0 : Z) (cv0 : pyval),
  (∀ j, (j < length probs)%nat → (acc + sumQ (take (S j) probs) < r)%Qc) →
  choose_loop h variable r probs index acc i0 cv0
  = Ok (if decide (probs = []) then i0 else index + Z.of_nat (length probs) - 1, cv0).
Proof.
  induction probs as [|p probs IH]; intros index acc i0 cv0 Hbefore; [done|].
  cbn [choose_loop]. cbn zeta.
  pose proof (Hbefore 0%nat ltac:(cbn; lia)) as H0. cbn [take sumQ foldr] in H0.
  rewrite decide_False
    by (apply Qclt_not_le; by replace (acc + p)%Qc with (acc + (p + 0))%Qc by ring).
  rewrite IH.
  - rewrite (decide_False (P := p :: probs = [])) by done.
    do 2 f_equal. case_decide as Hnil; [subst probs; cbn; lia|cbn [length]; lia].
  - intros j Hj. specialize (Hbefore (S j) ltac:(cbn; lia)).
    cbn [take sumQ foldr] in Hbefore. change (foldr Qcplus 0%Qc ?l) with (sumQ l) in Hbefore.
    by replace (acc + p + sumQ (take (S j) probs))%Qc
      with (acc + (p + sumQ (take (S j) probs)))%Qc by ring.
Qed.

(** X28.  The choice of a sampled value in [SampleBN] is by cumulative
    probability: the loop stops at the first position whose cumulative
    probability reaches the random number, and takes the value of the domain
    at that position (which is also what the local [i] is left at).  When no
    cumulative probability reaches the random number, the chosen value stays
    the initial 0, which is not a value of the domain, and [i] is left at the
    last position. *)
Theorem choose_loop_cumulative (h : heap) (variable : nat) (r : Qc)
    (probs : list Qc) (k : nat) (val : pyval) (i0 : Z) :
  (∀ j, (j < k)%nat → (sumQ (take (S j) probs) < r)%Qc) →
  (k < length probs)%nat →
  (r ≤ sumQ (take (S k) probs))%Qc →
  domain h variable !! k = Some val →
  choose_loop h variable r probs 0 0%Qc i0 (VInt 0) = Ok (Z.of_nat k, val) ∧
  ∀ r', (∀ j, (j < length probs)%nat → (sumQ (take (S j) probs) < r')%Qc) →
        choose_loop h variable r' probs 0 0%Qc i0 (VInt 0)
        = Ok (Z.of_nat (length probs) - 1, VInt 0).
Proof.
  intros Hbefore Hk Hreach Hval. split.
  - rewrite (choose_loop_reached h variable r val probs k 0 0%Qc); try done.
    + intros j Hj. rewrite Qcplus_0_l. by apply Hbefore.
    + by rewrite Qcplus_0_l.
  - intros r' Hnone. rewrite choose_loop_not_reached.
    + rewrite decide_False; [done|]. intros ->. cbn in Hk. lia.
    + intros j Hj. rewrite Qcplus_0_l. by apply Hnone.
Qed.

Lemma choose_loop_cumulative_witness :
  choose_loop ex_heap vE (qc 1 2) [qc 1 10; qc 9 10] 0 0%Qc 7 (VInt 0)
  = Ok (Z.of_nat 1, VStr "-e") ∧
  ∀ r', (∀ j, (j < length [qc 1 10; qc 9 10])%nat →
              (sumQ (take (S j) [qc 1 10; qc 9 10]) < r')%Qc) →
        choose_loop ex_heap vE r' [qc 1 10; qc 9 10] 0 0%Qc 7 (VInt 0)
        = Ok (Z.of_nat (length [qc 1 10; qc 9 10]) - 1, VInt 0).
Proof.
  apply (choose_loop_cumulative ex_heap vE (qc 1 2) [qc 1 10; qc 9 10] 1 (VStr "-e") 7).
  - intros j Hj. assert (j = 0%nat) as -> by lia. reflexivity.
  - cbn. lia.
  - vm_compute. discriminate.
  - reflexivity.
Defined.

Lemma res_mapM_py_div (s : Qc) (probs : list Qc) :
  res_mapM (λ p, py_div p s) probs
  = if decide (s = 0%Qc)
    then match probs with [] => Ok [] | _ :: _ => Raise ZeroDivisionError end
    else Ok ((λ p, p / s)%Qc <$> probs).
Proof.
  case_decide as Hs.
  - destruct probs as [|p probs]; [done|]. cbn [res_mapM].
    assert (py_div p s = Raise ZeroDivisionError) as ->; [|done].
    unfold py_div. by rewrite decide_True.
  - apply res_mapM_ok. intros p _. unfold py_div. by rewrite decide_False.
Qed.


